(** * FunctionSolver: a shallow embedding of the equation solver in Rocq

    The development follows the TypeScript sources:
    - [src/src/tokenizer.ts] : [TokenType], [Token], [findClosingParen], [tokenize];
    - [src/src/parser.ts]    : the expression tree, [exprToString], [parse];
    - [src/src/solver.ts]    : [simplifyOnce], [simplify], the permutation
      search ([findPermutations], [applyPermutation], [buildSolutionTree],
      [extractSolutions], [findSolution]), [treeToVisualizationFormat] and
      the tree stored for [getSolutionTree] ([findSolution_viz]).

    JavaScript numbers are abstracted by the class [JSNum]: the program is
    written once over it and instantiated at IEEE-754 binary64 floats
    ([PrimFloat], the semantics of JavaScript numbers). *)

From Stdlib Require Import String Ascii List ZArith Lia Bool PeanoNat.
From Stdlib Require Import QArith.
From Stdlib Require Import Floats.
Import ListNotations.
Set Warnings "-register-all,-inexact-float".
Open Scope nat_scope.
Open Scope string_scope.

(** ** Numbers *)

(** The operations of JavaScript numbers that the program uses: the four
    arithmetic operators, [===], [<], [Math.abs], numeric constants,
    [Number.prototype.toString] and [parseFloat]. *)
Class JSNum (num : Type) := {
  js_add : num -> num -> num;
  js_sub : num -> num -> num;
  js_mul : num -> num -> num;
  js_div : num -> num -> num;
  js_eqb : num -> num -> bool;   (* [===] *)
  js_ltb : num -> num -> bool;   (* [<] *)
  js_abs : num -> num;           (* [Math.abs] *)
  js_of_Z : Z -> num;            (* numeric literals of the source *)
  js_toString : num -> string;   (* [value.toString()] *)
  js_parseFloat : string -> num  (* [parseFloat] *)
}.

(** ** The expression tree (parser.ts) *)

(** The [operator] field of a [BinaryExpression]; the parser only ever
    stores one of the four token texts there. *)
Inductive Op := OpAdd | OpSub | OpMul | OpDiv.

Definition op_str (o : Op) : string :=
  match o with OpAdd => "+" | OpSub => "-" | OpMul => "*" | OpDiv => "/" end.

Definition op_eqb (a b : Op) : bool :=
  match a, b with
  | OpAdd, OpAdd | OpSub, OpSub | OpMul, OpMul | OpDiv, OpDiv => true
  | _, _ => false
  end.

(** [+] or [-] *)
Definition additive (o : Op) : bool :=
  match o with OpAdd | OpSub => true | _ => false end.

(** [*] or [/] *)
Definition multiplicative (o : Op) : bool := negb (additive o).

(** ** Tokens (tokenizer.ts) *)

Module TokenType.
Inductive t := Number | Plus | Minus | Multiply | Divide | Oparen | Cparen
             | Var (* [Variable] *) | Equals.
End TokenType.

Record Token := mkToken { tok_type : TokenType.t; tok_value : string }.

(** Sequencing of fallible results that carry a pair. *)
Notation "'let*' ( x , y ) := m 'in' k" :=
  (match m with inl err => inl err | inr (x, y) => k end)
  (at level 200, x name, y name, m at level 100, k at level 200).

Section Program.
Context {num : Type} `{JSNum num}.

Inductive Expr :=
| NumberLiteral (value : num)
| Var (name : string)  (* [Variable]: a Rocq keyword *)
| BinaryExpression (operator : Op) (left right : Expr)
| Equation (left right : Expr).

Definition paren (s : string) : string := "(" ++ s ++ ")".

(** [exprToString] (parser.ts, lines 30-81). *)
Fixpoint exprToString (e : Expr) : string :=
  match e with
  | NumberLiteral v =>
      if js_ltb v (js_of_Z 0) then paren (js_toString v) else js_toString v
  | Var n => n
  | BinaryExpression op l r =>
      let leftStr := exprToString l in
      let rightStr := exprToString r in
      let leftStr :=
        match l with
        | BinaryExpression lop _ _ =>
            if additive lop && multiplicative op then paren leftStr else leftStr
        | _ => leftStr
        end in
      let rightStr :=
        match r with
        | BinaryExpression rop _ _ =>
            let s1 := if additive rop && multiplicative op
                      then paren rightStr else rightStr in
            let s2 := if op_eqb op OpSub && op_eqb rop OpSub then paren s1 else s1 in
            let s3 := if op_eqb op OpSub && op_eqb rop OpAdd then paren s2 else s2 in
            if op_eqb op OpDiv && (op_eqb rop OpDiv || op_eqb rop OpMul)
            then paren s3 else s3
        | _ => rightStr
        end in
      leftStr ++ " " ++ op_str op ++ " " ++ rightStr
  | Equation l r => exprToString l ++ " = " ++ exprToString r
  end.

(** ** The simplifier (solver.ts, lines 27-408) *)

Definition lit (z : Z) : Expr := NumberLiteral (js_of_Z z).

Definition fold_op (op : Op) (a b : num) : num :=
  match op with
  | OpAdd => js_add a b | OpSub => js_sub a b
  | OpMul => js_mul a b | OpDiv => js_div a b
  end.

(** [e.type === "NumberLiteral" && e.value === v] *)
Definition isNumVal (e : Expr) (v : num) : bool :=
  match e with NumberLiteral x => js_eqb x v | _ => false end.

(** The local helper [exprsEqual] (lines 180-189). *)
Definition exprsEqual (e1 e2 : Expr) : bool :=
  match e1, e2 with
  | NumberLiteral a, NumberLiteral b => js_eqb a b
  | Var a, Var b => String.eqb a b
  | _, _ => false
  end.

(** Constant folding (lines 55-87). *)
Definition rule_fold (op : Op) (left right : Expr) : option Expr :=
  match left, right with
  | NumberLiteral a, NumberLiteral b => Some (NumberLiteral (fold_op op a b))
  | _, _ => None
  end.

(** Identity and absorbing elements (lines 89-122). *)
Definition rule_identity (op : Op) (left right : Expr) : option Expr :=
  let zero := js_of_Z 0 in let one := js_of_Z 1 in
  if op_eqb op OpAdd && isNumVal right zero then Some left
  else if op_eqb op OpAdd && isNumVal left zero then Some right
  else if op_eqb op OpSub && isNumVal right zero then Some left
  else if op_eqb op OpMul && isNumVal right one then Some left
  else if op_eqb op OpMul && isNumVal left one then Some right
  else if op_eqb op OpMul && isNumVal right zero then Some (lit 0)
  else if op_eqb op OpMul && isNumVal left zero then Some (lit 0)
  else if op_eqb op OpDiv && isNumVal right one then Some left
  else None.

(** Like terms [v + v = 2 * v] (lines 124-136). *)
Definition rule_like_vars (op : Op) (left right : Expr) : option Expr :=
  match left, right with
  | Var a, Var b =>
      if op_eqb op OpAdd && String.eqb a b
      then Some (BinaryExpression OpMul (lit 2) left) else None
  | _, _ => None
  end.

(** Multiplicative cancellation with a literal on the right
    (lines 138-160). *)
Definition rule_cancel_right_lit (op : Op) (left right : Expr) : option Expr :=
  match left, right with
  | BinaryExpression lop ll lr, NumberLiteral rightVal =>
      match
        (if op_eqb op OpDiv && op_eqb lop OpMul then
           if isNumVal lr rightVal then Some ll
           else if isNumVal ll rightVal then Some lr
           else None
         else None)
      with
      | Some r => Some r
      | None =>
          if op_eqb op OpMul && op_eqb lop OpDiv
             && negb (js_eqb rightVal (js_of_Z 0))
             && isNumVal lr rightVal
          then Some ll else None
      end
  | _, _ => None
  end.

(** [n * (a / n) = a] (lines 162-173). *)
Definition rule_cancel_left_lit (op : Op) (left right : Expr) : option Expr :=
  match left, right with
  | NumberLiteral leftVal, BinaryExpression rop rl rr =>
      if op_eqb op OpMul && op_eqb rop OpDiv
         && negb (js_eqb leftVal (js_of_Z 0)) && isNumVal rr leftVal
      then Some rl else None
  | _, _ => None
  end.

(** [(k * v) + m] with the coefficient [k] reduced: the shared tail of the
    two like-terms rules (lines 247-271 and 291-313). *)
Definition coeff_term (newCoeff : num) (v m : Expr) : Expr :=
  if js_eqb newCoeff (js_of_Z 0) then m
  else if js_eqb newCoeff (js_of_Z 1) then BinaryExpression OpAdd v m
  else BinaryExpression OpAdd (BinaryExpression OpMul (NumberLiteral newCoeff) v) m.

(** [(a + n) - m] and [(a - n) + m] re-association: the result for the net
    constant [newConst] (lines 206-215 and 223-232). *)
Definition reassoc_term (a : Expr) (newConst : num) : Expr :=
  if js_eqb newConst (js_of_Z 0) then a
  else BinaryExpression (if js_ltb (js_of_Z 0) newConst then OpAdd else OpSub)
         a (NumberLiteral (js_abs newConst)).

(** The block for a binary left operand (lines 175-318): additive
    cancellation, constant re-association and like terms. *)
Definition rule_left_binary (op : Op) (left right : Expr) : option Expr :=
  match left with
  | BinaryExpression lop ll lr =>
      (* (a + b) - b = a *)
      if op_eqb op OpSub && op_eqb lop OpAdd && exprsEqual lr right then Some ll
      (* (a - b) + b = a *)
      else if op_eqb op OpAdd && op_eqb lop OpSub && exprsEqual lr right then Some ll
      else
      match lr, right with
      (* (a + n) - m *)
      | NumberLiteral n, NumberLiteral m =>
          if op_eqb op OpSub && op_eqb lop OpAdd then Some (reassoc_term ll (js_sub n m))
          (* (a - n) + m *)
          else if op_eqb op OpAdd && op_eqb lop OpSub then Some (reassoc_term ll (js_sub m n))
          else None
      | _, _ => None
      end
  | _ => None
  end.

Definition rule_like_coeff (op : Op) (left right : Expr) : option Expr :=
  match left with
  | BinaryExpression lop ll lr =>
      match right with
      (* ((n * var) + m) - var = ((n-1) * var) + m *)
      | Var rname =>
          if op_eqb op OpSub && op_eqb lop OpAdd then
            match ll with
            | BinaryExpression OpMul (NumberLiteral coeff) (Var vname as v) =>
                if String.eqb vname rname
                then Some (coeff_term (js_sub coeff (js_of_Z 1)) v lr)
                else None
            | _ => None
            end
          else None
      (* ((a * var) + m) - b * var = ((a - b) * var) + m *)
      | BinaryExpression OpMul (NumberLiteral rc) rv =>
          if op_eqb op OpSub && op_eqb lop OpAdd then
            match ll with
            | BinaryExpression OpMul (NumberLiteral lc) lv =>
                match lv, rv with
                | Var a, Var b =>
                    if String.eqb a b then Some (coeff_term (js_sub lc rc) lv lr)
                    else None
                | _, _ => None
                end
            | _ => None
            end
          else None
      | _ => None
      end
  | _ => None
  end.

(** Distribution laws (lines 320-396); [so] is the recursive call
    [simplifyOnce] made on the two new products or quotients. *)
Definition rule_distribute (so : Expr -> Expr) (op : Op) (left right : Expr)
  : option Expr :=
  match op, left, right with
  | OpMul, NumberLiteral _, BinaryExpression rop rl rr =>
      if additive rop then
        Some (BinaryExpression rop (so (BinaryExpression OpMul left rl))
                                   (so (BinaryExpression OpMul left rr)))
      else None
  | OpMul, BinaryExpression lop ll lr, NumberLiteral _ =>
      if additive lop then
        Some (BinaryExpression lop (so (BinaryExpression OpMul ll right))
                                   (so (BinaryExpression OpMul lr right)))
      else None
  | OpDiv, BinaryExpression lop ll lr, _ =>
      if additive lop then
        Some (BinaryExpression lop (so (BinaryExpression OpDiv ll right))
                                   (so (BinaryExpression OpDiv lr right)))
      else None
  | _, _, _ => None
  end.

(** One rewrite step at a binary node whose children are already simplified:
    the rules in the order of the source; the first that applies wins. *)
Definition simplifyNode (so : Expr -> Expr) (op : Op) (left right : Expr) : Expr :=
  match rule_fold op left right with Some r => r | None =>
  match rule_identity op left right with Some r => r | None =>
  match rule_like_vars op left right with Some r => r | None =>
  match rule_cancel_right_lit op left right with Some r => r | None =>
  match rule_cancel_left_lit op left right with Some r => r | None =>
  match rule_left_binary op left right with Some r => r | None =>
  match rule_like_coeff op left right with Some r => r | None =>
  match rule_distribute so op left right with Some r => r | None =>
  BinaryExpression op left right
  end end end end end end end end.

(** [simplifyOnce] with a recursion budget [fuel]; [simplifyOnce] below
    supplies the budget [measure e], which the recursion never exhausts. *)
Fixpoint simplifyOnce_fuel (fuel : nat) (e : Expr) : Expr :=
  match fuel with
  | O => e
  | S f =>
      match e with
      | Equation l r => Equation (simplifyOnce_fuel f l) (simplifyOnce_fuel f r)
      | BinaryExpression op l r =>
          simplifyNode (simplifyOnce_fuel f) op
            (simplifyOnce_fuel f l) (simplifyOnce_fuel f r)
      | _ => e
      end
  end.

(** A polynomial weight of the tree: leaves weigh 2, [+], [-] and [=] add
    the weights of their operands plus one, [*] and [/] multiply them.
    Every rewrite rule strictly lowers it. *)
Fixpoint measure (e : Expr) : nat :=
  match e with
  | NumberLiteral _ | Var _ => 2
  | BinaryExpression op l r =>
      if additive op then measure l + measure r + 1 else measure l * measure r
  | Equation l r => measure l + measure r + 1
  end.

Definition simplifyOnce (e : Expr) : Expr := simplifyOnce_fuel (measure e) e.

(** The [do ... while] loop of [simplify] (lines 27-38), run for at most
    [n] passes; [None] when the passes run out. *)
Fixpoint simplify_iter (n : nat) (current : Expr) : option Expr :=
  match n with
  | O => None
  | S n' =>
      let previous := exprToString current in
      let current := simplifyOnce current in
      if String.eqb (exprToString current) previous then Some current
      else simplify_iter n' current
  end.

(** [simplify]: [measure e + 1] passes always suffice (theorem
    [simplify_terminates]); the [None] branch is unreachable. *)
Definition simplify (e : Expr) : Expr :=
  match simplify_iter (S (measure e)) e with Some r => r | None => e end.


(** ** The tokenizer (tokenizer.ts, lines 33-77) *)

(** The source string is modelled as a string of [ascii] characters, read
    as the UTF-16 code units U+0000 to U+00FF (Latin-1). [/\s/] matches
    these of them: tab, line feed, vertical tab, form feed, carriage return,
    space and the no-break space U+00A0. (The other characters of
    [/\s/], such as U+2028 or U+FEFF, lie outside this range.) *)
Definition is_space (c : ascii) : bool :=
  match nat_of_ascii c with 9 | 10 | 11 | 12 | 13 | 32 | 160 => true | _ => false end.

(** [/\d/] *)
Definition is_digit (c : ascii) : bool :=
  let n := nat_of_ascii c in Nat.leb 48 n && Nat.leb n 57.

(** [/[a-zA-Z]/] *)
Definition is_alpha (c : ascii) : bool :=
  let n := nat_of_ascii c in (Nat.leb 65 n && Nat.leb n 90) || (Nat.leb 97 n && Nat.leb n 122).

Definition char_str (c : ascii) : string := String c EmptyString.

Definition cons_tok (t : Token) (r : string + list Token) : string + list Token :=
  match r with inl err => inl err | inr ts => inr (t :: ts) end.

(** The single-character tokens. *)
Definition char_token (c : ascii) : option TokenType.t :=
  if Ascii.eqb c "+" then Some TokenType.Plus
  else if Ascii.eqb c "-" then Some TokenType.Minus
  else if Ascii.eqb c "*" then Some TokenType.Multiply
  else if Ascii.eqb c "/" then Some TokenType.Divide
  else if Ascii.eqb c "(" then Some TokenType.Oparen
  else if Ascii.eqb c ")" then Some TokenType.Cparen
  else if Ascii.eqb c "=" then Some TokenType.Equals
  else if is_alpha c then Some TokenType.Var
  else None.

(** A number is a maximal run of digits, then a ['.'] and a maximal run of
    digits when a digit follows the ['.']. The index loop of the source reads
    the same characters; here the remaining input is a suffix of the string. *)
Fixpoint tokenize (s : string) : string + list Token :=
  match s with
  | EmptyString => inr []
  | String c rest =>
      if is_space c then tokenize rest
      else if is_digit c then
        (fix int_part (num : string) (t : string) : string + list Token :=
           match t with
           | String d t' =>
               if is_digit d then int_part (num ++ char_str d) t'
               else if Ascii.eqb d "." then
                 match t' with
                 | String d2 t'' =>
                     if is_digit d2 then
                       (fix frac_part (num : string) (u : string) : string + list Token :=
                          match u with
                          | String d3 u' =>
                              if is_digit d3 then frac_part (num ++ char_str d3) u'
                              else cons_tok (mkToken TokenType.Number num) (tokenize u)
                          | EmptyString => inr [mkToken TokenType.Number num]
                          end) (num ++ "." ++ char_str d2) t''
                     else cons_tok (mkToken TokenType.Number num) (tokenize t)
                 | EmptyString => cons_tok (mkToken TokenType.Number num) (tokenize t)
                 end
               else cons_tok (mkToken TokenType.Number num) (tokenize t)
           | EmptyString => inr [mkToken TokenType.Number num]
           end) (char_str c) rest
      else match char_token c with
           | Some ty => cons_tok (mkToken ty (char_str c)) (tokenize rest)
           | None => inl ("Unexpected character: " ++ char_str c)
           end
  end.

(** ** The parser (parser.ts, lines 83-215) *)

(** Results of the parsing functions: an error message (a thrown [Error])
    or the parsed tree with the remaining tokens ([position] of the source
    is the suffix of the token list still to read). *)
Definition PResult := (string + (Expr * list Token))%type.


Definition fuel_msg : string := "parser recursion budget exhausted".

Definition tok_is (ty : TokenType.t) (t : Token) : bool :=
  match ty, tok_type t with
  | TokenType.Number, TokenType.Number | TokenType.Plus, TokenType.Plus
  | TokenType.Minus, TokenType.Minus | TokenType.Multiply, TokenType.Multiply
  | TokenType.Divide, TokenType.Divide | TokenType.Oparen, TokenType.Oparen
  | TokenType.Cparen, TokenType.Cparen | TokenType.Var, TokenType.Var
  | TokenType.Equals, TokenType.Equals => true
  | _, _ => false
  end.

(** The operator of a [+] or [-] token. *)
Definition addsub_op (t : Token) : option Op :=
  match tok_type t with
  | TokenType.Plus => Some OpAdd | TokenType.Minus => Some OpSub | _ => None
  end.

(** The operator of a [*] or [/] token. *)
Definition muldiv_op (t : Token) : option Op :=
  match tok_type t with
  | TokenType.Multiply => Some OpMul | TokenType.Divide => Some OpDiv | _ => None
  end.

(** The mutually recursive parsing functions, with a recursion budget
    [fuel]; [parse] supplies a budget linear in the number of tokens, which
    is enough for every printed tree (see [parse_printed]). The [while] loops of
    [parseAddSubtract] and [parseMultiplyDivide] are [addsub_loop] and
    [muldiv_loop]. *)
Fixpoint parseEquation (fuel : nat) (ts : list Token) : PResult :=
  match fuel with O => inl fuel_msg | S f =>
    let* (left, ts1) := parseAddSubtract f ts in
    match ts1 with
    | t :: ts2 =>
        if tok_is TokenType.Equals t then
          let* (right, ts3) := parseAddSubtract f ts2 in
          inr (Equation left right, ts3)
        else inr (left, ts1)
    | [] => inr (left, ts1)
    end
  end
with parseAddSubtract (fuel : nat) (ts : list Token) : PResult :=
  match fuel with O => inl fuel_msg | S f =>
    let* (left, ts1) := parseMultiplyDivide f ts in
    addsub_loop f left ts1
  end
with addsub_loop (fuel : nat) (left : Expr) (ts : list Token) : PResult :=
  match fuel with O => inl fuel_msg | S f =>
    match ts with
    | t :: ts1 =>
        match addsub_op t with
        | Some op =>
            let* (right, ts2) := parseMultiplyDivide f ts1 in
            addsub_loop f (BinaryExpression op left right) ts2
        | None => inr (left, ts)
        end
    | [] => inr (left, ts)
    end
  end
with parseMultiplyDivide (fuel : nat) (ts : list Token) : PResult :=
  match fuel with O => inl fuel_msg | S f =>
    let* (left, ts1) := parseUnary f ts in
    muldiv_loop f left ts1
  end
with muldiv_loop (fuel : nat) (left : Expr) (ts : list Token) : PResult :=
  match fuel with O => inl fuel_msg | S f =>
    match ts with
    | t :: ts1 =>
        match muldiv_op t with
        | Some op =>
            let* (right, ts2) := parseUnary f ts1 in
            muldiv_loop f (BinaryExpression op left right) ts2
        | None => inr (left, ts)
        end
    | [] => inr (left, ts)
    end
  end
with parseUnary (fuel : nat) (ts : list Token) : PResult :=
  match fuel with O => inl fuel_msg | S f =>
    match ts with
    | t :: ts1 =>
        if tok_is TokenType.Minus t then
          (* unary minus: -x becomes (0 - x) *)
          let* (operand, ts2) := parseUnary f ts1 in
          inr (BinaryExpression OpSub (lit 0) operand, ts2)
        else if tok_is TokenType.Plus t then parseUnary f ts1
        else parsePrimary f ts
    | [] => parsePrimary f ts
    end
  end
with parsePrimary (fuel : nat) (ts : list Token) : PResult :=
  match fuel with O => inl fuel_msg | S f =>
    match ts with
    | [] => inl "Unexpected end of input"
    | t :: ts1 =>
        match tok_type t with
        | TokenType.Number => inr (NumberLiteral (js_parseFloat (tok_value t)), ts1)
        | TokenType.Var => inr (Var (tok_value t), ts1)
        | TokenType.Oparen =>
            let* (e, ts2) := parseEquation f ts1 in
            match ts2 with
            | t2 :: ts3 =>
                if tok_is TokenType.Cparen t2 then inr (e, ts3)
                else inl "Expected closing parenthesis"
            | [] => inl "Expected closing parenthesis"
            end
        | _ => inl ("Unexpected token: " ++ tok_value t)
        end
    end
  end.

Definition parse_fuel (ts : list Token) : nat := 6 * length ts + 6.

Definition parse (ts : list Token) : string + Expr :=
  match parseEquation (parse_fuel ts) ts with
  | inl err => inl err
  | inr (e, []) => inr e
  | inr (_, t :: _) => inl ("Unexpected token after expression: " ++ tok_value t)
  end.

(** ** The permutation search (solver.ts, lines 410-605) *)

(** [getPermutations] (lines 575-605). *)
Definition getPermutations (e : Expr) : list string :=
  match e with
  | NumberLiteral _ | Var _ => ["-" ++ exprToString e]
  | BinaryExpression op l r =>
      let inv := match op with
                 | OpAdd => "-" | OpSub => "+" | OpMul => "/" | OpDiv => "*"
                 end in
      [inv ++ exprToString r; inv ++ exprToString l]
  | Equation _ _ => []
  end.

(** [findPermutations] (lines 410-416); its argument is typed [Equation]
    in the source, other trees give no permutation here. *)
Definition findPermutations (e : Expr) : list string :=
  match e with
  | Equation lhs rhs => getPermutations lhs ++ getPermutations rhs
  | _ => []
  end.

(** [getInversePermutation] (lines 424-432). *)
Definition getInversePermutation (perm : string) : string :=
  match perm with
  | String c rest =>
      if Ascii.eqb c "+" then "-" ++ rest
      else if Ascii.eqb c "-" then "+" ++ rest
      else if Ascii.eqb c "*" then "/" ++ rest
      else if Ascii.eqb c "/" then "*" ++ rest
      else perm
  | EmptyString => perm
  end.

(** [onlyNumbers] and [isRealSolution] (lines 537-558). *)
Fixpoint onlyNumbers (e : Expr) : bool :=
  match e with
  | NumberLiteral _ => true
  | BinaryExpression _ l r => onlyNumbers l && onlyNumbers r
  | _ => false
  end.

Definition isRealSolution (e : Expr) : bool :=
  match e with
  | Equation lhs rhs =>
      match lhs with
      | Var _ => onlyNumbers rhs
      | _ => match rhs with Var _ => onlyNumbers lhs | _ => false end
      end
  | _ => false
  end.

(** [applyPermutation] (lines 561-572): each side is printed, the label is
    appended, and the text is tokenized and parsed again; a lexical or parse
    error is thrown out of it. *)
Definition reparse_side (side : Expr) (permutation : string) : string + Expr :=
  match tokenize ("(" ++ exprToString side ++ ") " ++ permutation) with
  | inl err => inl err
  | inr ts => parse ts
  end.

Definition applyPermutation (e : Expr) (permutation : string) : string + Expr :=
  match e with
  | Equation l r =>
      match reparse_side l permutation with
      | inl err => inl err
      | inr l' =>
          match reparse_side r permutation with
          | inl err => inl err
          | inr r' => inr (Equation l' r')
          end
      end
  | _ => inl "applyPermutation: not an equation"
  end.

(** The [SolutionTree] interface (lines 418-422). *)
Inductive SolutionTree := STNode {
  st_expr : Expr;
  st_children : list SolutionTree;
  st_lastPermutation : option string
}.

(** *** Effects of the search: the clock and thrown errors

    [Date.now()] is read from a clock [now : nat -> Z] indexed by the number
    of reads made so far; a computation threads that count and may throw. *)
Definition M (A : Type) : Type := nat -> (string + A) * nat.

Definition ret {A} (a : A) : M A := fun n => (inr a, n).
Definition bind {A B} (m : M A) (k : A -> M B) : M B :=
  fun n => match m n with
           | (inl err, n') => (inl err, n')
           | (inr a, n') => k a n'
           end.
Definition throw {A} (err : string) : M A := fun n => (inl err, n).
Definition lift {A} (r : string + A) : M A :=
  match r with inl err => throw err | inr a => ret a end.

Notation "x <- m ;; k" := (bind m (fun x => k))
  (at level 61, m at next level, right associativity).

Variable now : nat -> Z.

Definition date_now : M Z := fun n => (inr (now n), S n).

(** [startTime && Date.now() - startTime > timeoutMs]: the clock is not read
    when [startTime] is [0]. *)
Definition timed_out (startTime timeoutMs : Z) : M bool :=
  if Z.eqb startTime 0 then ret false
  else t <- date_now ;; ret (Z.gtb (t - startTime) timeoutMs).

(** [tree.lastPermutation] used as a condition: defined and non-empty. *)
Definition inverse_filter (last : option string) (perms : list string) : list string :=
  match last with
  | Some (String _ _ as p) =>
      let inverseOfLast := getInversePermutation p in
      filter (fun perm => negb (String.eqb perm inverseOfLast)) perms
  | _ => perms
  end.

(** [buildSolutionTree] (lines 434-474). The source pushes each child into
    [tree.children] and then fills the child's own children by the recursive
    call; here the call returns the children of the node ([expr], [last]).
    An early [return] keeps the children pushed before it. [steps] bounds
    the recursion: [maxDepth - currentDepth] levels remain. *)
Fixpoint buildSolutionTree (steps : nat) (expr : Expr) (last : option string)
    (maxDepth currentDepth : nat) (startTime timeoutMs : Z) : M (list SolutionTree) :=
  to <- timed_out startTime timeoutMs ;;
  if to then ret [] else
  if Nat.leb maxDepth currentDepth then ret [] else
  let permutations := inverse_filter last (findPermutations expr) in
  match steps with
  | O => ret []
  | S steps' =>
      (fix each (perms : list string) : M (list SolutionTree) :=
         match perms with
         | [] => ret []
         | perm :: perms' =>
             to <- timed_out startTime timeoutMs ;;
             if to then ret [] else
             newSol <- lift (applyPermutation expr perm) ;;
             let simplifiedSol := simplify newSol in
             kids <- (if isRealSolution simplifiedSol then ret []
                      else buildSolutionTree steps' simplifiedSol (Some perm)
                             maxDepth (S currentDepth) startTime timeoutMs) ;;
             siblings <- each perms' ;;
             ret (STNode simplifiedSol kids (Some perm) :: siblings)
         end) permutations
  end.

(** [extractSolutions] (lines 476-491): pre-order traversal. *)
Fixpoint extractSolutions (t : SolutionTree) : list Expr :=
  (if isRealSolution (st_expr t) then [st_expr t] else [])
  ++ flat_map extractSolutions (st_children t).

Definition maxIterations : nat := 10.

(** The result of [findSolution]: [{ solutions, timedOut }]. *)
Record SolveResult := mkSolveResult { solutions : list Expr; timedOut : bool }.

(** The [for] loop of [findSolution] over the iterations [maxIterations - k ..
    maxIterations - 1], with depth bound [maxDepth]. *)
Fixpoint solve_loop (k : nat) (rootExpr : Expr) (maxDepth : nat)
    (sols : list Expr) (startTime timeoutMs : Z) : M SolveResult :=
  match k with
  | O => ret (mkSolveResult sols false)
  | S k' =>
      t <- date_now ;;
      if Z.gtb (t - startTime) timeoutMs then ret (mkSolveResult sols true)
      else
        children <- buildSolutionTree maxDepth rootExpr None maxDepth 0 startTime timeoutMs ;;
        let sols := extractSolutions (STNode rootExpr children None) in
        match sols with
        | _ :: _ => ret (mkSolveResult sols false)
        | [] => solve_loop k' rootExpr (S maxDepth) sols startTime timeoutMs
        end
  end.

(** [findSolution] (lines 493-535). The visualization tree stored in
    [lastSolutionTree] is a side output, modelled by [findSolution_viz]. *)
Definition findSolution (expr : Expr) (timeoutMs : Z) : M SolveResult :=
  let rootExpr := simplify expr in
  startTime <- date_now ;;
  solve_loop maxIterations rootExpr 1 [] startTime timeoutMs.

End Program.

Arguments Expr num : clear implicits.
Arguments SolutionTree num : clear implicits.
Arguments SolveResult num : clear implicits.

(** ** JavaScript numbers: IEEE-754 binary64 *)

Module JSFloat.

Local Open Scope Z_scope.

(** Decimal digits of a non-negative integer. *)
Fixpoint digits_fuel (fuel : nat) (z : Z) (acc : string) : string :=
  match fuel with
  | O => acc
  | S f =>
      let acc' := String (ascii_of_nat (48 + Z.to_nat (z mod 10))) acc in
      if z / 10 =? 0 then acc' else digits_fuel f (z / 10) acc'
  end.

Definition string_of_nonneg (z : Z) : string :=
  digits_fuel (S (Z.to_nat (Z.log2 z))) z EmptyString.

Definition string_of_Z (z : Z) : string :=
  if z <? 0 then "-" ++ string_of_nonneg (- z) else string_of_nonneg z.

(** Exact value [m * 2^e] of a finite float, as a rational. *)
Definition Q_of_bin (m : positive) (e : Z) : Q :=
  if 0 <=? e then inject_Z (Zpos m * 2 ^ e) else Zpos m # Z.to_pos (2 ^ (- e)).

Definition pow10 (n : Z) : Q :=
  if 0 <=? n then inject_Z (10 ^ n) else 1 # Z.to_pos (10 ^ (- n)).

Definition Qfloor_ (q : Q) : Z := Qnum q / Zpos (Qden q).

Definition Qltb (a b : Q) : bool := negb (Qle_bool b a).

(** [d] rounds to the float [m * 2^e] (round to nearest, ties to even): it
    lies in the rounding interval around it. *)
Definition rounds_to (m : positive) (e : Z) (d : Q) : bool :=
  let v := Q_of_bin m e in
  let lowgap := if (Zpos m =? 2 ^ 52) && (e >? -1074) then Q_of_bin 1 (e - 1)
                else Q_of_bin 1 e in
  let lo := (v - lowgap * (1 # 2))%Q in
  let hi := (v + Q_of_bin 1 e * (1 # 2))%Q in
  if Z.even (Zpos m) then Qle_bool lo d && Qle_bool d hi
  else Qltb lo d && Qltb d hi.

(** The [n] with [10^(n-1) <= v < 10^n], from an estimate. *)
Fixpoint adjust_n (fuel : nat) (v : Q) (n : Z) : Z :=
  match fuel with
  | O => n
  | S f =>
      if Qltb v (pow10 (n - 1)) then adjust_n f v (n - 1)
      else if Qle_bool (pow10 n) v then adjust_n f v (n + 1)
      else n
  end.

(** The shortest decimal [s * 10^(n-k)] with [k] digits that rounds back
    to [m * 2^e], the nearest one among those (ties to an even [s]). *)
Fixpoint shortest (fuel : nat) (k : Z) (m : positive) (e n : Z) : Z * Z * Z :=
  let v := Q_of_bin m e in
  let scale := pow10 (n - k) in
  let sf := Qfloor_ (v / scale)%Q in
  let c1 := (inject_Z sf * scale)%Q in
  let c2 := (inject_Z (sf + 1) * scale)%Q in
  let ok1 := rounds_to m e c1 in
  let ok2 := rounds_to m e c2 in
  let pick (s : Z) :=
    if s =? 10 ^ k then (10 ^ (k - 1), k, n + 1) else (s, k, n) in
  if ok1 && ok2 then
    let d1 := (v - c1)%Q in let d2 := (c2 - v)%Q in
    if Qltb d1 d2 then pick sf
    else if Qltb d2 d1 then pick (sf + 1)
    else if Z.even sf then pick sf else pick (sf + 1)
  else if ok1 then pick sf
  else if ok2 then pick (sf + 1)
  else match fuel with
       | O => pick sf
       | S f => shortest f (k + 1) m e n
       end.

Fixpoint zeros (n : nat) : string :=
  match n with O => EmptyString | S n' => String "0" (zeros n') end.

(** Steps 6 to 10 of [Number::toString] (ECMA-262, radix 10). *)
Definition format (s k n : Z) : string :=
  let ds := string_of_nonneg s in
  if (k <=? n) && (n <=? 21) then ds ++ zeros (Z.to_nat (n - k))
  else if (0 <? n) && (n <=? 21) then
    substring 0 (Z.to_nat n) ds ++ "." ++ substring (Z.to_nat n) (Z.to_nat (k - n)) ds
  else if (-6 <? n) && (n <=? 0) then "0." ++ zeros (Z.to_nat (- n)) ++ ds
  else
    let ex := n - 1 in
    let es := (if 0 <=? ex then "+" else "-") ++ string_of_nonneg (Z.abs ex) in
    if k =? 1 then ds ++ "e" ++ es
    else substring 0 1 ds ++ "." ++ substring 1 (Z.to_nat (k - 1)) ds ++ "e" ++ es.

Definition toString_pos (m : positive) (e : Z) : string :=
  let v := Q_of_bin m e in
  let n := adjust_n 8 v ((e + Z.log2 (Zpos m) + 1) * 30103 / 100000) in
  let '(s, k, n) := shortest 16 1 m e n in
  format s k n.

(** [Number.prototype.toString()] for binary64 values. *)
Definition toString (x : float) : string :=
  match Prim2SF x with
  | S754_nan => "NaN"
  | S754_zero _ => "0"
  | S754_infinity false => "Infinity"
  | S754_infinity true => "-Infinity"
  | S754_finite false m e => toString_pos m e
  | S754_finite true m e => "-" ++ toString_pos m e
  end.

(** The float nearest to [p / q] ([p >= 0], [q > 0]), ties to even. *)
Definition round_ratio (p q : Z) : float :=
  if p =? 0 then PrimFloat.zero
  else
    let k := Z.log2 q + 56 in
    let num := p * 2 ^ k in
    let m := num / q in
    let r := num mod q in
    let loc := if r =? 0 then loc_Exact else loc_Inexact (Z.compare (2 * r) q) in
    SF2Prim (binary_round_aux FloatOps.prec FloatOps.emax false m (- k) loc).

Definition digit_val (c : ascii) : Z := Z.of_nat (nat_of_ascii c) - 48.

(** Reads a run of digits: the value, the number of digits, the rest. *)
Fixpoint read_digits (s : string) (acc : Z) (cnt : nat) : Z * nat * string :=
  match s with
  | String c s' => if is_digit c then read_digits s' (acc * 10 + digit_val c) (S cnt)
                   else (acc, cnt, s)
  | EmptyString => (acc, cnt, s)
  end.

(** [parseFloat] on a numeral: the longest prefix of digits, with a
    fraction when a ['.'] and digits follow; [NaN] when there is none. This
    is [parseFloat] on every numeral the tokenizer produces. *)
Definition parseFloat (s : string) : float :=
  let '(ip, icnt, rest) := read_digits s 0 O in
  match icnt with
  | O => PrimFloat.nan
  | _ =>
      match rest with
      | String c rest' =>
          if Ascii.eqb c "." then
            let '(fp, fcnt, _) := read_digits rest' 0 O in
            match fcnt with
            | O => round_ratio ip 1
            | _ => round_ratio (ip * 10 ^ Z.of_nat fcnt + fp) (10 ^ Z.of_nat fcnt)
            end
          else round_ratio ip 1
      | EmptyString => round_ratio ip 1
      end
  end.

(** Numeric literals of the source: [0], [1], [2]. *)
Definition of_Z (z : Z) : float :=
  if z <? 0 then PrimFloat.opp (round_ratio (- z) 1) else round_ratio z 1.

#[export] Instance js : JSNum float := {
  js_add := PrimFloat.add;
  js_sub := PrimFloat.sub;
  js_mul := PrimFloat.mul;
  js_div := PrimFloat.div;
  js_eqb := PrimFloat.eqb;
  js_ltb := PrimFloat.ltb;
  js_abs := PrimFloat.abs;
  js_of_Z := of_Z;
  js_toString := toString;
  js_parseFloat := parseFloat
}.

End JSFloat.

#[global] Existing Instance JSFloat.js.

(** The same evaluation with the operators of binary64 ([1/0] is
    [Infinity], [0/0] is [NaN]), as the source computes. *)
Fixpoint eval_float (env : string -> float) (e : Expr float) : option float :=
  match e with
  | NumberLiteral v => Some v
  | Var n => Some (env n)
  | BinaryExpression op l r =>
      match eval_float env l, eval_float env r with
      | Some a, Some b => Some (fold_op op a b)
      | _, _ => None
      end
  | Equation _ _ => None
  end.

(** The values of an expression or an equation (its two sides) with
    binary64 arithmetic. *)
Definition sem_float (env : string -> float) (e : Expr float) : option (list float) :=
  match e with
  | Equation l r =>
      match eval_float env l, eval_float env r with
      | Some a, Some b => Some [a; b]
      | _, _ => None
      end
  | _ => match eval_float env e with Some a => Some [a] | None => None end
  end.

(** A wall clock that reads [1000] ms for its first 56 readings, then
    [7000] ms. *)
Definition clock_c5 (n : nat) : Z := if Nat.ltb n 56 then 1000%Z else 7000%Z.

(** A clock that never advances. *)
Definition clock_still (_ : nat) : Z := 1000%Z.

(** ** Predicates used to state the properties *)

Section Predicates.
Context {num : Type} `{JSNum num}.

(** A side built only from literals and the four operators. *)
Inductive Numeric : Expr num -> Prop :=
| Numeric_lit v : Numeric (NumberLiteral v)
| Numeric_bin op l r : Numeric l -> Numeric r -> Numeric (BinaryExpression op l r).

(** The solved form of the specification: one side a bare variable, the
    other numeric. *)
Definition solved_form (s : Expr num) : Prop :=
  exists name side,
    (s = Equation (Var name) side \/ s = Equation side (Var name)) /\ Numeric side.

(** The algebraic inverse of an operator, as the specification lists it. *)
Definition inverse_op (o : Op) : Op :=
  match o with OpAdd => OpSub | OpSub => OpAdd | OpMul => OpDiv | OpDiv => OpMul end.

(** The labels contributed by one side, following the specification: a
    leaf gives ["-"] and its text; a binary side gives the inverse operator
    applied to the text of its right operand, then to its left operand.
    Sides are never equations. *)
Definition spec_side_labels (side : Expr num) : list string :=
  match side with
  | NumberLiteral _ | Var _ => ["-" ++ exprToString side]
  | BinaryExpression op l r =>
      [op_str (inverse_op op) ++ exprToString r; op_str (inverse_op op) ++ exprToString l]
  | Equation _ _ => []
  end.

Definition is_equation (e : Expr num) : bool :=
  match e with Equation _ _ => true | _ => false end.

(** No [Equation] node anywhere in the tree. *)
Fixpoint noEq (e : Expr num) : bool :=
  match e with
  | NumberLiteral _ | Var _ => true
  | BinaryExpression _ l r => noEq l && noEq r
  | Equation _ _ => false
  end.

(** An equation at the root, and nowhere below. *)
Definition rootEq (e : Expr num) : bool :=
  match e with Equation l r => noEq l && noEq r | _ => false end.

Fixpoint has_char (c : ascii) (s : string) : bool :=
  match s with
  | EmptyString => false
  | String d s' => Ascii.eqb c d || has_char c s'
  end.

(** Variable names and printed literals contain no ['='] character. *)
Fixpoint atoms_ok (e : Expr num) : bool :=
  match e with
  | NumberLiteral v => negb (has_char "=" (js_toString v))
  | Var n => negb (has_char "=" n)
  | BinaryExpression _ l r | Equation l r => atoms_ok l && atoms_ok r
  end.

(** In every node reached by a label [p], no child carries the label
    [getInversePermutation p]; the children of the root (label [None]) are
    not constrained. *)
Fixpoint no_undo (t : SolutionTree num) : Prop :=
  match t with
  | STNode _ kids last =>
      (fix all (ks : list (SolutionTree num)) : Prop :=
         match ks with
         | [] => True
         | c :: cs =>
             (forall p, last = Some p ->
                st_lastPermutation c <> Some (getInversePermutation p))
             /\ no_undo c /\ all cs
         end) kids
  end.

End Predicates.

(** ** The lexeme of a number, as a function

    [span_digits s] splits off the longest prefix of digits; [lex_rest t]
    is the rest of a numeral whose first digit has been read, with a
    fraction when a ['.'] and a digit follow, and the input left after it. *)
Fixpoint span_digits (s : string) : string * string :=
  match s with
  | String d t =>
      if is_digit d then let (a, b) := span_digits t in (String d a, b)
      else (EmptyString, s)
  | EmptyString => (EmptyString, EmptyString)
  end.

Definition lex_rest (t : string) : string * string :=
  let (ip, r) := span_digits t in
  match r with
  | String dot (String d2 r') =>
      if Ascii.eqb dot "." && is_digit d2 then
        let (fp, r'') := span_digits r' in (ip ++ "." ++ String d2 fp, r'')
      else (ip, r)
  | _ => (ip, r)
  end.

(** ** Reading printed text back, at the level of tokens

    [exprToString] writes a tree as a sequence of pieces: atoms (variable
    names and printed literals), operators [" + "], [" = "] and the like,
    and parentheses. [ptoks] is that sequence, [render] writes it out, and
    [lex] cuts the text back into pieces; [mparse] reads a piece sequence by
    precedence and returns the [measure] of the tree it denotes. *)

Inductive ptok := PAtom (s : string) | POp (o : Op) | PEq | PLP | PRP.

Definition tparen (ts : list ptok) : list ptok := PLP :: ts ++ [PRP].

(** Characters that end an atom. *)
Definition is_sep (c : ascii) : bool :=
  Ascii.eqb c " " || Ascii.eqb c "(" || Ascii.eqb c ")".

Fixpoint atom_chars_ok (s : string) : bool :=
  match s with
  | EmptyString => true
  | String c s' => negb (is_sep c) && atom_chars_ok s'
  end.

(** A non-empty atom without spaces or parentheses. *)
Definition good_atom (s : string) : bool :=
  match s with EmptyString => false | _ => atom_chars_ok s end.

Section Readback.
Context {num : Type} `{JSNum num}.

(** The pieces of [exprToString e], following its cases one by one. *)
Fixpoint ptoks (e : Expr num) : list ptok :=
  match e with
  | NumberLiteral v =>
      if js_ltb v (js_of_Z 0) then tparen [PAtom (js_toString v)]
      else [PAtom (js_toString v)]
  | Var n => [PAtom n]
  | BinaryExpression op l r =>
      let lt := ptoks l in
      let rt := ptoks r in
      let lt :=
        match l with
        | BinaryExpression lop _ _ =>
            if additive lop && multiplicative op then tparen lt else lt
        | _ => lt
        end in
      let rt :=
        match r with
        | BinaryExpression rop _ _ =>
            let s1 := if additive rop && multiplicative op then tparen rt else rt in
            let s2 := if op_eqb op OpSub && op_eqb rop OpSub then tparen s1 else s1 in
            let s3 := if op_eqb op OpSub && op_eqb rop OpAdd then tparen s2 else s2 in
            if op_eqb op OpDiv && (op_eqb rop OpDiv || op_eqb rop OpMul)
            then tparen s3 else s3
        | _ => rt
        end in
      lt ++ POp op :: rt
  | Equation l r => ptoks l ++ PEq :: ptoks r
  end.

(** The two operand piece sequences of a binary node, parenthesised as in
    [ptoks]. *)
Definition ptoks_left (op : Op) (l : Expr num) (lt : list ptok) : list ptok :=
  match l with
  | BinaryExpression lop _ _ =>
      if additive lop && multiplicative op then tparen lt else lt
  | _ => lt
  end.

Definition ptoks_right (op : Op) (r : Expr num) (rt : list ptok) : list ptok :=
  match r with
  | BinaryExpression rop _ _ =>
      let s1 := if additive rop && multiplicative op then tparen rt else rt in
      let s2 := if op_eqb op OpSub && op_eqb rop OpSub then tparen s1 else s1 in
      let s3 := if op_eqb op OpSub && op_eqb rop OpAdd then tparen s2 else s2 in
      if op_eqb op OpDiv && (op_eqb rop OpDiv || op_eqb rop OpMul)
      then tparen s3 else s3
  | _ => rt
  end.

(** A leaf, or a product or quotient. *)
Definition prod_shaped (e : Expr num) : bool :=
  match e with
  | BinaryExpression op _ _ => multiplicative op
  | Equation _ _ => false
  | _ => true
  end.

(** Every variable name is a good atom. *)
Fixpoint names_ok (e : Expr num) : bool :=
  match e with
  | NumberLiteral _ => true
  | Var n => good_atom n
  | BinaryExpression _ l r | Equation l r => names_ok l && names_ok r
  end.

(** A pass that keeps a tree or lowers its weight. *)
Definition shrinks (so : Expr num -> Expr num) : Prop :=
  forall x, so x = x \/ measure (so x) < measure x.

End Readback.

Fixpoint render (ts : list ptok) : string :=
  match ts with
  | [] => EmptyString
  | PAtom s :: ts' => s ++ render ts'
  | POp o :: ts' => " " ++ op_str o ++ " " ++ render ts'
  | PEq :: ts' => " = " ++ render ts'
  | PLP :: ts' => "(" ++ render ts'
  | PRP :: ts' => ")" ++ render ts'
  end.

Definition not_atom_head (ts : list ptok) : bool :=
  match ts with PAtom _ :: _ => false | _ => true end.

(** Good atoms, never two in a row. *)
Fixpoint good_toks (ts : list ptok) : bool :=
  match ts with
  | [] => true
  | PAtom a :: ts' => good_atom a && not_atom_head ts' && good_toks ts'
  | _ :: ts' => good_toks ts'
  end.

Definition op_tok (c : ascii) : ptok :=
  if Ascii.eqb c "+" then POp OpAdd
  else if Ascii.eqb c "-" then POp OpSub
  else if Ascii.eqb c "*" then POp OpMul
  else if Ascii.eqb c "/" then POp OpDiv
  else PEq.

Definition push_char (c : ascii) (ts : list ptok) : list ptok :=
  match ts with
  | PAtom a :: ts' => PAtom (String c a) :: ts'
  | _ => PAtom (String c EmptyString) :: ts
  end.

Fixpoint lex (s : string) : list ptok :=
  match s with
  | EmptyString => []
  | String c s' =>
      if Ascii.eqb c "(" then PLP :: lex s'
      else if Ascii.eqb c ")" then PRP :: lex s'
      else if Ascii.eqb c " " then
        match s' with
        | String o (String _ s'') => op_tok o :: lex s''
        | _ => []
        end
      else push_char c (lex s')
  end.

(** Precedence reading of pieces into weights: a primary, a loop over
    [*] and [/] that multiplies, and a loop over [+], [-] and [=] that adds
    one more than the sum. The budget [n] drops by one with every piece
    consumed. *)
Fixpoint mprim (n : nat) (ts : list ptok) : option (nat * list ptok) :=
  match ts with
  | PAtom _ :: ts' => Some (2, ts')
  | PLP :: ts' =>
      match n with
      | O => None
      | S n' =>
          match mprim n' ts' with
          | Some (m1, r1) =>
              match mloop n' m1 r1 with
              | Some (m2, r2) =>
                  match sloop n' m2 r2 with
                  | Some (m3, PRP :: r3) => Some (m3, r3)
                  | _ => None
                  end
              | None => None
              end
          | None => None
          end
      end
  | _ => None
  end
with mloop (n : nat) (acc : nat) (ts : list ptok) : option (nat * list ptok) :=
  match ts with
  | POp o :: ts' =>
      if multiplicative o then
        match n with
        | O => None
        | S n' =>
            match mprim n' ts' with
            | Some (m, r) => mloop n' (acc * m) r
            | None => None
            end
        end
      else Some (acc, ts)
  | _ => Some (acc, ts)
  end
with sloop (n : nat) (acc : nat) (ts : list ptok) : option (nat * list ptok) :=
  match ts with
  | t :: ts' =>
      if match t with POp o => additive o | PEq => true | _ => false end then
        match n with
        | O => None
        | S n' =>
            match mprim n' ts' with
            | Some (m1, r1) =>
                match mloop n' m1 r1 with
                | Some (m2, r2) => sloop n' (acc + m2 + 1) r2
                | None => None
                end
            | None => None
            end
        end
      else Some (acc, ts)
  | [] => Some (acc, ts)
  end.

Definition mloop' (n acc : nat) (ts : list ptok) : option (nat * list ptok) :=
  match mprim n ts with Some (m, r) => mloop n (acc * m) r | None => None end.

Definition mterm (n : nat) (ts : list ptok) : option (nat * list ptok) :=
  match mprim n ts with Some (m, r) => mloop n m r | None => None end.

Definition sloop' (n acc : nat) (ts : list ptok) : option (nat * list ptok) :=
  match mterm n ts with Some (m, r) => sloop n (acc + m + 1) r | None => None end.

Definition psum (n : nat) (ts : list ptok) : option (nat * list ptok) :=
  match mterm n ts with Some (m, r) => sloop n m r | None => None end.

(** The next piece is not [*] or [/]: the product loop stops there. *)
Definition stop_mul (ts : list ptok) : bool :=
  match ts with POp o :: _ => additive o | _ => true end.

(** The next piece is not [+], [-] or [=]: the sum loop stops there. *)
Definition stop_sum (ts : list ptok) : bool :=
  match ts with POp o :: _ => multiplicative o | PEq :: _ => false | _ => true end.

Definition mparse (ts : list ptok) : option nat :=
  match psum (length ts) ts with Some (m, []) => Some m | _ => None end.

(** A piece sequence [ts] of weight [m], read as a factor of a product, as
    a term of a sum, and as a whole sum, in front of any [rest]. *)
Definition reads_prod (ts : list ptok) (m : nat) : Prop :=
  forall n acc rest, length (ts ++ rest) <= n ->
  mloop' n acc (ts ++ rest) = mloop n (acc * m) rest.

Definition reads_term (ts : list ptok) (m : nat) : Prop :=
  forall n acc rest, length (ts ++ rest) <= n -> stop_mul rest = true ->
  sloop' n acc (ts ++ rest) = sloop n (acc + m + 1) rest.

Definition reads_sum (ts : list ptok) (m : nat) : Prop :=
  forall n rest, length (ts ++ rest) <= n -> stop_mul rest = true ->
  psum n (ts ++ rest) = sloop n m rest.

(** ** Tokens and trees the parser hands to the search *)

Definition not_equals_tok (t : Token) : Prop := tok_type t <> TokenType.Equals.

(** A variable token carries a name that is a printable atom without
    ['=']. *)
Definition var_tok_ok (t : Token) : Prop :=
  tok_type t = TokenType.Var ->
  good_atom (tok_value t) = true /\ has_char "=" (tok_value t) = false.

Section ParseResults.
Context {num : Type} `{JSNum num}.

Definition Qok (r : string + (Expr num * list Token)) : Prop :=
  match r with
  | inl _ => True
  | inr (e, rest) => noEq e = true /\ Forall not_equals_tok rest
  end.

Definition Qvar (r : string + (Expr num * list Token)) : Prop :=
  match r with
  | inl _ => True
  | inr (e, rest) => names_ok e = true /\ atoms_ok e = true /\ Forall var_tok_ok rest
  end.

(** The invariant of the nodes of a solution tree: an [Equation] at most at
    the root, variable names that print as atoms without ['=']. *)
Definition good_node (e : Expr num) : bool := rootEq e && names_ok e && atoms_ok e.

End ParseResults.

(** ** Printed text read back by the tokenizer and the parser *)

(** The rest of a numeral after its first digit: digits, then possibly a
    ['.'] and digits, with nothing left over. *)
Definition numeral_rest (t : string) : bool :=
  let (a, r) := lex_rest t in String.eqb a t && String.eqb r EmptyString.

(** A decimal numeral: what the tokenizer reads as one [Number] token. *)
Definition num_atom (s : string) : bool :=
  match s with String c t => is_digit c && numeral_rest t | EmptyString => false end.

(** A one-letter variable name: what the tokenizer reads as one [Var] token. *)
Definition var_atom (s : string) : bool :=
  match s with
  | String c EmptyString =>
      negb (is_space c) && negb (is_digit c) &&
      match char_token c with Some TokenType.Var => true | _ => false end
  | _ => false
  end.

(** The token the tokenizer makes of a piece. *)
Definition tokof (t : ptok) : Token :=
  match t with
  | PAtom s => mkToken (if num_atom s then TokenType.Number else TokenType.Var) s
  | POp OpAdd => mkToken TokenType.Plus "+"
  | POp OpSub => mkToken TokenType.Minus "-"
  | POp OpMul => mkToken TokenType.Multiply "*"
  | POp OpDiv => mkToken TokenType.Divide "/"
  | PEq => mkToken TokenType.Equals "="
  | PLP => mkToken TokenType.Oparen "("
  | PRP => mkToken TokenType.Cparen ")"
  end.

Definition TT (ts : list ptok) : list Token := map tokof ts.

(** Numerals and one-letter names, never two atoms in a row. *)
Fixpoint toks_ok (ts : list ptok) : bool :=
  match ts with
  | [] => true
  | PAtom a :: ts' => (num_atom a || var_atom a) && not_atom_head ts' && toks_ok ts'
  | _ :: ts' => toks_ok ts'
  end.

(** The next piece is not [+] or [-]: the sum loop stops there. *)
Definition stop_add (ts : list ptok) : bool :=
  match ts with POp o :: _ => multiplicative o | _ => true end.

Section Reparse.
Context {num : Type} `{JSNum num}.

(** A literal printed as a non-negative numeral that [parseFloat] reads
    back to a non-negative number printed the same way. *)
Definition lit_ok (v : num) : bool :=
  negb (js_ltb v (js_of_Z 0)) && num_atom (js_toString v) &&
  let w := js_parseFloat (js_toString v) in
  negb (js_ltb w (js_of_Z 0)) && String.eqb (js_toString w) (js_toString v).

Fixpoint atoms_read (e : Expr num) : bool :=
  match e with
  | NumberLiteral v => lit_ok v
  | Var n => var_atom n
  | BinaryExpression _ l r | Equation l r => atoms_read l && atoms_read r
  end.

(** What the printer looks at when it parenthesises an operand. *)
Definition bcls (x : Expr num) : option bool :=
  match x with BinaryExpression o _ _ => Some (additive o) | _ => None end.

(** The tokens of [ts], in front of any [rest], read by [parseUnary] as [x];
    read by [parseMultiplyDivide] as a product [x] whose loop goes on at
    [rest]; and read by [parseAddSubtract] as a sum [x] whose loop goes on
    at [rest]. The budgets are those [parse] hands down. *)
Definition FacR (ts : list ptok) (x : Expr num) : Prop :=
  forall f rest, 6 * length (ts ++ rest) + 3 <= f ->
  parseUnary f (TT (ts ++ rest)) = inr (x, TT rest).

Definition ProdR (ts : list ptok) (x : Expr num) : Prop :=
  forall f rest, 6 * length (ts ++ rest) + 4 <= f ->
  exists f', 6 * length rest + 4 <= f' /\
  parseMultiplyDivide f (TT (ts ++ rest)) = muldiv_loop f' x (TT rest).

Definition SumR (ts : list ptok) (x : Expr num) : Prop :=
  forall f rest, stop_mul rest = true -> 6 * length (ts ++ rest) + 5 <= f ->
  exists f', 6 * length rest + 5 <= f' /\
  parseAddSubtract f (TT (ts ++ rest)) = addsub_loop f' x (TT rest).

(** The loops reading [op] and then [ts]: the accumulator [acc] becomes
    [g acc], printed as [acc], [op] and [ts]. *)
Definition MStep (op : Op) (ts : list ptok) (g : Expr num -> Expr num) : Prop :=
  (forall acc, ptoks (g acc) = (ptoks_left op acc (ptoks acc) ++ POp op :: ts)%list /\
               bcls (g acc) = Some false) /\
  forall f acc rest, 6 * length (POp op :: ts ++ rest) + 4 <= f ->
  exists f', 6 * length rest + 4 <= f' /\
  muldiv_loop f acc (TT (POp op :: ts ++ rest)) = muldiv_loop f' (g acc) (TT rest).

Definition AStep (op : Op) (ts : list ptok) (g : Expr num -> Expr num) : Prop :=
  (forall acc, ptoks (g acc) = (ptoks acc ++ POp op :: ts)%list /\
               bcls (g acc) = Some true) /\
  forall f acc rest, stop_mul rest = true -> 6 * length (POp op :: ts ++ rest) + 5 <= f ->
  exists f', 6 * length rest + 5 <= f' /\
  addsub_loop f acc (TT (POp op :: ts ++ rest)) = addsub_loop f' (g acc) (TT rest).

End Reparse.

(** ** [findClosingParen] (tokenizer.ts, lines 18-31)

    The scan starts at index [openIndex + 1] with depth 1, whatever token
    sits at [openIndex]; [fcp_scan] walks the suffix of the tokens from
    index [i]. The source imports it in parser.ts but never calls it. *)
Definition no_closing_msg : string := "No matching closing parenthesis found.".

Fixpoint fcp_scan (ts : list Token) (i : nat) (depth : Z) : string + nat :=
  match ts with
  | [] => inl no_closing_msg
  | t :: ts' =>
      match tok_type t with
      | TokenType.Oparen => fcp_scan ts' (S i) (depth + 1)%Z
      | TokenType.Cparen =>
          if Z.eqb (depth - 1) 0 then inr i else fcp_scan ts' (S i) (depth - 1)%Z
      | _ => fcp_scan ts' (S i) depth
      end
  end.

Definition findClosingParen (tokens : list Token) (openIndex : nat) : string + nat :=
  fcp_scan (skipn (S openIndex) tokens) (S openIndex) 1%Z.

(** The change of nesting depth made by one token, and the depth reached
    after the tokens of indices [openIndex + 1 .. j], starting from 1. *)
Definition tok_delta (t : Token) : Z :=
  match tok_type t with
  | TokenType.Oparen => 1%Z
  | TokenType.Cparen => (-1)%Z
  | _ => 0%Z
  end.

Definition delta_sum (ts : list Token) : Z := fold_right Z.add 0%Z (map tok_delta ts).

Definition depth_at (tokens : list Token) (openIndex j : nat) : Z :=
  (1 + delta_sum (firstn (j - openIndex) (skipn (S openIndex) tokens)))%Z.

(** [i] closes the group opened at [openIndex]: the first index after it
    where the depth falls to 0. *)
Definition closes_at (tokens : list Token) (openIndex i : nat) : Prop :=
  openIndex < i < length tokens /\ depth_at tokens openIndex i = 0%Z /\
  forall j, openIndex < j < i -> (0 < depth_at tokens openIndex j)%Z.

(** ** The tokens as text *)

(** The input without its [/\s/] characters. *)
Fixpoint remove_spaces (s : string) : string :=
  match s with
  | EmptyString => EmptyString
  | String c s' => if is_space c then remove_spaces s' else String c (remove_spaces s')
  end.

(** The values of the tokens, concatenated. *)
Definition token_text (ts : list Token) : string :=
  fold_right (fun t acc => tok_value t ++ acc) EmptyString ts.

(** A token read by [tokenize]: a [Number] holds a numeral, any other token
    holds the one character that gives its type. *)
Definition tok_shape (t : Token) : bool :=
  if tok_is TokenType.Number t then num_atom (tok_value t)
  else match tok_value t with
       | String c EmptyString =>
           match char_token c with Some ty => tok_is ty t | None => false end
       | _ => false
       end.

(** ** The visualization tree (solver.ts, lines 5-25)

    The [TreeNode] interface; [treeToVisualizationFormat] always sets the
    optional [timedOut] field. *)
Inductive TreeNode := mkTreeNode {
  tn_expr : string;
  tn_children : list TreeNode;
  tn_isSolution : bool;
  tn_timedOut : bool
}.

(** The printed equations of the nodes flagged [isSolution], in pre-order,
    and the check that every node carries the [timedOut] flag [b]. *)
Fixpoint flagged (t : TreeNode) : list string :=
  (if tn_isSolution t then [tn_expr t] else []) ++ flat_map flagged (tn_children t).

Fixpoint all_timedOut (b : bool) (t : TreeNode) : bool :=
  Bool.eqb (tn_timedOut t) b && forallb (all_timedOut b) (tn_children t).

Section Visualization.
Context {num : Type} `{JSNum num}.

Fixpoint treeToVisualizationFormat (node : SolutionTree num) (timedOut : bool) : TreeNode :=
  match node with
  | STNode e kids _ =>
      mkTreeNode (exprToString e)
        (map (fun child => treeToVisualizationFormat child timedOut) kids)
        (isRealSolution e) timedOut
  end.

Variable now : nat -> Z.

(** [findSolution] (solver.ts, lines 493-535) with the tree it stores in
    [lastSolutionTree], which [getSolutionTree] returns: the loop also
    carries [root.children], the children built by the last iteration that
    ran. A thrown error leaves the store as it was. *)
Fixpoint solve_loop_viz (k : nat) (rootExpr : Expr num) (children : list (SolutionTree num))
    (maxDepth : nat) (sols : list (Expr num)) (startTime timeoutMs : Z)
    : M (SolveResult num * TreeNode) :=
  match k with
  | O => ret (mkSolveResult sols false,
              treeToVisualizationFormat (STNode rootExpr children None) false)
  | S k' =>
      bind (date_now now) (fun t =>
      if Z.gtb (t - startTime) timeoutMs
      then ret (mkSolveResult sols true,
                treeToVisualizationFormat (STNode rootExpr children None) true)
      else
        bind (buildSolutionTree now maxDepth rootExpr None maxDepth 0 startTime timeoutMs)
          (fun children' =>
           let sols := extractSolutions (STNode rootExpr children' None) in
           match sols with
           | _ :: _ => ret (mkSolveResult sols false,
                            treeToVisualizationFormat (STNode rootExpr children' None) false)
           | [] => solve_loop_viz k' rootExpr children' (S maxDepth) sols startTime timeoutMs
           end))
  end.

Definition findSolution_viz (expr : Expr num) (timeoutMs : Z) : M (SolveResult num * TreeNode) :=
  let rootExpr := simplify expr in
  bind (date_now now) (fun startTime =>
  solve_loop_viz maxIterations rootExpr [] 1 [] startTime timeoutMs).

End Visualization.

(** ** Shape of the search tree *)

Section TreeShape.
Context {num : Type} `{JSNum num}.

Fixpoint st_height (t : SolutionTree num) : nat :=
  S (list_max (map st_height (st_children t))).

(** A node holding a solved equation has no children. *)
Fixpoint solved_unexpanded (t : SolutionTree num) : bool :=
  (negb (isRealSolution (st_expr t)) || match st_children t with [] => true | _ => false end)
  && forallb solved_unexpanded (st_children t).

(** The variable names of a tree, and the check that [p] holds of each. *)
Fixpoint vars (e : Expr num) : list string :=
  match e with
  | NumberLiteral _ => []
  | Var n => [n]
  | BinaryExpression _ l r | Equation l r => vars l ++ vars r
  end.

Fixpoint all_vars (p : string -> bool) (e : Expr num) : bool :=
  match e with
  | NumberLiteral _ => true
  | Var n => p n
  | BinaryExpression _ l r | Equation l r => all_vars p l && all_vars p r
  end.

(** The tree [parsePrimary] builds from a lone atom: a [Number] token reads
    through [parseFloat], a [Variable] token gives its name. *)
Definition atom_expr (a : string) : Expr num :=
  if num_atom a then NumberLiteral (js_parseFloat a) else Var a.

End TreeShape.

(** ** A sample run: solving [x + 2 = 5] over binary64 *)

Definition sample_eq : Expr float :=
  Equation (BinaryExpression OpAdd (Var "x") (lit 2)) (lit 5).

(** The children of the root at depth bound 2, as [findSolution] builds
    them in its second iteration (start time 1000 ms, clock still). *)
Definition sample_tree : list (SolutionTree float) :=
  Eval vm_compute in
  match buildSolutionTree clock_still 2 sample_eq None 2 0 1000 5000 0 with
  | (inr k, _) => k
  | _ => []
  end.

Definition sample_result : SolveResult float :=
  Eval vm_compute in
  match findSolution clock_still sample_eq 5000 0 with
  | (inr r, _) => r
  | _ => mkSolveResult [] false
  end.

(** A printed equation with parentheses, a decimal literal and one-letter
    variables: ["x - (2 + y) = 0.25 / (4 * z)"]. *)
Definition rt_sample : Expr float :=
  Equation (BinaryExpression OpSub (Var "x") (BinaryExpression OpAdd (lit 2) (Var "y")))
           (BinaryExpression OpDiv (NumberLiteral 0.25%float)
              (BinaryExpression OpMul (lit 4) (Var "z"))).

(** The tree [getSolutionTree] returns after solving [x + 2 = 5]. *)
Definition sample_viz : TreeNode :=
  Eval vm_compute in
  match findSolution_viz clock_still sample_eq 5000 0 with
  | (inr (_, t), _) => t
  | _ => mkTreeNode "" [] false false
  end.

(** An input with a decimal numeral, spacing on both sides of an operator
    and none around another, and the tokens read from it. *)
Definition sample_input : string := "12.5*x - 3 = y".

Definition sample_tokens : list Token :=
  [mkToken TokenType.Number "12.5"; mkToken TokenType.Multiply "*";
   mkToken TokenType.Var "x"; mkToken TokenType.Minus "-";
   mkToken TokenType.Number "3"; mkToken TokenType.Equals "=";
   mkToken TokenType.Var "y"].

(** * Properties *)

(** ** Concrete runs over binary64 *)

(** C1 (counterexample): constant folding turns [0 - 3] into the literal
    [-3], printed ["(-3)"]; tokenizing and parsing that text gives the tree
    [0 - 3] back, whose printed form is ["0 - 3"], not ["(-3)"]. *)
Lemma C1_counterexample :
  let e := simplify (BinaryExpression OpSub (lit 0) (lit 3) : Expr float) in
  e = NumberLiteral (-3)%float /\
  exprToString e = "(-3)" /\
  match tokenize (exprToString e) with
  | inr ts =>
      match parse ts with
      | inr e' => e' = BinaryExpression OpSub (lit 0) (lit 3) /\
                  exprToString e' = "0 - 3"
      | inl _ => False
      end
  | inl _ => False
  end.
Proof. vm_compute. repeat split. Qed.

(** C2 (counterexample): [simplify] rewrites [(x / 49) * 49] to [x], but
    with binary64 arithmetic at [x = 1] the first evaluates to
    [0.9999999999999999] and the second to [1]. *)
Lemma C2_counterexample :
  let e := BinaryExpression OpMul (BinaryExpression OpDiv (Var "x") (lit 49)) (lit 49)
           : Expr float in
  simplify e = Var "x" /\
  eval_float (fun _ => 1%float) e = Some 0.9999999999999999%float /\
  eval_float (fun _ => 1%float) (simplify e) = Some 1%float /\
  JSFloat.toString 0.9999999999999999%float = "0.9999999999999999".
Proof. vm_compute. repeat split. Qed.

(** C4 (code bug): [findSolution] on the equation [x = 1 / 0] throws.
    [simplify] folds the right side to the literal [Infinity], printed
    ["Infinity"]; applying the first permutation ["-x"] to it re-tokenizes
    ["(Infinity) -x"], which the tokenizer reads as a parenthesised variable
    [I] followed by the variables [n], [f], ..., and the parser throws
    ["Expected closing parenthesis"]. *)
Lemma C4_findSolution_throws :
  let eq := Equation (Var "x") (BinaryExpression OpDiv (lit 1) (lit 0)) : Expr float in
  exprToString (simplify eq) = "x = Infinity" /\
  applyPermutation (simplify eq) "-x" = inl "Expected closing parenthesis" /\
  findSolution clock_still eq 5000 0 = (inl "Expected closing parenthesis", 4).
Proof. vm_compute. repeat split. Qed.

(** C5 (code bug): on [x = x], which has no solved form, with a clock that
    passes the 5000 ms deadline during the tenth iteration (at its 57th
    reading), [findSolution] returns no solution and [timedOut = false]:
    the tenth iteration's tree is cut short by the timeout check inside
    [buildSolutionTree], which does not report it. With a clock that never
    advances the same run reads the clock 61 times: the four readings of
    the tenth tree were skipped. *)
Lemma C5_timeout_unreported :
  let eq := Equation (Var "x") (Var "x") : Expr float in
  findSolution clock_c5 eq 5000 0 = (inr (mkSolveResult [] false), 57) /\
  (clock_c5 56 - clock_c5 0 > 5000)%Z /\
  findSolution clock_still eq 5000 0 = (inr (mkSolveResult [] false), 61).
Proof. vm_compute. repeat split. Qed.

(** ** Solution trees and solved forms *)

Section SearchProps.
Context {num : Type} `{JSNum num}.

Lemma SolutionTree_ind' (P : SolutionTree num -> Prop) :
  (forall e kids l, Forall P kids -> P (STNode e kids l)) -> forall t, P t.
Proof.
  intros Hn.
  refine (fix IH t := match t with
    | STNode e kids l => Hn e kids l
        ((fix go (ks : list (SolutionTree num)) : Forall P ks :=
            match ks with
            | [] => Forall_nil _
            | c :: cs => Forall_cons _ (IH c) (go cs)
            end) kids)
    end).
Qed.

Lemma extractSolutions_real (t : SolutionTree num) :
  forall s, In s (extractSolutions t) -> isRealSolution s = true.
Proof.
  induction t as [e kids l IH] using SolutionTree_ind'; intros s Hs.
  simpl in Hs. apply in_app_or in Hs as [Hs|Hs].
  - destruct (isRealSolution e) eqn:E; simpl in Hs; [|contradiction].
    destruct Hs as [<-|[]]; exact E.
  - apply in_flat_map in Hs as [c [Hc Hs]].
    rewrite Forall_forall in IH. exact (IH c Hc s Hs).
Qed.

Lemma solve_loop_real now k (root : Expr num) md sols st to n r n' :
  (forall s, In s sols -> isRealSolution s = true) ->
  solve_loop now k root md sols st to n = (inr r, n') ->
  forall s, In s (solutions r) -> isRealSolution s = true.
Proof.
  revert md sols n. induction k as [|k IH]; intros md sols n Hs Hrun;
    cbn [solve_loop] in Hrun.
  - unfold ret in Hrun. injection Hrun as <- _. exact Hs.
  - unfold bind, date_now, ret in Hrun.
    destruct (Z.gtb (now n - st) to).
    + injection Hrun as <- _. exact Hs.
    + destruct (buildSolutionTree now md root None md 0 st to (S n)) as [[err|kids] n2];
        [discriminate|].
      destruct (extractSolutions (STNode root kids None)) as [|s0 ss] eqn:E.
      * apply (IH _ _ _ (fun s (Hin : In s []) => False_ind _ Hin) Hrun).
      * injection Hrun as <- _. cbn [solutions]. rewrite <- E. apply extractSolutions_real.
Qed.

Lemma onlyNumbers_Numeric (e : Expr num) : onlyNumbers e = true -> Numeric e.
Proof.
  induction e as [v|n|op l IHl r IHr|l IHl r IHr]; simpl; intros Hn; try discriminate.
  - constructor.
  - apply andb_prop in Hn as [Hl Hr]. constructor; auto.
Qed.

Lemma isRealSolution_solved_form (s : Expr num) :
  isRealSolution s = true -> solved_form s.
Proof.
  unfold isRealSolution, solved_form.
  destruct s as [| |op l r|l r]; try discriminate.
  destruct l as [v|n|op l1 l2|l1 l2].
  - destruct r as [| m | |]; try discriminate. intros Hn.
    exists m, (NumberLiteral v). split; [right; reflexivity|apply onlyNumbers_Numeric; exact Hn].
  - intros Hn. exists n, r. split; [left; reflexivity|apply onlyNumbers_Numeric; exact Hn].
  - destruct r as [| m | |]; try discriminate. intros Hn.
    exists m, (BinaryExpression op l1 l2).
    split; [right; reflexivity|apply onlyNumbers_Numeric; exact Hn].
  - destruct r; discriminate.
Qed.

(** C6: every equation in the [solutions] returned by [findSolution] has one
    side a bare variable and the other side built only from number literals
    and binary operators (so no variable occurs in it, and it is not itself
    a bare variable). *)
Theorem C6_solutions_solved_form now (expr : Expr num) timeoutMs n r n' :
  findSolution now expr timeoutMs n = (inr r, n') ->
  forall s, In s (solutions r) -> solved_form s.
Proof.
  unfold findSolution, bind, date_now. simpl. intros Hrun s Hs.
  apply isRealSolution_solved_form.
  exact (solve_loop_real now maxIterations _ 1 [] _ _ _ r n'
           (fun s (Hin : In s []) => False_ind _ Hin) Hrun s Hs).
Qed.

(** C7: for an equation whose sides are not equations, [findPermutations]
    lists the labels of the left side, then those of the right side; a leaf
    side gives ["-"] followed by its text, a binary side gives the inverse
    operator followed by the text of its right operand, then the inverse
    operator followed by the text of its left operand. *)
Theorem C7_findPermutations_labels (l r : Expr num) :
  is_equation l = false -> is_equation r = false ->
  findPermutations (Equation l r) = (spec_side_labels l ++ spec_side_labels r)%list.
Proof.
  intros Hl Hr.
  destruct l as [| |op1 l1 l2|]; try discriminate;
  destruct r as [| |op2 r1 r2|]; try discriminate;
  try destruct op1; try destruct op2; reflexivity.
Qed.

Lemma findPermutations_nonempty (e : Expr num) p :
  In p (findPermutations e) -> p <> "".
Proof.
  intros Hp Hnil; subst p.
  destruct e as [| |op l r|l r]; simpl in Hp; try contradiction.
  apply in_app_or in Hp.
  destruct Hp as [Hp|Hp];
    [destruct l as [| |op| ]|destruct r as [| |op|]]; try destruct op;
    simpl in Hp; intuition discriminate.
Qed.

Lemma inverse_filter_spec last ps x :
  In x (inverse_filter last ps) ->
  In x ps /\ (forall p, last = Some p -> p <> "" -> x <> getInversePermutation p).
Proof.
  unfold inverse_filter. destruct last as [[|c s]|].
  - intros Hx; split; [exact Hx|]. intros p Hp Hne. injection Hp as <-. contradiction.
  - intros Hx. apply filter_In in Hx as [Hx Hf]. split; [exact Hx|].
    intros p Hp _. injection Hp as <-. intros Heq. subst x.
    rewrite String.eqb_refl in Hf. discriminate.
  - intros Hx; split; [exact Hx|]. discriminate.
Qed.

Lemma no_undo_node (e : Expr num) kids last :
  no_undo (STNode e kids last) <->
  Forall (fun c => (forall p, last = Some p ->
                     st_lastPermutation c <> Some (getInversePermutation p))
                   /\ no_undo c) kids.
Proof.
  induction kids as [|c cs IH]; simpl.
  - split; [constructor|trivial].
  - split.
    + intros [H1 [H2 H3]]. constructor; [split; assumption|apply IH; exact H3].
    + intros Hf. inversion Hf as [|? ? [H1 H2] H3]; subst.
      split; [exact H1|split; [exact H2|apply IH; exact H3]].
Qed.

Lemma buildSolutionTree_no_undo now steps :
  forall (e : Expr num) last md cd st to n kids n',
  (forall p, last = Some p -> p <> "") ->
  buildSolutionTree now steps e last md cd st to n = (inr kids, n') ->
  Forall (fun c => (forall p, last = Some p ->
                     st_lastPermutation c <> Some (getInversePermutation p))
                   /\ no_undo c) kids.
Proof.
  induction steps as [|steps IH]; intros e last md cd st to n kids n' Hlast Hrun;
    cbn [buildSolutionTree] in Hrun; unfold bind, ret, lift, throw in Hrun.
  - destruct (timed_out now st to n) as [[err|b] n1]; [discriminate|].
    destruct b; [injection Hrun as <- _; constructor|].
    destruct (Nat.leb md cd); injection Hrun as <- _; constructor.
  - destruct (timed_out now st to n) as [[err|b] n1]; [discriminate|].
    destruct b; [injection Hrun as <- _; constructor|].
    destruct (Nat.leb md cd); [injection Hrun as <- _; constructor|].
    assert (Hps : forall x, In x (inverse_filter last (findPermutations e)) ->
                  x <> "" /\ forall p, last = Some p -> x <> getInversePermutation p).
    { intros x Hx. apply inverse_filter_spec in Hx as [Hx Hinv]. split.
      - exact (findPermutations_nonempty e x Hx).
      - intros p Hp. apply Hinv; [exact Hp|apply Hlast; exact Hp]. }
    revert n1 kids n' Hrun Hps. generalize (inverse_filter last (findPermutations e)) as ps.
    induction ps as [|x ps IHps]; intros n1 kids n' Hrun Hps.
    + injection Hrun as <- _. constructor.
    + cbv beta iota in Hrun.
      destruct (timed_out now st to n1) as [[err|b] n2]; [discriminate|].
      destruct b; [injection Hrun as <- _; constructor|].
      destruct (applyPermutation e x) as [err|newSol];
        unfold ret in Hrun; cbv beta iota in Hrun; [discriminate|].
      assert (Hx : x <> "" /\ forall p, last = Some p -> x <> getInversePermutation p)
        by (apply Hps; left; reflexivity).
      assert (Hps' : forall y, In y ps ->
                y <> "" /\ forall p, last = Some p -> y <> getInversePermutation p)
        by (intros y Hy; apply Hps; right; exact Hy).
      assert (Hlab : forall p, last = Some p ->
                Some x <> Some (getInversePermutation p))
        by (intros p Hp Heq; injection Heq as Heq; exact (proj2 Hx p Hp Heq)).
      destruct (isRealSolution (simplify newSol)); cbv beta iota in Hrun.
      * match type of Hrun with
        | context [match ?m ps ?k with _ => _ end] =>
            destruct (m ps k) as [[err|sib] n4] eqn:Esib; [discriminate|]
        end.
        injection Hrun as <- _. constructor.
        -- split; [exact Hlab|]. simpl. trivial.
        -- exact (IHps _ _ _ Esib Hps').
      * destruct (buildSolutionTree now steps (simplify newSol) (Some x) md (S cd) st to n2)
          as [[err|kids1] n3] eqn:Ek; [discriminate|].
        match type of Hrun with
        | context [match ?m ps ?k with _ => _ end] =>
            destruct (m ps k) as [[err|sib] n4] eqn:Esib; [discriminate|]
        end.
        injection Hrun as <- _. constructor.
        -- split; [exact Hlab|]. apply no_undo_node.
           refine (IH _ _ _ _ _ _ _ _ _ _ Ek).
           intros p Hp. injection Hp as <-. exact (proj1 Hx).
        -- exact (IHps _ _ _ Esib Hps').
Qed.

(** C8: in every solution tree that [findSolution] builds, rooted at the
    simplified equation with no incoming label, a child's label is never
    [getInversePermutation] of the label that led to its parent. *)
Theorem C8_no_inverse_child now steps (root : Expr num) md st to n kids n' :
  buildSolutionTree now steps root None md 0 st to n = (inr kids, n') ->
  no_undo (STNode root kids None).
Proof.
  intros Hrun. apply no_undo_node.
  exact (buildSolutionTree_no_undo now steps root None md 0 st to n kids n'
           (fun p (Hp : None = Some p) => ltac:(discriminate Hp)) Hrun).
Qed.

End SearchProps.

(** ** Shape of the simplifier's output *)

Section SimplifyShape.
Context {num : Type} `{JSNum num}.

Ltac destr_hyps :=
  repeat match goal with
  | Hs : Some _ = Some _ |- _ => injection Hs as Hs; subst
  | Hs : None = Some _ |- _ => discriminate Hs
  | Hs : context [match ?x with _ => _ end] |- _ => destruct x eqn:?
  end.

Ltac destr_goal :=
  repeat match goal with
  | |- context [if ?x then _ else _] => destruct x eqn:?
  end.

Ltac noEq_solve :=
  unfold coeff_term, reassoc_term, lit in *; destr_goal; simpl in *;
  repeat rewrite andb_true_iff in *; intuition.

(** Every rule builds its result from the operands' subtrees and new
    literals, so no [Equation] node appears. *)
Lemma simplifyNode_noEq (so : Expr num -> Expr num) op l r :
  (forall x, noEq x = true -> noEq (so x) = true) ->
  noEq l = true -> noEq r = true -> noEq (simplifyNode so op l r) = true.
Proof.
  intros Hso Hl Hr. unfold simplifyNode.
  destruct (rule_fold op l r) as [x|] eqn:E1.
  { unfold rule_fold in E1. destr_hyps. reflexivity. }
  destruct (rule_identity op l r) as [x|] eqn:E2.
  { unfold rule_identity in E2. destr_hyps; noEq_solve. }
  destruct (rule_like_vars op l r) as [x|] eqn:E3.
  { unfold rule_like_vars in E3. destr_hyps; noEq_solve. }
  destruct (rule_cancel_right_lit op l r) as [x|] eqn:E4.
  { unfold rule_cancel_right_lit in E4. destr_hyps; noEq_solve. }
  destruct (rule_cancel_left_lit op l r) as [x|] eqn:E5.
  { unfold rule_cancel_left_lit in E5. destr_hyps; noEq_solve. }
  destruct (rule_left_binary op l r) as [x|] eqn:E6.
  { unfold rule_left_binary in E6. destr_hyps; noEq_solve. }
  destruct (rule_like_coeff op l r) as [x|] eqn:E7.
  { unfold rule_like_coeff in E7. destr_hyps; noEq_solve. }
  destruct (rule_distribute so op l r) as [x|] eqn:E8.
  { unfold rule_distribute in E8. destr_hyps; simpl in *;
      repeat rewrite andb_true_iff in *; split; apply Hso; simpl;
      repeat rewrite andb_true_iff in *; intuition. }
  simpl. rewrite Hl, Hr. reflexivity.
Qed.

Lemma simplifyOnce_fuel_noEq f (e : Expr num) :
  noEq e = true -> noEq (simplifyOnce_fuel f e) = true.
Proof.
  revert e. induction f as [|f IH]; intros e He; [exact He|].
  destruct e as [v|n|op l r|l r]; simpl in *; try exact He.
  apply andb_prop in He as [Hl Hr].
  apply simplifyNode_noEq; auto.
Qed.

Lemma simplifyOnce_rootEq (e : Expr num) :
  rootEq e = true -> rootEq (simplifyOnce e) = true.
Proof.
  destruct e as [| |op l r|l r]; try discriminate. intros He.
  unfold simplifyOnce. cbn [measure]. rewrite Nat.add_1_r. cbn [simplifyOnce_fuel].
  simpl in *. apply andb_prop in He as [Hl Hr].
  rewrite !simplifyOnce_fuel_noEq; auto.
Qed.

(** Any property kept by one pass is kept by [simplify]. *)
Lemma simplify_preserves (P : Expr num -> Prop) :
  (forall e, P e -> P (simplifyOnce e)) -> forall e, P e -> P (simplify e).
Proof.
  intros Hstep e He. unfold simplify.
  assert (Hit : forall n x r, P x -> simplify_iter n x = Some r -> P r).
  { induction n as [|n IH]; intros x r Hx Hr; simpl in Hr; [discriminate|].
    destruct (String.eqb _ _).
    - injection Hr as <-. apply Hstep. exact Hx.
    - apply (IH _ _ (Hstep _ Hx) Hr). }
  destruct (simplify_iter (S (measure e)) e) eqn:E; [|exact He].
  exact (Hit _ _ _ He E).
Qed.

End SimplifyShape.

(** ** The tokenizer *)

Lemma str_app_assoc (a b c : string) : ((a ++ b) ++ c) = (a ++ (b ++ c)).
Proof. induction a as [|x a IH]; simpl; [reflexivity|rewrite IH; reflexivity]. Qed.

Lemma str_app_nil_r (a : string) : (a ++ "") = a.
Proof. induction a as [|x a IH]; simpl; [reflexivity|rewrite IH; reflexivity]. Qed.

Lemma str_length_app (a b : string) : String.length (a ++ b) = String.length a + String.length b.
Proof. induction a as [|x a IH]; simpl; [reflexivity|rewrite IH; reflexivity]. Qed.

Lemma is_digit_not_space c : is_digit c = true -> is_space c = false.
Proof.
  unfold is_digit, is_space. intros Hd. apply andb_prop in Hd as [H1 H2].
  apply Nat.leb_le in H1. apply Nat.leb_le in H2.
  replace (nat_of_ascii c) with (48 + (nat_of_ascii c - 48)) by lia.
  destruct (nat_of_ascii c - 48) as [|k] eqn:E; [reflexivity|].
  do 9 (destruct k as [|k]; [reflexivity|]). lia.
Qed.

Lemma lex_rest_digit d t :
  is_digit d = true ->
  lex_rest (String d t) = let (lx, r) := lex_rest t in (String d lx, r).
Proof.
  intros Hd. unfold lex_rest. cbn [span_digits]. rewrite Hd.
  destruct (span_digits t) as [a b].
  destruct b as [|dot [|d2 r']]; try reflexivity.
  destruct (Ascii.eqb dot "." && is_digit d2); [|reflexivity].
  destruct (span_digits r'); reflexivity.
Qed.

Lemma tokenize_digit c rest :
  is_digit c = true ->
  tokenize (String c rest) =
  let (lx, r) := lex_rest rest in cons_tok (mkToken TokenType.Number (String c lx)) (tokenize r).
Proof.
  intros Hc. cbn [tokenize]. rewrite (is_digit_not_space c Hc), Hc.
  transitivity (let (lx, r) := lex_rest rest in
                cons_tok (mkToken TokenType.Number (char_str c ++ lx)) (tokenize r));
    [|destruct (lex_rest rest); reflexivity].
  generalize (char_str c) as num. clear c Hc.
  induction rest as [|d t IH]; intros num.
  - simpl. rewrite str_app_nil_r. reflexivity.
  - destruct (is_digit d) eqn:Hd.
    + rewrite lex_rest_digit by exact Hd. cbv beta iota. try rewrite Hd. rewrite IH.
      destruct (lex_rest t) as [lx r]. rewrite str_app_assoc. reflexivity.
    + unfold lex_rest at 1. cbn [span_digits]. rewrite Hd. cbv beta iota. try rewrite Hd.
      destruct (Ascii.eqb d ".") eqn:Hdot.
      * destruct t as [|d2 t''].
        -- rewrite str_app_nil_r. reflexivity.
        -- destruct (is_digit d2) eqn:Hd2; cbn [andb].
           ++ transitivity (let (fp, r) := span_digits t'' in
                cons_tok (mkToken TokenType.Number ((num ++ "." ++ char_str d2) ++ fp))
                  (tokenize r));
              [|destruct (span_digits t''); rewrite !str_app_assoc; reflexivity].
              generalize (num ++ "." ++ char_str d2) as num2. clear IH.
              induction t'' as [|d3 u IH2]; intros num2.
              ** simpl. rewrite str_app_nil_r. reflexivity.
              ** cbn [span_digits]. destruct (is_digit d3) eqn:Hd3; cbv beta iota; try rewrite Hd3.
                 --- rewrite IH2. destruct (span_digits u) as [a b].
                     rewrite str_app_assoc. reflexivity.
                 --- rewrite str_app_nil_r. reflexivity.
           ++ rewrite str_app_nil_r. reflexivity.
      * destruct t as [|d2 t'']; cbn [andb]; rewrite str_app_nil_r; reflexivity.
Qed.

Lemma tokenize_space c rest :
  is_space c = true -> tokenize (String c rest) = tokenize rest.
Proof. intros Hc. cbn [tokenize]. rewrite Hc. reflexivity. Qed.

Lemma tokenize_other c rest :
  is_space c = false -> is_digit c = false ->
  tokenize (String c rest) =
  match char_token c with
  | Some ty => cons_tok (mkToken ty (char_str c)) (tokenize rest)
  | None => inl ("Unexpected character: " ++ char_str c)
  end.
Proof. intros Hs Hd. cbn [tokenize]. rewrite Hs, Hd. reflexivity. Qed.

Lemma span_digits_app s : let (a, b) := span_digits s in s = (a ++ b).
Proof.
  induction s as [|d t IH]; simpl; [reflexivity|].
  destruct (is_digit d); [destruct (span_digits t); simpl; rewrite <- IH|]; reflexivity.
Qed.

Lemma lex_rest_app t : let (a, b) := lex_rest t in t = (a ++ b).
Proof.
  unfold lex_rest. pose proof (span_digits_app t) as Ht.
  destruct (span_digits t) as [ip r].
  destruct r as [|dot [|d2 r']]; try exact Ht.
  destruct (Ascii.eqb dot "." && is_digit d2) eqn:E; [|exact Ht].
  apply andb_prop in E as [E _]. apply Ascii.eqb_eq in E. subst dot.
  pose proof (span_digits_app r') as Hr. destruct (span_digits r') as [fp r''].
  rewrite Ht, Hr, !str_app_assoc. reflexivity.
Qed.

Lemma has_char_app c a b : has_char c (a ++ b) = has_char c a || has_char c b.
Proof. induction a as [|d a IH]; simpl; [reflexivity|rewrite IH, orb_assoc; reflexivity]. Qed.

Lemma char_token_equals c : char_token c = Some TokenType.Equals -> c = "="%char.
Proof.
  unfold char_token.
  repeat match goal with
  | |- context [if Ascii.eqb c ?a then _ else _] =>
      destruct (Ascii.eqb c a) eqn:?; [try discriminate|]
  end.
  - intros _. apply Ascii.eqb_eq. assumption.
  - destruct (is_alpha c); discriminate.
Qed.

(** Text without an ['='] character gives no [Equals] token. *)
Lemma tokenize_no_equals : forall s ts,
  has_char "=" s = false -> tokenize s = inr ts -> Forall not_equals_tok ts.
Proof.
  intros s. remember (String.length s) as len eqn:Hlen.
  revert s Hlen. induction len as [len IH] using (well_founded_induction lt_wf).
  intros s Hlen ts Hs Ht. destruct s as [|c rest].
  - simpl in Ht. injection Ht as <-. constructor.
  - simpl in Hs. apply orb_false_elim in Hs as [Hc Hs].
    destruct (is_space c) eqn:Hsp.
    + rewrite tokenize_space in Ht by exact Hsp.
      refine (IH _ _ rest eq_refl ts Hs Ht). simpl in Hlen. lia.
    + destruct (is_digit c) eqn:Hdg.
      * rewrite tokenize_digit in Ht by exact Hdg.
        pose proof (lex_rest_app rest) as Happ.
        destruct (lex_rest rest) as [lx r].
        assert (Hr : has_char "=" r = false)
          by (rewrite Happ, has_char_app in Hs; apply orb_false_elim in Hs as [_ Hs]; exact Hs).
        assert (Hl : String.length r <= String.length rest)
          by (rewrite Happ, str_length_app; lia).
        destruct (tokenize r) as [err|ts'] eqn:Er; simpl in Ht; [discriminate|].
        injection Ht as <-. constructor; [discriminate|].
        refine (IH _ _ r eq_refl ts' Hr Er). simpl in Hlen. lia.
      * rewrite tokenize_other in Ht by assumption.
        destruct (char_token c) as [ty|] eqn:Ec; [|discriminate].
        destruct (tokenize rest) as [err|ts'] eqn:Er; simpl in Ht; [discriminate|].
        injection Ht as <-. constructor.
        -- unfold not_equals_tok. simpl. intros Heq. subst ty.
           apply char_token_equals in Ec. subst c. discriminate Hc.
        -- refine (IH _ _ rest eq_refl ts' Hs Er). simpl in Hlen. lia.
Qed.

(** ** Equations produced by the parser and by [applyPermutation] *)

Section ParserShape.
Context {num : Type} `{JSNum num}.

(** Unfolding equations of the parsing functions. *)
Lemma parseEquation_S f (ts : list Token) :
  parseEquation (S f) ts =
  let* (left, ts1) := parseAddSubtract f ts in
  match ts1 with
  | t :: ts2 =>
      if tok_is TokenType.Equals t then
        let* (right, ts3) := parseAddSubtract f ts2 in
        inr (Equation left right, ts3)
      else inr (left, ts1)
  | [] => inr (left, ts1)
  end.
Proof. reflexivity. Qed.

Lemma parseAddSubtract_S f (ts : list Token) :
  parseAddSubtract (S f) ts =
  let* (left, ts1) := parseMultiplyDivide f ts in addsub_loop f left ts1.
Proof. reflexivity. Qed.

Lemma addsub_loop_S f (left : Expr num) ts :
  addsub_loop (S f) left ts =
  match ts with
  | t :: ts1 =>
      match addsub_op t with
      | Some op =>
          let* (right, ts2) := parseMultiplyDivide f ts1 in
          addsub_loop f (BinaryExpression op left right) ts2
      | None => inr (left, ts)
      end
  | [] => inr (left, ts)
  end.
Proof. reflexivity. Qed.

Lemma parseMultiplyDivide_S f (ts : list Token) :
  parseMultiplyDivide (S f) ts =
  let* (left, ts1) := parseUnary f ts in muldiv_loop f left ts1.
Proof. reflexivity. Qed.

Lemma muldiv_loop_S f (left : Expr num) ts :
  muldiv_loop (S f) left ts =
  match ts with
  | t :: ts1 =>
      match muldiv_op t with
      | Some op =>
          let* (right, ts2) := parseUnary f ts1 in
          muldiv_loop f (BinaryExpression op left right) ts2
      | None => inr (left, ts)
      end
  | [] => inr (left, ts)
  end.
Proof. reflexivity. Qed.

Lemma parseUnary_S f (ts : list Token) :
  parseUnary (S f) ts =
  match ts with
  | t :: ts1 =>
      if tok_is TokenType.Minus t then
        let* (operand, ts2) := parseUnary f ts1 in
        inr (BinaryExpression OpSub (lit 0) operand, ts2)
      else if tok_is TokenType.Plus t then parseUnary f ts1
      else parsePrimary f ts
  | [] => parsePrimary f ts
  end.
Proof. reflexivity. Qed.

Lemma parsePrimary_S f (ts : list Token) :
  parsePrimary (S f) ts =
  match ts with
  | [] => inl "Unexpected end of input"
  | t :: ts1 =>
      match tok_type t with
      | TokenType.Number => inr (NumberLiteral (js_parseFloat (tok_value t)), ts1)
      | TokenType.Var => inr (Var (tok_value t), ts1)
      | TokenType.Oparen =>
          let* (e, ts2) := parseEquation f ts1 in
          match ts2 with
          | t2 :: ts3 =>
              if tok_is TokenType.Cparen t2 then inr (e, ts3)
              else inl "Expected closing parenthesis"
          | [] => inl "Expected closing parenthesis"
          end
      | _ => inl ("Unexpected token: " ++ tok_value t)
      end
  end.
Proof. reflexivity. Qed.

Lemma tok_is_Equals t : tok_is TokenType.Equals t = true -> tok_type t = TokenType.Equals.
Proof. unfold tok_is. destruct (tok_type t); easy. Qed.

(** Without an [Equals] token, the parser builds no [Equation] node. *)
Lemma parser_noEq f :
  (forall ts, Forall not_equals_tok ts -> Qok (parseEquation f ts)) /\
  (forall ts, Forall not_equals_tok ts -> Qok (parseAddSubtract f ts)) /\
  (forall l ts, noEq l = true -> Forall not_equals_tok ts -> Qok (addsub_loop f l ts)) /\
  (forall ts, Forall not_equals_tok ts -> Qok (parseMultiplyDivide f ts)) /\
  (forall l ts, noEq l = true -> Forall not_equals_tok ts -> Qok (muldiv_loop f l ts)) /\
  (forall ts, Forall not_equals_tok ts -> Qok (parseUnary f ts)) /\
  (forall ts, Forall not_equals_tok ts -> Qok (parsePrimary f ts)).
Proof.
  induction f as [|f IH]; [repeat split; intros; exact I|].
  destruct IH as (IE & IAS & IAL & IMD & IML & IU & IP).
  repeat split.
  - intros ts Hts. rewrite parseEquation_S. specialize (IAS ts Hts).
    destruct (parseAddSubtract f ts) as [err|[l ts1]]; [exact I|].
    destruct IAS as [Hl Hts1]. destruct ts1 as [|t ts2]; [split; auto|].
    destruct (tok_is TokenType.Equals t) eqn:Et.
    + inversion Hts1 as [|? ? Ht _]; subst. apply tok_is_Equals in Et. contradiction.
    + split; auto.
  - intros ts Hts. rewrite parseAddSubtract_S. specialize (IMD ts Hts).
    destruct (parseMultiplyDivide f ts) as [err|[l ts1]]; [exact I|].
    destruct IMD as [Hl Hts1]. apply IAL; assumption.
  - intros l ts Hl Hts. rewrite addsub_loop_S. destruct ts as [|t ts1]; [split; auto|].
    destruct (addsub_op t) as [op|]; [|split; auto].
    inversion Hts as [|? ? _ Hts1]; subst. specialize (IMD ts1 Hts1).
    destruct (parseMultiplyDivide f ts1) as [err|[r ts2]]; [exact I|].
    destruct IMD as [Hr Hts2]. apply IAL; [simpl; rewrite Hl, Hr; reflexivity|exact Hts2].
  - intros ts Hts. rewrite parseMultiplyDivide_S. specialize (IU ts Hts).
    destruct (parseUnary f ts) as [err|[l ts1]]; [exact I|].
    destruct IU as [Hl Hts1]. apply IML; assumption.
  - intros l ts Hl Hts. rewrite muldiv_loop_S. destruct ts as [|t ts1]; [split; auto|].
    destruct (muldiv_op t) as [op|]; [|split; auto].
    inversion Hts as [|? ? _ Hts1]; subst. specialize (IU ts1 Hts1).
    destruct (parseUnary f ts1) as [err|[r ts2]]; [exact I|].
    destruct IU as [Hr Hts2]. apply IML; [simpl; rewrite Hl, Hr; reflexivity|exact Hts2].
  - intros ts Hts. rewrite parseUnary_S. destruct ts as [|t ts1]; [apply IP; exact Hts|].
    inversion Hts as [|? ? _ Hts1]; subst.
    destruct (tok_is TokenType.Minus t).
    + specialize (IU ts1 Hts1). destruct (parseUnary f ts1) as [err|[r ts2]]; [exact I|].
      destruct IU as [Hr Hts2]. split; [simpl; exact Hr|exact Hts2].
    + destruct (tok_is TokenType.Plus t); [apply IU; exact Hts1|apply IP; exact Hts].
  - intros ts Hts. rewrite parsePrimary_S. destruct ts as [|t ts1]; [exact I|].
    inversion Hts as [|? ? _ Hts1]; subst.
    destruct (tok_type t); try exact I; try (split; [reflexivity|exact Hts1]).
    specialize (IE ts1 Hts1). destruct (parseEquation f ts1) as [err|[e ts2]]; [exact I|].
    destruct IE as [He Hts2]. destruct ts2 as [|t2 ts3]; [exact I|].
    destruct (tok_is TokenType.Cparen t2); [|exact I].
    inversion Hts2; subst. split; assumption.
Qed.

Lemma parse_noEq ts (e : Expr num) :
  Forall not_equals_tok ts -> parse ts = inr e -> noEq e = true.
Proof.
  intros Hts Hp. unfold parse in Hp.
  pose proof (proj1 (parser_noEq (parse_fuel ts)) ts Hts) as Hq.
  destruct (parseEquation (parse_fuel ts) ts) as [err|[e' [|t rest]]]; try discriminate.
  injection Hp as <-. exact (proj1 Hq).
Qed.

Lemma paren_has_eq (b : bool) s :
  has_char "=" (if b then paren s else s) = has_char "=" s.
Proof.
  destruct b; [|reflexivity]. unfold paren. rewrite !has_char_app. simpl.
  rewrite orb_false_r. reflexivity.
Qed.

Lemma op_str_has_eq op : has_char "=" (op_str op) = false.
Proof. destruct op; reflexivity. Qed.

(** The printed form of an expression with well-formed atoms has no
    ['='] character. *)
Lemma print_no_eq (x : Expr num) :
  noEq x = true -> atoms_ok x = true -> has_char "=" (exprToString x) = false.
Proof.
  induction x as [v|n|op l IHl r IHr|l IHl r IHr]; simpl; intros Hn Ha; try discriminate.
  - apply negb_true_iff in Ha. rewrite (paren_has_eq _ (js_toString v)). exact Ha.
  - apply negb_true_iff in Ha. exact Ha.
  - apply andb_prop in Hn as [Hnl Hnr]. apply andb_prop in Ha as [Hal Har].
    pose proof (IHl Hnl Hal) as Hl. pose proof (IHr Hnr Har) as Hr. clear IHl IHr.
    revert Hl Hr. generalize (exprToString l) as sl. generalize (exprToString r) as sr.
    intros sr sl Hl Hr.
    destruct op; destruct l as [| |lop ? ?|]; destruct r as [| |rop ? ?|];
      try destruct lop; try destruct rop; unfold paren;
      repeat first [rewrite has_char_app | progress simpl | rewrite Hl | rewrite Hr];
      reflexivity.
Qed.

Lemma findPermutations_no_eq (l r : Expr num) p :
  noEq l = true -> noEq r = true -> atoms_ok l = true -> atoms_ok r = true ->
  In p (findPermutations (Equation l r)) -> has_char "=" p = false.
Proof.
  intros Hnl Hnr Hal Har Hp. simpl in Hp. apply in_app_or in Hp.
  assert (Hside : forall s, noEq s = true -> atoms_ok s = true ->
                  In p (getPermutations s) -> has_char "=" p = false).
  { intros s Hn Ha Hin. destruct s as [v|n|op a b|a b]; simpl in Hin.
    - destruct Hin as [<-|[]]. change (has_char "=" (exprToString (NumberLiteral v)) = false).
      apply print_no_eq; assumption.
    - destruct Hin as [<-|[]]. simpl in Ha |- *. apply negb_true_iff in Ha. exact Ha.
    - simpl in Hn, Ha. apply andb_prop in Hn as [Hna Hnb]. apply andb_prop in Ha as [Haa Hab].
      destruct Hin as [<-|[<-|[]]]; rewrite has_char_app;
        (destruct op; simpl; apply print_no_eq; assumption).
    - destruct Hin. }
  destruct Hp as [Hp|Hp]; [exact (Hside l Hnl Hal Hp)|exact (Hside r Hnr Har Hp)].
Qed.

Lemma reparse_side_noEq (side : Expr num) p e' :
  noEq side = true -> atoms_ok side = true -> has_char "=" p = false ->
  reparse_side side p = inr e' -> noEq e' = true.
Proof.
  intros Hn Ha Hp Hr. unfold reparse_side in Hr.
  destruct (tokenize ("(" ++ exprToString side ++ ") " ++ p)) as [err|ts] eqn:Et;
    [discriminate|].
  apply (parse_noEq ts); [|exact Hr].
  apply (tokenize_no_equals ("(" ++ exprToString side ++ ") " ++ p)); [|exact Et].
  rewrite !has_char_app, (print_no_eq side Hn Ha), Hp. reflexivity.
Qed.

End ParserShape.

Section RootEquation.
Context {num : Type} `{JSNum num}.

(** C9: for an equation whose sides contain no [Equation] node, [simplify]
    returns an equation whose sides again contain none; and so does
    [applyPermutation] with any of the equation's labels from
    [findPermutations], when variable names and printed literals contain
    no ['='] (the names the tokenizer produces are letters). *)
Theorem C9_equation_only_at_root (e : Expr num) :
  rootEq e = true ->
  rootEq (simplify e) = true /\
  (atoms_ok e = true ->
   forall p e', In p (findPermutations e) -> applyPermutation e p = inr e' ->
   rootEq e' = true).
Proof.
  intros He. split.
  - exact (simplify_preserves (fun x => rootEq x = true) simplifyOnce_rootEq e He).
  - intros Ha p e' Hp Happ.
    destruct e as [| |op l r|l r]; try discriminate.
    simpl in He, Ha. apply andb_prop in He as [Hl Hr]. apply andb_prop in Ha as [Hal Har].
    pose proof (findPermutations_no_eq l r p Hl Hr Hal Har Hp) as Hpe.
    simpl in Happ.
    destruct (reparse_side l p) as [err|l'] eqn:El; [discriminate|].
    destruct (reparse_side r p) as [err|r'] eqn:Er; [discriminate|].
    injection Happ as <-. simpl.
    rewrite (reparse_side_noEq l p l' Hl Hal Hpe El), (reparse_side_noEq r p r' Hr Har Hpe Er).
    reflexivity.
Qed.

End RootEquation.

(** ** Witnesses *)

Lemma C6_witness :
  findSolution clock_still sample_eq 5000%Z 0 = (inr sample_result, 8) /\
  solutions sample_result = [Equation (Var "x") (NumberLiteral 3%float)] /\
  forall s, In s (solutions sample_result) -> solved_form s.
Proof.
  split; [vm_compute; reflexivity|]. split; [vm_compute; reflexivity|].
  apply (C6_solutions_solved_form clock_still sample_eq 5000 0 sample_result 8).
  vm_compute. reflexivity.
Defined.

Lemma C7_witness :
  let l := BinaryExpression OpAdd (Var "x") (lit 2) : Expr float in
  let r := lit 5 : Expr float in
  is_equation l = false /\ is_equation r = false /\
  findPermutations (Equation l r) = (spec_side_labels l ++ spec_side_labels r)%list.
Proof.
  intros l r. split; [reflexivity|]. split; [reflexivity|].
  apply C7_findPermutations_labels; vm_compute; reflexivity.
Defined.

Lemma C8_witness :
  buildSolutionTree clock_still 2 sample_eq None 2 0 1000 5000 0 = (inr sample_tree, 15) /\
  no_undo (STNode sample_eq sample_tree None).
Proof.
  split; [vm_compute; reflexivity|].
  apply (C8_no_inverse_child clock_still 2 sample_eq 2 1000 5000 0 sample_tree 15).
  vm_compute. reflexivity.
Defined.

Lemma C9_witness :
  rootEq sample_eq = true /\ atoms_ok sample_eq = true /\
  rootEq (simplify sample_eq) = true /\
  (forall p e', In p (findPermutations sample_eq) ->
   applyPermutation sample_eq p = inr e' -> rootEq e' = true).
Proof.
  split; [vm_compute; reflexivity|]. split; [vm_compute; reflexivity|].
  pose proof (C9_equation_only_at_root sample_eq (eq_refl true)) as [H1 H2].
  split; [exact H1|]. apply H2. vm_compute. reflexivity.
Defined.

(** ** Termination of [simplify] *)

Section Termination.
Context {num : Type} `{JSNum num}.

Lemma measure_pos (e : Expr num) : 2 <= measure e.
Proof.
  induction e as [| |op l IHl r IHr|l IHl r IHr]; simpl; try lia.
  destruct (additive op); nia.
Qed.

Lemma op_eqb_true a b : op_eqb a b = true -> a = b.
Proof. destruct a, b; simpl; congruence. Qed.

Ltac destr_rule :=
  repeat match goal with
  | Hs : Some _ = Some _ |- _ => injection Hs as Hs; subst
  | Hs : None = Some _ |- _ => discriminate Hs
  | Hs : (_ && _) = true |- _ => apply andb_prop in Hs as [? ?]
  | Hs : op_eqb _ _ = true |- _ => apply op_eqb_true in Hs; subst
  | Hs : context [match ?x with _ => _ end] |- _ =>
      destruct x eqn:?; simpl in *; try discriminate
  end.

Ltac measure_facts :=
  repeat match goal with
  | |- context [measure ?t] =>
      lazymatch goal with
      | _ : 2 <= measure t |- _ => fail
      | _ => pose proof (measure_pos t)
      end
  end.

Ltac measure_solve :=
  unfold coeff_term, reassoc_term, lit in *; destr_goal_m; simpl in *; destr_goal_m;
  measure_facts; nia
with destr_goal_m :=
  repeat match goal with
  | |- context [if ?x then _ else _] => destruct x eqn:?
  end.

Lemma measure_bin op (l r : Expr num) :
  measure (BinaryExpression op l r) =
  if additive op then measure l + measure r + 1 else measure l * measure r.
Proof. reflexivity. Qed.

Lemma measure_leaf (v : num) : measure (NumberLiteral v) = 2.
Proof. reflexivity. Qed.

Lemma measure_var (x : string) : measure (Var (num:=num) x) = 2.
Proof. reflexivity. Qed.

Lemma measure_eq (l r : Expr num) : measure (Equation l r) = measure l + measure r + 1.
Proof. reflexivity. Qed.

Lemma shrinks_le (so : Expr num -> Expr num) :
  shrinks so -> forall x, measure (so x) <= measure x.
Proof. intros Hso x. destruct (Hso x) as [->|Hlt]; lia. Qed.

(** Every rule that fires lowers the weight of the node. *)
Lemma simplifyNode_measure (so : Expr num -> Expr num) op a b :
  shrinks so ->
  simplifyNode so op a b = BinaryExpression op a b \/
  measure (simplifyNode so op a b) < measure (BinaryExpression op a b).
Proof.
  intros Hso. unfold simplifyNode.
  destruct (rule_fold op a b) as [x|] eqn:E1.
  { right. unfold rule_fold in E1. destr_rule. destruct op; simpl; lia. }
  destruct (rule_identity op a b) as [x|] eqn:E2.
  { right. unfold rule_identity, isNumVal in E2. destr_rule; measure_solve. }
  destruct (rule_like_vars op a b) as [x|] eqn:E3.
  { right. unfold rule_like_vars in E3. destr_rule; measure_solve. }
  destruct (rule_cancel_right_lit op a b) as [x|] eqn:E4.
  { right. unfold rule_cancel_right_lit, isNumVal in E4. destr_rule; measure_solve. }
  destruct (rule_cancel_left_lit op a b) as [x|] eqn:E5.
  { right. unfold rule_cancel_left_lit, isNumVal in E5. destr_rule; measure_solve. }
  destruct (rule_left_binary op a b) as [x|] eqn:E6.
  { right. unfold rule_left_binary in E6. destr_rule; measure_solve. }
  destruct (rule_like_coeff op a b) as [x|] eqn:E7.
  { right. unfold rule_like_coeff in E7. destr_rule; measure_solve. }
  destruct (rule_distribute so op a b) as [x|] eqn:E8.
  { right. unfold rule_distribute in E8.
    destruct op, a, b; simpl in E8; try discriminate E8;
    match type of E8 with
    | (if additive ?o then _ else _) = _ =>
        destruct (additive o) eqn:Ho; [injection E8 as <- | discriminate E8]
    end;
    rewrite measure_bin, Ho;
    repeat match goal with
    | |- context [measure (so ?t)] =>
        lazymatch goal with
        | _ : measure (so t) <= measure t |- _ => fail
        | _ => pose proof (shrinks_le so Hso t)
        end
    end;
    rewrite ?measure_bin, ?measure_leaf, ?measure_var, ?measure_eq in *; rewrite ?Ho in *;
    simpl additive in *; cbv iota in *;
    repeat match goal with
    | |- context [if additive ?o then _ else _] => destruct (additive o)
    end; measure_facts; nia. }
  left. reflexivity.
Qed.

Lemma bin_child_l op (l r : Expr num) : measure l + 2 <= measure (BinaryExpression op l r).
Proof.
  rewrite measure_bin. pose proof (measure_pos l). pose proof (measure_pos r).
  destruct (additive op); nia.
Qed.

Lemma bin_child_r op (l r : Expr num) : measure r + 2 <= measure (BinaryExpression op l r).
Proof.
  rewrite measure_bin. pose proof (measure_pos l). pose proof (measure_pos r).
  destruct (additive op); nia.
Qed.

Lemma bin_le op (l l' r r' : Expr num) :
  measure l' <= measure l -> measure r' <= measure r ->
  measure (BinaryExpression op l' r') <= measure (BinaryExpression op l r).
Proof.
  rewrite !measure_bin. pose proof (measure_pos l'). pose proof (measure_pos r').
  destruct (additive op); nia.
Qed.

Lemma bin_lt op (l l' r r' : Expr num) :
  measure l' <= measure l -> measure r' <= measure r ->
  measure l' < measure l \/ measure r' < measure r ->
  measure (BinaryExpression op l' r') < measure (BinaryExpression op l r).
Proof.
  rewrite !measure_bin. pose proof (measure_pos l'). pose proof (measure_pos r').
  destruct (additive op); nia.
Qed.

Lemma simplifyOnce_fuel_bin f op (l r : Expr num) :
  simplifyOnce_fuel (S f) (BinaryExpression op l r) =
  simplifyNode (simplifyOnce_fuel f) op (simplifyOnce_fuel f l) (simplifyOnce_fuel f r).
Proof. reflexivity. Qed.

Lemma simplifyOnce_fuel_eqn f (l r : Expr num) :
  simplifyOnce_fuel (S f) (Equation l r) =
  Equation (simplifyOnce_fuel f l) (simplifyOnce_fuel f r).
Proof. reflexivity. Qed.

(** Each pass leaves a tree unchanged or lowers its weight, whatever the
    budget. *)
Lemma simplifyOnce_fuel_shrinks f : shrinks (simplifyOnce_fuel f).
Proof.
  induction f as [|f IHf]; intros x; [left; reflexivity|].
  destruct x as [v|n|op l r|l r]; try (left; reflexivity).
  - rewrite simplifyOnce_fuel_bin.
    set (l' := simplifyOnce_fuel f l). set (r' := simplifyOnce_fuel f r).
    pose proof (shrinks_le _ IHf l) as Hl. pose proof (shrinks_le _ IHf r) as Hr.
    fold l' in Hl. fold r' in Hr.
    destruct (simplifyNode_measure (simplifyOnce_fuel f) op l' r' IHf) as [Heq|Hlt].
    + rewrite Heq.
      destruct (IHf l) as [El|El], (IHf r) as [Er|Er]; fold l' in El; fold r' in Er.
      * left. rewrite El, Er. reflexivity.
      * right. apply bin_lt; lia.
      * right. apply bin_lt; lia.
      * right. apply bin_lt; lia.
    + right. pose proof (bin_le op l l' r r' Hl Hr). lia.
  - rewrite simplifyOnce_fuel_eqn.
    destruct (IHf l) as [El|El], (IHf r) as [Er|Er].
    + left. rewrite El, Er. reflexivity.
    + right. rewrite !measure_eq. rewrite El. lia.
    + right. rewrite !measure_eq. rewrite Er. lia.
    + right. rewrite !measure_eq. lia.
Qed.

Lemma simplifyOnce_shrinks : shrinks (num:=num) simplifyOnce.
Proof. intros x. apply (simplifyOnce_fuel_shrinks (measure x) x). Qed.

(** The recursive calls of [rule_distribute] are made on trees lighter than
    the node by at least two. *)
Lemma simplifyNode_ext (so1 so2 : Expr num -> Expr num) op a b :
  (forall t, measure t + 2 <= measure (BinaryExpression op a b) -> so1 t = so2 t) ->
  simplifyNode so1 op a b = simplifyNode so2 op a b.
Proof.
  intros Hext. unfold simplifyNode.
  assert (Hd : rule_distribute so1 op a b = rule_distribute so2 op a b).
  { unfold rule_distribute.
    destruct op, a, b; try reflexivity;
    match goal with
    | |- (if additive ?o then _ else _) = _ =>
        destruct (additive o) eqn:Ho; [|reflexivity]
    end;
    rewrite !Hext; try reflexivity;
    rewrite ?measure_bin, ?measure_leaf, ?measure_var, ?measure_eq, ?Ho;
    simpl additive; cbv iota;
    repeat match goal with
    | |- context [if additive ?o then _ else _] => destruct (additive o)
    end; measure_facts; nia. }
  rewrite Hd. reflexivity.
Qed.

Lemma simplifyOnce_fuel_leaf f (e : Expr num) :
  measure e <= 2 -> simplifyOnce_fuel f e = e.
Proof.
  intros Hm. destruct f; [reflexivity|].
  destruct e as [v|n|op l r|l r]; try reflexivity.
  - pose proof (bin_child_l op l r). pose proof (measure_pos l). lia.
  - rewrite measure_eq in Hm. pose proof (measure_pos l). lia.
Qed.

(** The budget does not matter once it covers the weight: [simplifyOnce]'s
    budget [measure e] is never exhausted, and [simplifyOnce_fuel] computes
    the unbounded recursion of the source. *)
Lemma simplifyOnce_fuel_stable f : forall g (e : Expr num),
  measure e <= f + 2 -> measure e <= g + 2 ->
  simplifyOnce_fuel f e = simplifyOnce_fuel g e.
Proof.
  induction f as [|f IHf]; intros g e Hf Hg.
  { transitivity e; [|symmetry]; apply simplifyOnce_fuel_leaf; lia. }
  destruct g as [|g].
  { transitivity e; [|symmetry]; apply simplifyOnce_fuel_leaf; lia. }
  destruct e as [v|n|op l r|l r]; try reflexivity.
  - rewrite !simplifyOnce_fuel_bin.
    pose proof (bin_child_l op l r). pose proof (bin_child_r op l r).
    rewrite (IHf g l), (IHf g r) by lia.
    apply simplifyNode_ext. intros t Ht.
    pose proof (bin_le op l (simplifyOnce_fuel g l) r (simplifyOnce_fuel g r)
                  (shrinks_le _ (simplifyOnce_fuel_shrinks g) l)
                  (shrinks_le _ (simplifyOnce_fuel_shrinks g) r)).
    apply IHf; lia.
  - rewrite !simplifyOnce_fuel_eqn. rewrite measure_eq in Hf, Hg.
    pose proof (measure_pos l). pose proof (measure_pos r).
    rewrite (IHf g l), (IHf g r) by lia. reflexivity.
Qed.

Lemma simplify_iter_some n (c : Expr num) :
  measure c <= n + 1 -> simplify_iter n c <> None.
Proof.
  revert c. induction n as [|n IHn]; intros c Hc.
  { pose proof (measure_pos c). lia. }
  simpl. destruct (String.eqb _ _) eqn:E; [discriminate|].
  apply IHn. destruct (simplifyOnce_shrinks c) as [Ht|Ht].
  - rewrite Ht in E. rewrite String.eqb_refl in E. discriminate.
  - lia.
Qed.

(** The fixed-point loop of [simplify] ends within its [measure e + 1]
    passes. *)
Lemma simplify_terminates (e : Expr num) :
  simplify_iter (S (measure e)) e = Some (simplify e).
Proof.
  unfold simplify. destruct (simplify_iter (S (measure e)) e) eqn:E; [reflexivity|].
  exfalso. exact (simplify_iter_some (S (measure e)) e ltac:(lia) E).
Qed.

End Termination.

(** ** Printed text, pieces and weights *)

Section Printing.
Context {num : Type} `{JSNum num}.

Lemma render_app (a b : list ptok) : render (a ++ b) = render a ++ render b.
Proof.
  induction a as [|t a IH]; [reflexivity|].
  destruct t; simpl; rewrite IH; rewrite ?str_app_assoc; reflexivity.
Qed.

Lemma render_tparen ts : render (tparen ts) = paren (render ts).
Proof.
  unfold tparen, paren. simpl. rewrite render_app. simpl. rewrite ?str_app_nil_r.
  reflexivity.
Qed.

Lemma render_if (b : bool) ts :
  render (if b then tparen ts else ts) = if b then paren (render ts) else render ts.
Proof. destruct b; [apply render_tparen | reflexivity]. Qed.

Lemma print_render (e : Expr num) : exprToString e = render (ptoks e).
Proof.
  induction e as [v|n|op l IHl r IHr|l IHl r IHr].
  - simpl. destruct (js_ltb v (js_of_Z 0)).
    + rewrite render_tparen. simpl. rewrite ?str_app_nil_r. reflexivity.
    + simpl. rewrite ?str_app_nil_r. reflexivity.
  - simpl. rewrite ?str_app_nil_r. reflexivity.
  - cbn [exprToString ptoks]. rewrite render_app. cbn [render].
    f_equal.
    + destruct l; try exact IHl. rewrite render_if, IHl. reflexivity.
    + rewrite <- !str_app_assoc. f_equal. f_equal.
      destruct r; try exact IHr. rewrite !render_if, IHr. reflexivity.
  - cbn [exprToString ptoks]. rewrite render_app, IHl, IHr. reflexivity.
Qed.
End Printing.
Lemma lex_atom (a t : string) :
  atom_chars_ok a = true -> a <> EmptyString -> not_atom_head (lex t) = true ->
  lex (a ++ t) = PAtom a :: lex t.
Proof.
  induction a as [|c a IH]; intros Ha Hne Ht; [congruence|].
  simpl in Ha. apply andb_prop in Ha as [Hc Ha].
  unfold is_sep in Hc. apply negb_true_iff in Hc.
  apply orb_false_iff in Hc as [Hc Hc3]. apply orb_false_iff in Hc as [Hc1 Hc2].
  cbn [append lex]. rewrite Hc2, Hc3, Hc1.
  destruct a as [|c' a'].
  - simpl. destruct (lex t) as [|[] ?]; simpl in Ht; try discriminate; reflexivity.
  - rewrite IH by (assumption || discriminate). reflexivity.
Qed.

Lemma lex_render (ts : list ptok) : good_toks ts = true -> lex (render ts) = ts.
Proof.
  induction ts as [|t ts IH]; intros Hg; [reflexivity|].
  destruct t as [a|o| | |]; simpl in Hg.
  - apply andb_prop in Hg as [Hg Hts]. apply andb_prop in Hg as [Ha Hh].
    cbn [render]. rewrite lex_atom.
    + rewrite IH; auto.
    + destruct a; [discriminate|exact Ha].
    + destruct a; discriminate.
    + rewrite IH; auto.
  - destruct o; simpl; rewrite IH; auto.
  - simpl. rewrite IH; auto.
  - simpl. rewrite IH; auto.
  - simpl. rewrite IH; auto.
Qed.

Lemma render_inj (a b : list ptok) :
  good_toks a = true -> good_toks b = true -> render a = render b -> a = b.
Proof.
  intros Ha Hb E. rewrite <- (lex_render a Ha), <- (lex_render b Hb), E. reflexivity.
Qed.

Lemma good_toks_app (a b : list ptok) :
  good_toks a = true -> good_toks b = true -> not_atom_head b = true ->
  good_toks (a ++ b) = true.
Proof.
  induction a as [|t a IH]; intros Ha Hb Hh; [exact Hb|].
  destruct t; simpl in *; try (apply IH; assumption).
  apply andb_prop in Ha as [Ha Ht]. apply andb_prop in Ha as [Ha Hn].
  rewrite Ha, IH by assumption. simpl.
  destruct a as [|t' a']; simpl; [rewrite Hh; reflexivity|].
  destruct t'; try reflexivity; discriminate.
Qed.

Lemma good_toks_tparen ts : good_toks ts = true -> good_toks (tparen ts) = true.
Proof. intros. simpl. apply good_toks_app; auto. Qed.

Lemma good_toks_if (b : bool) ts :
  good_toks ts = true -> good_toks (if b then tparen ts else ts) = true.
Proof. destruct b; auto using good_toks_tparen. Qed.
Lemma mprim_atom n s ts : mprim n (PAtom s :: ts) = Some (2, ts).
Proof. destruct n; reflexivity. Qed.

Lemma mprim_LP n ts :
  mprim (S n) (PLP :: ts) =
  match mprim n ts with
  | Some (m1, r1) =>
      match mloop n m1 r1 with
      | Some (m2, r2) =>
          match sloop n m2 r2 with
          | Some (m3, PRP :: r3) => Some (m3, r3)
          | _ => None
          end
      | None => None
      end
  | None => None
  end.
Proof. reflexivity. Qed.

Lemma mprim_other n t ts :
  match t with PAtom _ | PLP => False | _ => True end -> mprim n (t :: ts) = None.
Proof. destruct n, t; simpl; tauto. Qed.

Lemma mprim_nil n : mprim n [] = None.
Proof. destruct n; reflexivity. Qed.

Lemma mloop_op n acc o ts :
  multiplicative o = true ->
  mloop (S n) acc (POp o :: ts) =
  match mprim n ts with Some (m, r) => mloop n (acc * m) r | None => None end.
Proof. intros Ho. simpl. rewrite Ho. reflexivity. Qed.

Lemma mloop_stop n acc ts : stop_mul ts = true -> mloop n acc ts = Some (acc, ts).
Proof.
  intros Hs. destruct n, ts as [|[] ts]; simpl in *; try reflexivity;
  unfold multiplicative; rewrite Hs; reflexivity.
Qed.

Lemma sloop_op n acc t ts :
  stop_sum (t :: ts) = false ->
  sloop (S n) acc (t :: ts) =
  match mprim n ts with
  | Some (m1, r1) =>
      match mloop n m1 r1 with
      | Some (m2, r2) => sloop n (acc + m2 + 1) r2
      | None => None
      end
  | None => None
  end.
Proof.
  intros Hs. destruct t; simpl in Hs; try discriminate; simpl; [|reflexivity].
  unfold multiplicative in Hs. destruct (additive o); [reflexivity|discriminate].
Qed.

Lemma sloop_stop n acc ts : stop_sum ts = true -> sloop n acc ts = Some (acc, ts).
Proof.
  intros Hs. destruct n, ts as [|[] ts]; simpl in *; try reflexivity; try discriminate;
  unfold multiplicative in Hs; destruct (additive o); try discriminate; reflexivity.
Qed.

Ltac fin_some :=
  match goal with
  | E : _ = Some _ |- _ => first [discriminate E | injection E as <- <-; simpl; lia]
  end.

Lemma parse_rem_length n :
  (forall ts m r, mprim n ts = Some (m, r) -> length r < length ts) /\
  (forall acc ts m r, mloop n acc ts = Some (m, r) -> length r <= length ts) /\
  (forall acc ts m r, sloop n acc ts = Some (m, r) -> length r <= length ts).
Proof.
  induction n as [|n IH]; repeat split.
  - intros ts m r E. destruct ts as [|[] ts]; simpl in E; fin_some.
  - intros acc ts m r E. destruct ts as [|[] ts]; simpl in E;
      try destruct (multiplicative o); fin_some.
  - intros acc ts m r E. destruct ts as [|[] ts]; simpl in E;
      try destruct (additive o); fin_some.
  - destruct IH as (Hp & Hm & Hs).
    intros ts m r E. destruct ts as [|[] ts];
      try (rewrite mprim_nil in E; discriminate);
      try (rewrite mprim_other in E by exact I; discriminate).
    + rewrite mprim_atom in E. fin_some.
    + rewrite mprim_LP in E.
      destruct (mprim n ts) as [[m1 r1]|] eqn:E1; try discriminate.
      destruct (mloop n m1 r1) as [[m2 r2]|] eqn:E2; try discriminate.
      destruct (sloop n m2 r2) as [[m3 [|[] r3]]|] eqn:E3; try discriminate.
      injection E as <- <-. apply Hp in E1. apply Hm in E2. apply Hs in E3.
      simpl in *. lia.
  - destruct IH as (Hp & Hm & Hs).
    intros acc ts m r E. destruct (stop_mul ts) eqn:Hst.
    { rewrite mloop_stop in E by exact Hst. fin_some. }
    destruct ts as [|[] ts]; simpl in Hst; try discriminate.
    rewrite mloop_op in E by (unfold multiplicative; rewrite Hst; reflexivity).
    destruct (mprim n ts) as [[m1 r1]|] eqn:E1; try discriminate.
    apply Hp in E1. apply Hm in E. simpl. lia.
  - destruct IH as (Hp & Hm & Hs).
    intros acc ts m r E. destruct (stop_sum ts) eqn:Hst.
    { rewrite sloop_stop in E by exact Hst. fin_some. }
    destruct ts as [|t ts]; [discriminate|].
    rewrite sloop_op in E by exact Hst.
    destruct (mprim n ts) as [[m1 r1]|] eqn:E1; try discriminate.
    destruct (mloop n m1 r1) as [[m2 r2]|] eqn:E2; try discriminate.
    apply Hp in E1. apply Hm in E2. apply Hs in E. simpl. lia.
Qed.

Lemma parse_fuel_step n :
  (forall ts, length ts <= n -> mprim n ts = mprim (S n) ts) /\
  (forall acc ts, length ts <= n -> mloop n acc ts = mloop (S n) acc ts) /\
  (forall acc ts, length ts <= n -> sloop n acc ts = sloop (S n) acc ts).
Proof.
  induction n as [|n IH]; repeat split.
  - intros ts Hl. destruct ts; [reflexivity|simpl in Hl; lia].
  - intros acc ts Hl. destruct ts; [reflexivity|simpl in Hl; lia].
  - intros acc ts Hl. destruct ts; [reflexivity|simpl in Hl; lia].
  - destruct IH as (Hp & Hm & Hs).
    intros ts Hl. destruct ts as [|[] ts];
      try (rewrite !mprim_nil; reflexivity);
      try (rewrite !mprim_other by exact I; reflexivity);
      try (rewrite !mprim_atom; reflexivity).
    simpl in Hl. rewrite !mprim_LP. rewrite <- Hp by lia.
    destruct (mprim n ts) as [[m1 r1]|] eqn:E1; try reflexivity.
    pose proof (proj1 (parse_rem_length n) _ _ _ E1).
    rewrite <- Hm by lia.
    destruct (mloop n m1 r1) as [[m2 r2]|] eqn:E2; try reflexivity.
    pose proof (proj1 (proj2 (parse_rem_length n)) _ _ _ _ E2).
    rewrite <- Hs by lia. reflexivity.
  - destruct IH as (Hp & Hm & Hs).
    intros acc ts Hl. destruct (stop_mul ts) eqn:Hst.
    { rewrite !mloop_stop by exact Hst. reflexivity. }
    destruct ts as [|[] ts]; simpl in Hst; try discriminate. simpl in Hl.
    assert (Ho : multiplicative o = true) by (unfold multiplicative; rewrite Hst; reflexivity).
    rewrite !mloop_op by exact Ho. rewrite <- Hp by lia.
    destruct (mprim n ts) as [[m1 r1]|] eqn:E1; try reflexivity.
    pose proof (proj1 (parse_rem_length n) _ _ _ E1).
    apply Hm. lia.
  - destruct IH as (Hp & Hm & Hs).
    intros acc ts Hl. destruct (stop_sum ts) eqn:Hst.
    { rewrite !sloop_stop by exact Hst. reflexivity. }
    destruct ts as [|t ts]; [discriminate|]. simpl in Hl.
    rewrite !sloop_op by exact Hst. rewrite <- Hp by lia.
    destruct (mprim n ts) as [[m1 r1]|] eqn:E1; try reflexivity.
    pose proof (proj1 (parse_rem_length n) _ _ _ E1).
    rewrite <- Hm by lia.
    destruct (mloop n m1 r1) as [[m2 r2]|] eqn:E2; try reflexivity.
    pose proof (proj1 (proj2 (parse_rem_length n)) _ _ _ _ E2).
    apply Hs. lia.
Qed.

Lemma parse_fuel_plus k : forall n,
  (forall ts, length ts <= n -> mprim n ts = mprim (k + n) ts) /\
  (forall acc ts, length ts <= n -> mloop n acc ts = mloop (k + n) acc ts) /\
  (forall acc ts, length ts <= n -> sloop n acc ts = sloop (k + n) acc ts).
Proof.
  induction k as [|k IH]; intros n; [repeat split; reflexivity|].
  destruct (IH n) as (Hp & Hm & Hs).
  destruct (parse_fuel_step (k + n)) as (Hp' & Hm' & Hs').
  repeat split; intros.
  - rewrite Hp by lia. apply Hp'. lia.
  - rewrite Hm by lia. apply Hm'. lia.
  - rewrite Hs by lia. apply Hs'. lia.
Qed.

Lemma mprim_fuel n n' ts :
  length ts <= n -> length ts <= n' -> mprim n ts = mprim n' ts.
Proof.
  intros H1 H2. destruct (Nat.le_ge_cases n n') as [Hle|Hle].
  - replace n' with ((n' - n) + n) by lia. apply (parse_fuel_plus _ n). lia.
  - replace n with ((n - n') + n') by lia. symmetry. apply (parse_fuel_plus _ n'). lia.
Qed.

Lemma mloop_fuel n n' acc ts :
  length ts <= n -> length ts <= n' -> mloop n acc ts = mloop n' acc ts.
Proof.
  intros H1 H2. destruct (Nat.le_ge_cases n n') as [Hle|Hle].
  - replace n' with ((n' - n) + n) by lia. apply (parse_fuel_plus _ n). lia.
  - replace n with ((n - n') + n') by lia. symmetry. apply (parse_fuel_plus _ n'). lia.
Qed.

Lemma sloop_fuel n n' acc ts :
  length ts <= n -> length ts <= n' -> sloop n acc ts = sloop n' acc ts.
Proof.
  intros H1 H2. destruct (Nat.le_ge_cases n n') as [Hle|Hle].
  - replace n' with ((n' - n) + n) by lia. apply (parse_fuel_plus _ n). lia.
  - replace n with ((n - n') + n') by lia. symmetry. apply (parse_fuel_plus _ n'). lia.
Qed.

Lemma mprim_LP_psum n ts :
  mprim (S n) (PLP :: ts) =
  match psum n ts with Some (m3, PRP :: r3) => Some (m3, r3) | _ => None end.
Proof.
  rewrite mprim_LP. unfold psum, mterm.
  destruct (mprim n ts) as [[m1 r1]|]; [|reflexivity].
  destruct (mloop n m1 r1) as [[m2 r2]|]; reflexivity.
Qed.

Lemma mterm_mloop' n ts : mterm n ts = mloop' n 1 ts.
Proof.
  unfold mterm, mloop'. destruct (mprim n ts) as [[m r]|]; [|reflexivity].
  rewrite Nat.mul_1_l. reflexivity.
Qed.

Lemma factor_core ts m : reads_sum ts m ->
  forall n rest, length (tparen ts ++ rest) <= n ->
  mprim n (tparen ts ++ rest) = Some (m, rest).
Proof.
  intros Hs n rest Hl.
  replace (tparen ts ++ rest)%list with (PLP :: ts ++ PRP :: rest)%list in *
    by (unfold tparen; simpl; rewrite <- app_assoc; reflexivity).
  simpl in Hl. destruct n as [|n]; [lia|].
  rewrite mprim_LP_psum. rewrite Hs; [| rewrite length_app in *; simpl in *; lia | reflexivity].
  rewrite sloop_stop by reflexivity. reflexivity.
Qed.

Lemma reads_prod_of_factor ts m : reads_sum ts m -> reads_prod (tparen ts) m.
Proof.
  intros Hs n acc rest Hl. unfold mloop'. rewrite (factor_core ts m Hs n rest Hl).
  reflexivity.
Qed.

Lemma reads_term_of_prod ts m : reads_prod ts m -> reads_term ts m.
Proof.
  intros Hp n acc rest Hl Hst. unfold sloop'. rewrite mterm_mloop', Hp by exact Hl.
  rewrite mloop_stop by exact Hst. rewrite Nat.mul_1_l. reflexivity.
Qed.

Lemma reads_sum_of_prod ts m : reads_prod ts m -> reads_sum ts m.
Proof.
  intros Hp n rest Hl Hst. unfold psum. rewrite mterm_mloop', Hp by exact Hl.
  rewrite mloop_stop by exact Hst. rewrite Nat.mul_1_l. reflexivity.
Qed.

Lemma reads_atom s : reads_prod [PAtom s] 2.
Proof. intros n acc rest Hl. unfold mloop'. simpl. rewrite mprim_atom. reflexivity. Qed.

Lemma sloop_op' n acc t ts :
  stop_sum (t :: ts) = false -> sloop (S n) acc (t :: ts) = sloop' n acc ts.
Proof.
  intros Hs. rewrite sloop_op by exact Hs. unfold sloop', mterm.
  destruct (mprim n ts) as [[m1 r1]|]; reflexivity.
Qed.

Ltac len_solve :=
  repeat (rewrite ?length_app in *; simpl length in *); lia.

Lemma reads_add lt rt ml mr op : additive op = true ->
  reads_term lt ml -> reads_sum lt ml -> reads_term rt mr ->
  reads_term (lt ++ POp op :: rt) (ml + mr + 1) /\
  reads_sum (lt ++ POp op :: rt) (ml + mr + 1).
Proof.
  intros Ho Htl Hsl Htr.
  assert (Hso : forall r, stop_mul (POp op :: r) = true) by (intros; exact Ho).
  assert (Hss : forall r, stop_sum (POp op :: r) = false)
    by (intros; simpl; unfold multiplicative; rewrite Ho; reflexivity).
  assert (Hstep : forall n a rest, length (POp op :: rt ++ rest) <= n ->
            stop_mul rest = true ->
            sloop n a (POp op :: rt ++ rest) = sloop n (a + mr + 1) rest).
  { intros n a rest Hl Hst. destruct n as [|n]; [len_solve|].
    rewrite sloop_op' by apply Hss.
    rewrite Htr by (exact Hst || len_solve).
    apply sloop_fuel; len_solve. }
  split.
  - intros n acc rest Hl Hst. rewrite <- app_assoc. simpl.
    rewrite Htl by (apply Hso || len_solve).
    rewrite Hstep by (exact Hst || len_solve).
    f_equal. lia.
  - intros n rest Hl Hst. rewrite <- app_assoc. simpl.
    rewrite Hsl by (apply Hso || len_solve).
    rewrite Hstep by (exact Hst || len_solve). reflexivity.
Qed.

Lemma reads_mul lt rt ml mr op : multiplicative op = true ->
  reads_prod lt ml -> reads_prod rt mr -> reads_prod (lt ++ POp op :: rt) (ml * mr).
Proof.
  intros Ho Hpl Hpr n acc rest Hl. rewrite <- app_assoc. simpl.
  rewrite Hpl by len_solve.
  destruct n as [|n]; [len_solve|].
  rewrite mloop_op by exact Ho.
  change (mloop' n (acc * ml) (rt ++ rest) = mloop (S n) (acc * (ml * mr)) rest).
  rewrite Hpr by len_solve. rewrite Nat.mul_assoc. apply mloop_fuel; len_solve.
Qed.

Section Reading.
Context {num : Type} `{JSNum num}.

Lemma ptoks_bin op (l r : Expr num) :
  ptoks (BinaryExpression op l r) =
  (ptoks_left op l (ptoks l) ++ POp op :: ptoks_right op r (ptoks r))%list.
Proof. reflexivity. Qed.

Lemma left_mult op (l : Expr num) : multiplicative op = true -> noEq l = true ->
  (prod_shaped l = true -> reads_prod (ptoks l) (measure l)) ->
  reads_sum (ptoks l) (measure l) ->
  reads_prod (ptoks_left op l (ptoks l)) (measure l).
Proof.
  intros Ho Hn Hp Hs. destruct l as [v|x|lop ll lr|ll lr]; try (apply Hp; reflexivity).
  - unfold ptoks_left. rewrite Ho, andb_true_r. destruct (additive lop) eqn:Hl.
    + apply reads_prod_of_factor, Hs.
    + apply Hp. simpl. unfold multiplicative. rewrite Hl. reflexivity.
  - discriminate Hn.
Qed.

Lemma left_add op (l : Expr num) lt : additive op = true -> ptoks_left op l lt = lt.
Proof.
  intros Ho. destruct l; try reflexivity. unfold ptoks_left, multiplicative.
  rewrite Ho, andb_false_r. reflexivity.
Qed.

Lemma right_mult op (r : Expr num) : multiplicative op = true -> noEq r = true ->
  (prod_shaped r = true -> reads_prod (ptoks r) (measure r)) ->
  reads_sum (ptoks r) (measure r) ->
  reads_prod (ptoks_right op r (ptoks r)) (measure r).
Proof.
  intros Ho Hn Hp Hs. destruct r as [v|x|rop rl rr|rl rr]; try (apply Hp; reflexivity).
  - destruct op; try discriminate Ho; destruct rop; unfold ptoks_right; simpl;
      first [apply reads_prod_of_factor, Hs | apply Hp; reflexivity].
  - discriminate Hn.
Qed.

Lemma right_add op (r : Expr num) : additive op = true -> noEq r = true ->
  (prod_shaped r = true -> reads_prod (ptoks r) (measure r)) ->
  reads_term (ptoks r) (measure r) ->
  reads_sum (ptoks r) (measure r) ->
  reads_term (ptoks_right op r (ptoks r)) (measure r).
Proof.
  intros Ho Hn Hp Ht Hs. destruct r as [v|x|rop rl rr|rl rr]; try exact Ht.
  - destruct op; try discriminate Ho; destruct rop; unfold ptoks_right; simpl;
      first [apply reads_term_of_prod, reads_prod_of_factor, Hs | exact Ht].
Qed.

Lemma read_ptoks (e : Expr num) : noEq e = true ->
  (prod_shaped e = true -> reads_prod (ptoks e) (measure e)) /\
  reads_term (ptoks e) (measure e) /\ reads_sum (ptoks e) (measure e).
Proof.
  induction e as [v|x|op l IHl r IHr|l IHl r IHr]; intros Hn.
  - assert (Hp : reads_prod (ptoks (NumberLiteral v)) 2).
    { simpl. destruct (js_ltb v (js_of_Z 0)).
      - apply reads_prod_of_factor, reads_sum_of_prod, reads_atom.
      - apply reads_atom. }
    split; [intros; exact Hp|].
    split; [apply reads_term_of_prod, Hp | apply reads_sum_of_prod, Hp].
  - split; [intros; apply reads_atom|].
    split; [apply reads_term_of_prod, reads_atom | apply reads_sum_of_prod, reads_atom].
  - simpl in Hn. apply andb_prop in Hn as [Hnl Hnr].
    destruct (IHl Hnl) as (Hpl & Htl & Hsl). destruct (IHr Hnr) as (Hpr & Htr & Hsr).
    rewrite ptoks_bin. simpl measure. destruct (additive op) eqn:Ho.
    + rewrite left_add by exact Ho.
      destruct (reads_add (ptoks l) (ptoks_right op r (ptoks r)) (measure l) (measure r) op
                  Ho Htl Hsl (right_add op r Ho Hnr Hpr Htr Hsr)) as [Ht Hs].
      split; [simpl; unfold multiplicative; rewrite Ho; discriminate|].
      split; assumption.
    + assert (Hm : multiplicative op = true) by (unfold multiplicative; rewrite Ho; reflexivity).
      assert (Hp := reads_mul _ _ _ _ op Hm (left_mult op l Hm Hnl Hpl Hsl)
                      (right_mult op r Hm Hnr Hpr Hsr)).
      split; [intros; exact Hp|].
      split; [apply reads_term_of_prod, Hp | apply reads_sum_of_prod, Hp].
  - discriminate Hn.
Qed.
End Reading.

Section ReadBack.
Context {num : Type} `{JSNum num}.

(** The printed literals are good atoms. *)
Hypothesis toString_good : forall v : num, good_atom (js_toString v) = true.

Lemma good_toks_right op (r : Expr num) rt :
  good_toks rt = true -> good_toks (ptoks_right op r rt) = true.
Proof.
  intros Hg. destruct r; try exact Hg. unfold ptoks_right. cbv zeta.
  repeat apply good_toks_if. exact Hg.
Qed.

Lemma good_toks_left op (l : Expr num) lt :
  good_toks lt = true -> good_toks (ptoks_left op l lt) = true.
Proof.
  intros Hg. destruct l; try exact Hg. unfold ptoks_left. apply good_toks_if. exact Hg.
Qed.

Lemma good_toks_ptoks (e : Expr num) : names_ok e = true -> good_toks (ptoks e) = true.
Proof.
  induction e as [v|x|op l IHl r IHr|l IHl r IHr]; intros Hn.
  - simpl. pose proof (toString_good v) as Hv.
    destruct (js_ltb v (js_of_Z 0)); simpl; rewrite Hv; reflexivity.
  - simpl in *. rewrite Hn. reflexivity.
  - simpl in Hn. apply andb_prop in Hn as [Hl Hr]. rewrite ptoks_bin.
    apply good_toks_app; [apply good_toks_left, IHl, Hl| |reflexivity].
    simpl. apply good_toks_right, IHr, Hr.
  - simpl in Hn. apply andb_prop in Hn as [Hl Hr]. simpl.
    apply good_toks_app; [apply IHl, Hl| |reflexivity]. simpl. apply IHr, Hr.
Qed.

Lemma mparse_ptoks (e : Expr num) :
  (noEq e || rootEq e) = true -> mparse (ptoks e) = Some (measure e).
Proof.
  intros He. unfold mparse. apply orb_prop in He as [He|He].
  - destruct (read_ptoks e He) as (_ & _ & Hs).
    pose proof (Hs (length (ptoks e)) [] ltac:(rewrite app_nil_r; lia) eq_refl) as E.
    rewrite app_nil_r in E. rewrite E, sloop_stop by reflexivity. reflexivity.
  - destruct e as [| | |l r]; try discriminate He. simpl in He.
    apply andb_prop in He as [Hl Hr].
    destruct (read_ptoks l Hl) as (_ & _ & Hsl). destruct (read_ptoks r Hr) as (_ & Htr & _).
    simpl ptoks. set (n := length (ptoks l ++ PEq :: ptoks r)).
    rewrite Hsl by (reflexivity || (subst n; lia)).
    assert (Hn : n = S (length (ptoks l) + length (ptoks r)))
      by (subst n; rewrite length_app; simpl; lia).
    rewrite Hn. rewrite sloop_op' by reflexivity.
    pose proof (Htr (length (ptoks l) + length (ptoks r)) (measure l) []
                  ltac:(rewrite app_nil_r; lia) eq_refl) as E.
    rewrite app_nil_r in E. rewrite E, sloop_stop by reflexivity. reflexivity.
Qed.

(** The printed text of a tree with its equation at most at the root and
    good variable names determines its weight. *)
Lemma print_measure (x y : Expr num) :
  names_ok x = true -> names_ok y = true ->
  (noEq x || rootEq x) = true -> (noEq y || rootEq y) = true ->
  exprToString x = exprToString y -> measure x = measure y.
Proof.
  intros Hnx Hny Hx Hy E. rewrite !print_render in E.
  apply render_inj in E; try (apply good_toks_ptoks; assumption).
  pose proof (mparse_ptoks x Hx) as Ex. pose proof (mparse_ptoks y Hy) as Ey.
  rewrite E in Ex. rewrite Ex in Ey. injection Ey as Ey. exact Ey.
Qed.

End ReadBack.


(** ** The binary64 printer emits atoms *)

Lemma atom_chars_ok_app a b :
  atom_chars_ok (a ++ b) = atom_chars_ok a && atom_chars_ok b.
Proof.
  induction a as [|c a IH]; [reflexivity|]. simpl. rewrite IH. apply andb_assoc.
Qed.

Lemma good_atom_app_l a b :
  good_atom a = true -> atom_chars_ok b = true -> good_atom (a ++ b) = true.
Proof.
  destruct a as [|c a]; [discriminate|]. intros Ha Hb.
  change (atom_chars_ok (String c a ++ b) = true).
  rewrite atom_chars_ok_app, Hb, andb_true_r. exact Ha.
Qed.

Lemma good_atom_app_r a b :
  atom_chars_ok a = true -> good_atom b = true -> good_atom (a ++ b) = true.
Proof.
  destruct a as [|c a]; intros Ha Hb; [exact Hb|].
  destruct b as [|c' b]; [discriminate|].
  change (atom_chars_ok (String c a ++ String c' b) = true).
  rewrite atom_chars_ok_app, Ha. exact Hb.
Qed.

Lemma atom_chars_ok_substring i j s :
  atom_chars_ok s = true -> atom_chars_ok (substring i j s) = true.
Proof.
  revert i j. induction s as [|c s IH]; intros i j Hs.
  - destruct i, j; reflexivity.
  - simpl in Hs. apply andb_prop in Hs as [Hc Hs].
    destruct i as [|i].
    + destruct j as [|j]; [reflexivity|]. simpl. rewrite Hc. apply IH, Hs.
    + simpl. apply IH, Hs.
Qed.

Lemma digit_char_ok k : k < 10 -> is_sep (ascii_of_nat (48 + k)) = false.
Proof. intros Hk. do 10 (destruct k as [|k]; [reflexivity|]). lia. Qed.

Lemma digits_fuel_ok f z acc :
  atom_chars_ok acc = true -> good_atom (JSFloat.digits_fuel (S f) z acc) = true.
Proof.
  revert z acc. induction f as [|f IH]; intros z acc Hacc;
    cbn [JSFloat.digits_fuel];
    assert (Hd : is_sep (ascii_of_nat (48 + Z.to_nat (z mod 10))) = false)
      by (apply digit_char_ok;
          assert (0 <= z mod 10 < 10)%Z by (apply Z.mod_pos_bound; lia); lia);
    set (c := ascii_of_nat (48 + Z.to_nat (z mod 10))) in *;
    assert (Hc : atom_chars_ok (String c acc) = true)
      by (cbn [atom_chars_ok]; rewrite Hd, Hacc; reflexivity).
  - destruct (z / 10 =? 0)%Z; exact Hc.
  - destruct (z / 10 =? 0)%Z; [exact Hc | apply IH, Hc].
Qed.

Lemma string_of_nonneg_ok z : good_atom (JSFloat.string_of_nonneg z) = true.
Proof. apply digits_fuel_ok. reflexivity. Qed.

Lemma good_atom_chars s : good_atom s = true -> atom_chars_ok s = true.
Proof. destruct s; [discriminate|exact (fun H => H)]. Qed.

Lemma zeros_ok n : atom_chars_ok (JSFloat.zeros n) = true.
Proof. induction n; simpl; auto. Qed.

Lemma format_ok s k n : good_atom (JSFloat.format s k n) = true.
Proof.
  pose proof (string_of_nonneg_ok s) as Hd.
  pose proof (good_atom_chars _ Hd) as Hc.
  unfold JSFloat.format.
  destruct ((k <=? n)%Z && (n <=? 21)%Z).
  { apply good_atom_app_l; [exact Hd | apply zeros_ok]. }
  destruct ((0 <? n)%Z && (n <=? 21)%Z).
  { apply good_atom_app_r; [apply atom_chars_ok_substring, Hc|].
    simpl. apply atom_chars_ok_substring, Hc. }
  destruct ((-6 <? n)%Z && (n <=? 0)%Z).
  { simpl. rewrite atom_chars_ok_app, zeros_ok. apply Hc. }
  assert (He : forall b : bool, atom_chars_ok ((if b then "+" else "-") ++
                 JSFloat.string_of_nonneg (Z.abs (n - 1)%Z)) = true).
  { intros b. rewrite atom_chars_ok_app.
    rewrite (good_atom_chars _ (string_of_nonneg_ok _)), andb_true_r. destruct b; reflexivity. }
  destruct (k =? 1)%Z.
  - apply good_atom_app_l; [exact Hd|]. simpl. apply He.
  - apply good_atom_app_r; [apply atom_chars_ok_substring, Hc|].
    simpl. rewrite atom_chars_ok_app, atom_chars_ok_substring by exact Hc.
    simpl. apply He.
Qed.

Lemma float_toString_good (x : float) : good_atom (JSFloat.toString x) = true.
Proof.
  unfold JSFloat.toString.
  destruct (Prim2SF x) as [[]|[]| |[] m e]; try reflexivity.
  - unfold JSFloat.toString_pos. destruct (JSFloat.shortest _ _ _ _ _) as [[s k] n].
    simpl. apply good_atom_chars, format_ok.
  - unfold JSFloat.toString_pos. destruct (JSFloat.shortest _ _ _ _ _) as [[s k] n].
    apply format_ok.
Qed.

Section Names.
Context {num : Type} `{JSNum num}.

Ltac destr_hyps_n :=
  repeat match goal with
  | Hs : Some _ = Some _ |- _ => injection Hs as Hs; subst
  | Hs : None = Some _ |- _ => discriminate Hs
  | Hs : context [match ?x with _ => _ end] |- _ => destruct x eqn:?
  end.

Ltac names_solve :=
  unfold coeff_term, reassoc_term, lit in *;
  repeat match goal with
  | |- context [if ?x then _ else _] => destruct x eqn:?
  end; simpl in *;
  repeat rewrite andb_true_iff in *; intuition.

Lemma simplifyNode_names (so : Expr num -> Expr num) op l r :
  (forall x, names_ok x = true -> names_ok (so x) = true) ->
  names_ok l = true -> names_ok r = true -> names_ok (simplifyNode so op l r) = true.
Proof.
  intros Hso Hl Hr. unfold simplifyNode.
  destruct (rule_fold op l r) as [x|] eqn:E1.
  { unfold rule_fold in E1. destr_hyps_n. reflexivity. }
  destruct (rule_identity op l r) as [x|] eqn:E2.
  { unfold rule_identity in E2. destr_hyps_n; names_solve. }
  destruct (rule_like_vars op l r) as [x|] eqn:E3.
  { unfold rule_like_vars in E3. destr_hyps_n; names_solve. }
  destruct (rule_cancel_right_lit op l r) as [x|] eqn:E4.
  { unfold rule_cancel_right_lit in E4. destr_hyps_n; names_solve. }
  destruct (rule_cancel_left_lit op l r) as [x|] eqn:E5.
  { unfold rule_cancel_left_lit in E5. destr_hyps_n; names_solve. }
  destruct (rule_left_binary op l r) as [x|] eqn:E6.
  { unfold rule_left_binary in E6. destr_hyps_n; names_solve. }
  destruct (rule_like_coeff op l r) as [x|] eqn:E7.
  { unfold rule_like_coeff in E7. destr_hyps_n; names_solve. }
  destruct (rule_distribute so op l r) as [x|] eqn:E8.
  { unfold rule_distribute in E8. destr_hyps_n; simpl in *;
      repeat rewrite andb_true_iff in *; split; apply Hso; simpl;
      repeat rewrite andb_true_iff in *; intuition. }
  simpl. rewrite Hl, Hr. reflexivity.
Qed.

Lemma simplifyOnce_fuel_names f (e : Expr num) :
  names_ok e = true -> names_ok (simplifyOnce_fuel f e) = true.
Proof.
  revert e. induction f as [|f IH]; intros e He; [exact He|].
  destruct e as [v|n|op l r|l r]; simpl in *; try exact He.
  - apply andb_prop in He as [Hl Hr].
    apply simplifyNode_names; auto.
  - apply andb_prop in He as [Hl Hr]. rewrite !IH; auto.
Qed.

Lemma simplifyOnce_names (e : Expr num) :
  names_ok e = true -> names_ok (simplifyOnce e) = true.
Proof. apply simplifyOnce_fuel_names. Qed.

Lemma simplifyOnce_shape (e : Expr num) :
  (noEq e || rootEq e) = true -> (noEq (simplifyOnce e) || rootEq (simplifyOnce e)) = true.
Proof.
  intros He. apply orb_true_iff in He as [He|He]; apply orb_true_iff.
  - left. apply simplifyOnce_fuel_noEq, He.
  - right. apply simplifyOnce_rootEq, He.
Qed.

End Names.

Section FixedPoint.
Context {num : Type} `{JSNum num}.
Hypothesis toString_ok : forall v : num, good_atom (js_toString v) = true.

Lemma simplify_iter_fixed n (c r : Expr num) :
  names_ok c = true -> (noEq c || rootEq c) = true ->
  simplify_iter n c = Some r ->
  simplifyOnce r = r /\ names_ok r = true /\ (noEq r || rootEq r) = true.
Proof.
  revert c. induction n as [|n IH]; intros c Hn Hs Hr; [discriminate|].
  cbn [simplify_iter] in Hr.
  pose proof (simplifyOnce_names c Hn) as Hn'.
  pose proof (simplifyOnce_shape c Hs) as Hs'.
  destruct (String.eqb _ _) eqn:E.
  - injection Hr as <-. apply String.eqb_eq in E.
    pose proof (print_measure toString_ok _ _ Hn' Hn Hs' Hs E) as Hm.
    destruct (simplifyOnce_shrinks c) as [Hc|Hc]; [|lia].
    rewrite Hc. auto.
  - exact (IH _ Hn' Hs' Hr).
Qed.

Lemma simplify_fixed (e : Expr num) :
  names_ok e = true -> (noEq e || rootEq e) = true ->
  simplifyOnce (simplify e) = simplify e.
Proof.
  intros Hn Hs. exact (proj1 (simplify_iter_fixed _ e _ Hn Hs (simplify_terminates e))).
Qed.

Lemma simplify_idem (e : Expr num) :
  names_ok e = true -> (noEq e || rootEq e) = true ->
  simplify (simplify e) = simplify e.
Proof.
  intros Hn Hs. pose proof (simplify_fixed e Hn Hs) as Hf.
  unfold simplify at 1. cbn [simplify_iter]. rewrite Hf, String.eqb_refl. reflexivity.
Qed.

End FixedPoint.

(** C3: [simplify] is total (its loop stops, within [measure e + 1]
    passes, on a pass that leaves the printed text unchanged), and on the
    trees the program builds (an [Equation] at most at the root, variable
    names without blanks or parentheses) [simplify (simplify e)] prints as
    [simplify e]. *)
Theorem C3_simplify_fixed_point (e : Expr float) :
  simplify_iter (S (measure e)) e = Some (simplify e) /\
  (names_ok e = true -> (noEq e || rootEq e) = true ->
   exprToString (simplify (simplify e)) = exprToString (simplify e)).
Proof.
  split; [apply simplify_terminates|].
  intros Hn Hs.
  assert (Ht : forall v : float, good_atom (js_toString v) = true)
    by exact float_toString_good.
  rewrite (simplify_idem Ht e Hn Hs). reflexivity.
Qed.

Lemma C3_witness :
  names_ok sample_eq = true /\ (noEq sample_eq || rootEq sample_eq) = true /\
  exprToString (simplify (simplify sample_eq)) = exprToString (simplify sample_eq).
Proof.
  split; [vm_compute; reflexivity|]. split; [vm_compute; reflexivity|].
  apply (proj2 (C3_simplify_fixed_point sample_eq)); vm_compute; reflexivity.
Defined.

(** ** Variable names produced by the tokenizer and the parser *)

Lemma char_token_var c :
  char_token c = Some TokenType.Var -> is_sep c = false /\ Ascii.eqb "=" c = false.
Proof.
  intros Hc.
  assert (Ha : is_alpha c = true).
  { unfold char_token in Hc.
    repeat match type of Hc with
    | context [if ?b then _ else _] => destruct b eqn:?; try discriminate
    end; reflexivity. }
  unfold is_sep.
  destruct (Ascii.eqb c " ") eqn:E1; [apply Ascii.eqb_eq in E1; subst; discriminate|].
  destruct (Ascii.eqb c "(") eqn:E2; [apply Ascii.eqb_eq in E2; subst; discriminate|].
  destruct (Ascii.eqb c ")") eqn:E3; [apply Ascii.eqb_eq in E3; subst; discriminate|].
  destruct (Ascii.eqb "=" c) eqn:E4; [apply Ascii.eqb_eq in E4; subst; discriminate|].
  split; reflexivity.
Qed.

(** The tokenizer's variable tokens are single letters. *)
Lemma tokenize_var_ok : forall s ts, tokenize s = inr ts -> Forall var_tok_ok ts.
Proof.
  intros s. remember (String.length s) as len eqn:Hlen.
  revert s Hlen. induction len as [len IH] using (well_founded_induction lt_wf).
  intros s Hlen ts Ht. destruct s as [|c rest].
  - simpl in Ht. injection Ht as <-. constructor.
  - destruct (is_space c) eqn:Hsp.
    + rewrite tokenize_space in Ht by exact Hsp.
      refine (IH _ _ rest eq_refl ts Ht). simpl in Hlen. lia.
    + destruct (is_digit c) eqn:Hdg.
      * rewrite tokenize_digit in Ht by exact Hdg.
        pose proof (lex_rest_app rest) as Happ.
        destruct (lex_rest rest) as [lx r].
        assert (Hl : String.length r <= String.length rest)
          by (rewrite Happ, str_length_app; lia).
        destruct (tokenize r) as [err|ts'] eqn:Er; simpl in Ht; [discriminate|].
        injection Ht as <-. constructor; [discriminate|].
        refine (IH _ _ r eq_refl ts' Er). simpl in Hlen. lia.
      * rewrite tokenize_other in Ht by assumption.
        destruct (char_token c) as [ty|] eqn:Ec; [|discriminate].
        destruct (tokenize rest) as [err|ts'] eqn:Er; simpl in Ht; [discriminate|].
        injection Ht as <-. constructor.
        -- unfold var_tok_ok. cbn [tok_type tok_value]. intros Hty. subst ty.
           destruct (char_token_var c Ec) as [H1 H2].
           unfold good_atom, char_str. cbn [atom_chars_ok has_char]. rewrite H1, H2. split; reflexivity.
        -- refine (IH _ _ rest eq_refl ts' Er). simpl in Hlen. lia.
Qed.

Section ParserVars.
Context {num : Type} `{JSNum num}.
Hypothesis lit_ok : forall v : num, has_char "=" (js_toString v) = false.

Ltac vsplit := repeat split; simpl; repeat rewrite andb_true_iff; intuition.

(** The parser's variables are the tokenizer's variable tokens. *)
Lemma parser_vars f :
  (forall ts, Forall var_tok_ok ts -> Qvar (num:=num) (parseEquation f ts)) /\
  (forall ts, Forall var_tok_ok ts -> Qvar (num:=num) (parseAddSubtract f ts)) /\
  (forall l ts, names_ok l = true -> atoms_ok l = true -> Forall var_tok_ok ts ->
     Qvar (num:=num) (addsub_loop f l ts)) /\
  (forall ts, Forall var_tok_ok ts -> Qvar (num:=num) (parseMultiplyDivide f ts)) /\
  (forall l ts, names_ok l = true -> atoms_ok l = true -> Forall var_tok_ok ts ->
     Qvar (num:=num) (muldiv_loop f l ts)) /\
  (forall ts, Forall var_tok_ok ts -> Qvar (num:=num) (parseUnary f ts)) /\
  (forall ts, Forall var_tok_ok ts -> Qvar (num:=num) (parsePrimary f ts)).
Proof.
  induction f as [|f IH]; [repeat split; intros; exact I|].
  destruct IH as (IE & IAS & IAL & IMD & IML & IU & IP).
  repeat split.
  - intros ts Hts. rewrite parseEquation_S. pose proof (IAS ts Hts) as Hq.
    destruct (parseAddSubtract f ts) as [err|[l ts1]]; [exact I|].
    destruct Hq as (Hl & Hal & Hts1). destruct ts1 as [|t ts2]; [split; auto|].
    destruct (tok_is TokenType.Equals t) eqn:Et; [|split; auto].
    inversion Hts1 as [|? ? _ Hts2]; subst. specialize (IAS ts2 Hts2).
    destruct (parseAddSubtract f ts2) as [err|[r ts3]]; [exact I|].
    destruct IAS as (Hr & Har & Hts3). cbv beta iota.
    split; [simpl; rewrite Hl, Hr; reflexivity|].
    split; [simpl; rewrite Hal, Har; reflexivity|exact Hts3].
  - intros ts Hts. rewrite parseAddSubtract_S. specialize (IMD ts Hts).
    destruct (parseMultiplyDivide f ts) as [err|[l ts1]]; [exact I|].
    destruct IMD as (Hl & Hal & Hts1). apply IAL; assumption.
  - intros l ts Hl Hal Hts. rewrite addsub_loop_S. destruct ts as [|t ts1]; [split; auto|].
    destruct (addsub_op t) as [op|]; [|split; auto].
    inversion Hts as [|? ? _ Hts1]; subst. specialize (IMD ts1 Hts1).
    destruct (parseMultiplyDivide f ts1) as [err|[r ts2]]; [exact I|].
    destruct IMD as (Hr & Har & Hts2).
    apply IAL; [simpl; rewrite Hl, Hr; reflexivity|simpl; rewrite Hal, Har; reflexivity|exact Hts2].
  - intros ts Hts. rewrite parseMultiplyDivide_S. specialize (IU ts Hts).
    destruct (parseUnary f ts) as [err|[l ts1]]; [exact I|].
    destruct IU as (Hl & Hal & Hts1). apply IML; assumption.
  - intros l ts Hl Hal Hts. rewrite muldiv_loop_S. destruct ts as [|t ts1]; [split; auto|].
    destruct (muldiv_op t) as [op|]; [|split; auto].
    inversion Hts as [|? ? _ Hts1]; subst. specialize (IU ts1 Hts1).
    destruct (parseUnary f ts1) as [err|[r ts2]]; [exact I|].
    destruct IU as (Hr & Har & Hts2).
    apply IML; [simpl; rewrite Hl, Hr; reflexivity|simpl; rewrite Hal, Har; reflexivity|exact Hts2].
  - intros ts Hts. rewrite parseUnary_S. destruct ts as [|t ts1]; [apply IP; exact Hts|].
    inversion Hts as [|? ? _ Hts1]; subst.
    destruct (tok_is TokenType.Minus t).
    + specialize (IU ts1 Hts1). destruct (parseUnary f ts1) as [err|[r ts2]]; [exact I|].
      destruct IU as (Hr & Har & Hts2). cbv beta iota.
      split; [simpl; exact Hr|]. split; [|exact Hts2].
      simpl. rewrite lit_ok, Har. reflexivity.
    + destruct (tok_is TokenType.Plus t); [apply IU; exact Hts1|apply IP; exact Hts].
  - intros ts Hts. rewrite parsePrimary_S. destruct ts as [|t ts1]; [exact I|].
    inversion Hts as [|? ? Ht Hts1]; subst.
    destruct (tok_type t) eqn:Ety; try exact I.
    + split; [reflexivity|]. split; [simpl; rewrite lit_ok; reflexivity|exact Hts1].
    + specialize (IE ts1 Hts1). destruct (parseEquation f ts1) as [err|[e ts2]]; [exact I|].
      destruct IE as (He & Hae & Hts2). destruct ts2 as [|t2 ts3]; [exact I|].
      destruct (tok_is TokenType.Cparen t2); [|exact I].
      inversion Hts2; subst. split; [|split]; assumption.
    + destruct (Ht Ety) as [Hg He]. split; [exact Hg|].
      split; [simpl; rewrite He; reflexivity|exact Hts1].
Qed.

Lemma parse_vars ts (e : Expr num) :
  Forall var_tok_ok ts -> parse ts = inr e -> names_ok e = true /\ atoms_ok e = true.
Proof.
  intros Hts Hp. unfold parse in Hp.
  pose proof (proj1 (parser_vars (parse_fuel ts)) ts Hts) as Hq.
  destruct (parseEquation (parse_fuel ts) ts) as [err|[e' [|t rest]]]; try discriminate.
  injection Hp as <-. exact (conj (proj1 Hq) (proj1 (proj2 Hq))).
Qed.

End ParserVars.

(** ** Numeric sides of the reported solutions *)

Section NumericFold.
Context {num : Type} `{JSNum num}.

Lemma fuel_numeric (e : Expr num) :
  Numeric e -> forall f, measure e <= f + 2 ->
  exists v, simplifyOnce_fuel f e = NumberLiteral v.
Proof.
  induction 1 as [v|op l r Hl IHl Hr IHr]; intros f Hf.
  - exists v. apply simplifyOnce_fuel_leaf. reflexivity.
  - pose proof (bin_child_l op l r) as Hcl. pose proof (bin_child_r op l r) as Hcr.
    pose proof (measure_pos l). pose proof (measure_pos r).
    destruct f as [|f]; [lia|].
    destruct (IHl f) as [a Ea]; [lia|]. destruct (IHr f) as [b Eb]; [lia|].
    exists (fold_op op a b). cbn [simplifyOnce_fuel]. rewrite Ea, Eb. reflexivity.
Qed.

Lemma simplifyOnce_numeric (e : Expr num) :
  Numeric e -> exists v, simplifyOnce e = NumberLiteral v.
Proof. intros He. apply fuel_numeric; [exact He|lia]. Qed.

Lemma simplify_iter_lit n (c r : Expr num) v :
  simplifyOnce c = NumberLiteral v -> simplify_iter n c = Some r ->
  exists w, r = NumberLiteral w.
Proof.
  revert c v. induction n as [|n IH]; intros c v Hc Hr; [discriminate|].
  cbn [simplify_iter] in Hr. rewrite Hc in Hr.
  destruct (String.eqb _ _).
  - injection Hr as <-. exists v. reflexivity.
  - exact (IH (NumberLiteral v) v eq_refl Hr).
Qed.

Lemma simplify_numeric (e : Expr num) :
  Numeric e -> exists v, simplify e = NumberLiteral v.
Proof.
  intros He. destruct (simplifyOnce_numeric e He) as [v Hv].
  exact (simplify_iter_lit _ e _ v Hv (simplify_terminates e)).
Qed.

(** A solved equation that one more pass leaves unchanged has a literal
    on its numeric side. *)
Lemma fixed_solution_literal (s : Expr num) :
  simplifyOnce s = s -> isRealSolution s = true ->
  exists name v, s = Equation (Var name) (NumberLiteral v) \/
                 s = Equation (NumberLiteral v) (Var name).
Proof.
  intros Hf Hs. pose proof (isRealSolution_solved_form s Hs) as (name & side & Hsh & Hn).
  unfold simplifyOnce in Hf.
  destruct Hsh as [->| ->]; cbn [measure] in Hf; rewrite Nat.add_1_r in Hf;
    rewrite simplifyOnce_fuel_eqn in Hf.
  - pose proof (f_equal (fun x => match x with Equation _ b => b | _ => x end) Hf) as Hb.
    cbv beta iota in Hb.
    destruct (fuel_numeric side Hn (2 + measure side)) as [v Hv]; [lia|].
    exists name, v. left. rewrite <- Hb, Hv. reflexivity.
  - pose proof (f_equal (fun x => match x with Equation a _ => a | _ => x end) Hf) as Ha.
    cbv beta iota in Ha.
    destruct (fuel_numeric side Hn (measure side + 2)) as [v Hv]; [lia|].
    exists name, v. right. rewrite <- Ha, Hv. reflexivity.
Qed.

End NumericFold.

(** ** Constant folding computes the binary64 value

    On an expression without variables every pass folds bottom-up: the
    children of each node are literals by then, and rule 1 (constant
    folding) applies before any other rule, with the operation that
    [eval_float] performs. *)

Section FloatFold.
Variable env : string -> float.

Lemma fuel_numeric_value (e : Expr float) :
  Numeric e -> forall f, measure e <= f + 2 ->
  exists v, eval_float env e = Some v /\ simplifyOnce_fuel f e = NumberLiteral v.
Proof.
  induction 1 as [v|op l r Hl IHl Hr IHr]; intros f Hf.
  - exists v. split; [reflexivity|]. apply simplifyOnce_fuel_leaf. reflexivity.
  - pose proof (bin_child_l op l r) as Hcl. pose proof (bin_child_r op l r) as Hcr.
    pose proof (measure_pos l). pose proof (measure_pos r).
    destruct f as [|f]; [lia|].
    destruct (IHl f) as [a [Va Ea]]; [lia|]. destruct (IHr f) as [b [Vb Eb]]; [lia|].
    exists (fold_op op a b). split.
    + cbn [eval_float]. rewrite Va, Vb. reflexivity.
    + cbn [simplifyOnce_fuel]. rewrite Ea, Eb. reflexivity.
Qed.

(** Once a pass reaches a tree that the next pass leaves unchanged, the
    loop of [simplify] returns that tree. *)
Lemma simplify_iter_settles n (c d r : Expr float) :
  simplifyOnce c = d -> simplifyOnce d = d -> simplify_iter n c = Some r -> r = d.
Proof.
  revert c. induction n as [|n IH]; intros c Hc Hd Hr; [discriminate|].
  cbn [simplify_iter] in Hr. rewrite Hc in Hr.
  destruct (String.eqb _ _).
  - injection Hr as <-. reflexivity.
  - exact (IH d Hd Hd Hr).
Qed.

Lemma simplifyOnce_lit (v : float) : simplifyOnce (NumberLiteral v) = NumberLiteral v.
Proof. reflexivity. Qed.

Lemma simplifyOnce_eq_lits (a b : float) :
  simplifyOnce (Equation (NumberLiteral a) (NumberLiteral b)) =
  Equation (NumberLiteral a) (NumberLiteral b).
Proof. reflexivity. Qed.

End FloatFold.

(** C2 (amended): on every expression built from numeric literals and the
    four operators only, and on every equation of two such expressions,
    [simplify] keeps the value computed with the operators' binary64
    arithmetic, under every assignment of the variables (there are none to
    assign): each side of [simplify e] evaluates to the same float as the
    corresponding side of [e]. With variables the values may differ: the
    other rewrite rules are identities of exact arithmetic, not of binary64
    (see [C2_counterexample]). *)
Theorem C2_simplify_closed_value (env : string -> float) (e : Expr float) :
  (Numeric e \/ exists l r, e = Equation l r /\ Numeric l /\ Numeric r) ->
  sem_float env (simplify e) = sem_float env e.
Proof.
  intros [He | (l & r & -> & Hl & Hr)].
  - destruct (fuel_numeric_value env e He (measure e)) as [v [Hv Hs]]; [lia|].
    pose proof (simplify_iter_settles (S (measure e)) e (NumberLiteral v) (simplify e)
                  Hs (simplifyOnce_lit v) (simplify_terminates e)) as ->.
    destruct He; unfold sem_float; rewrite Hv; reflexivity.
  - destruct (fuel_numeric_value env l Hl (measure l + measure r)) as [a [Ha Hsa]];
      [pose proof (measure_pos r); lia|].
    destruct (fuel_numeric_value env r Hr (measure l + measure r)) as [b [Hb Hsb]];
      [pose proof (measure_pos l); lia|].
    assert (Hs : simplifyOnce (Equation l r) = Equation (NumberLiteral a) (NumberLiteral b)).
    { unfold simplifyOnce. cbn [measure]. rewrite Nat.add_1_r, simplifyOnce_fuel_eqn, Hsa, Hsb.
      reflexivity. }
    pose proof (simplify_iter_settles _ _ _ _ Hs (simplifyOnce_eq_lits a b)
                  (simplify_terminates (Equation l r))) as ->.
    cbn [sem_float eval_float]. rewrite Ha, Hb. reflexivity.
Qed.

(** [C2_simplify_closed_value] at [((1 / 49) * 49) = 0.1 + 0.2]: the two
    sides fold to the floats [0.9999999999999999] and
    [0.30000000000000004], the values binary64 evaluation gives. *)
Lemma C2_witness :
  let e := Equation
             (BinaryExpression OpMul (BinaryExpression OpDiv (lit 1) (lit 49)) (lit 49))
             (BinaryExpression OpAdd (NumberLiteral 0.1%float) (NumberLiteral 0.2%float))
           : Expr float in
  simplify e = Equation (NumberLiteral 0.9999999999999999%float)
                        (NumberLiteral 0.30000000000000004%float) /\
  sem_float (fun _ => 0%float) (simplify e) = sem_float (fun _ => 0%float) e.
Proof.
  intros e. split; [vm_compute; reflexivity|].
  apply C2_simplify_closed_value. right. do 2 eexists. split; [reflexivity|].
  split; repeat constructor.
Defined.

Lemma has_char_substring c i j s :
  has_char c s = false -> has_char c (substring i j s) = false.
Proof.
  revert i j. induction s as [|d s IH]; intros i j Hs.
  - destruct i, j; reflexivity.
  - simpl in Hs. apply orb_false_elim in Hs as [Hd Hs].
    destruct i as [|i].
    + destruct j as [|j]; [reflexivity|]. simpl. rewrite Hd. apply IH, Hs.
    + simpl. apply IH, Hs.
Qed.

Lemma digit_not_eq k : k < 10 -> Ascii.eqb "=" (ascii_of_nat (48 + k)) = false.
Proof. intros Hk. do 10 (destruct k as [|k]; [reflexivity|]). lia. Qed.

Lemma digits_fuel_no_eq f z acc :
  has_char "=" acc = false -> has_char "=" (JSFloat.digits_fuel f z acc) = false.
Proof.
  revert z acc. induction f as [|f IH]; intros z acc Hacc; [exact Hacc|].
  cbn [JSFloat.digits_fuel].
  assert (Hd : Ascii.eqb "=" (ascii_of_nat (48 + Z.to_nat (z mod 10))) = false)
    by (apply digit_not_eq;
        assert (0 <= z mod 10 < 10)%Z by (apply Z.mod_pos_bound; lia); lia).
  set (c := ascii_of_nat (48 + Z.to_nat (z mod 10))) in *.
  assert (Hc : has_char "=" (String c acc) = false)
    by (cbn [has_char]; rewrite Hd, Hacc; reflexivity).
  destruct (z / 10 =? 0)%Z; [exact Hc | apply IH, Hc].
Qed.

Lemma string_of_nonneg_no_eq z : has_char "=" (JSFloat.string_of_nonneg z) = false.
Proof. apply digits_fuel_no_eq. reflexivity. Qed.

Lemma zeros_no_eq n : has_char "=" (JSFloat.zeros n) = false.
Proof. induction n; simpl; auto. Qed.

Lemma format_no_eq s k n : has_char "=" (JSFloat.format s k n) = false.
Proof.
  pose proof (string_of_nonneg_no_eq s) as Hd.
  unfold JSFloat.format.
  destruct ((k <=? n)%Z && (n <=? 21)%Z).
  { rewrite has_char_app, Hd, zeros_no_eq. reflexivity. }
  destruct ((0 <? n)%Z && (n <=? 21)%Z).
  { rewrite !has_char_app, !has_char_substring by exact Hd. reflexivity. }
  destruct ((-6 <? n)%Z && (n <=? 0)%Z).
  { rewrite !has_char_app, zeros_no_eq, Hd. reflexivity. }
  destruct (k =? 1)%Z.
  - rewrite !has_char_app, Hd, string_of_nonneg_no_eq.
    destruct (0 <=? n - 1)%Z; reflexivity.
  - rewrite !has_char_app, !has_char_substring, string_of_nonneg_no_eq by exact Hd.
    destruct (0 <=? n - 1)%Z; reflexivity.
Qed.

Lemma float_toString_no_eq (x : float) : has_char "=" (JSFloat.toString x) = false.
Proof.
  unfold JSFloat.toString.
  destruct (Prim2SF x) as [[]|[]| |[] m e]; try reflexivity.
  - unfold JSFloat.toString_pos. destruct (JSFloat.shortest _ _ _ _ _) as [[s k] n].
    apply format_no_eq.
  - unfold JSFloat.toString_pos. destruct (JSFloat.shortest _ _ _ _ _) as [[s k] n].
    apply format_no_eq.
Qed.

Section TreeNodes.
Context {num : Type} `{JSNum num}.
Hypothesis toString_ok : forall v : num, good_atom (js_toString v) = true.
Hypothesis lit_ok : forall v : num, has_char "=" (js_toString v) = false.

Ltac destr_hyps_a :=
  repeat match goal with
  | Hs : Some _ = Some _ |- _ => injection Hs as Hs; subst
  | Hs : None = Some _ |- _ => discriminate Hs
  | Hs : context [match ?x with _ => _ end] |- _ => destruct x eqn:?
  end.

Ltac atoms_solve :=
  unfold coeff_term, reassoc_term, lit in *;
  repeat match goal with
  | |- context [if ?x then _ else _] => destruct x eqn:?
  end; simpl in *; rewrite ?lit_ok;
  repeat rewrite andb_true_iff in *; intuition.

Lemma simplifyNode_atoms (so : Expr num -> Expr num) op l r :
  (forall x, atoms_ok x = true -> atoms_ok (so x) = true) ->
  atoms_ok l = true -> atoms_ok r = true -> atoms_ok (simplifyNode so op l r) = true.
Proof.
  intros Hso Hl Hr. unfold simplifyNode.
  destruct (rule_fold op l r) as [x|] eqn:E1.
  { unfold rule_fold in E1. destr_hyps_a. simpl. rewrite lit_ok. reflexivity. }
  destruct (rule_identity op l r) as [x|] eqn:E2.
  { unfold rule_identity in E2. destr_hyps_a; atoms_solve. }
  destruct (rule_like_vars op l r) as [x|] eqn:E3.
  { unfold rule_like_vars in E3. destr_hyps_a; atoms_solve. }
  destruct (rule_cancel_right_lit op l r) as [x|] eqn:E4.
  { unfold rule_cancel_right_lit in E4. destr_hyps_a; atoms_solve. }
  destruct (rule_cancel_left_lit op l r) as [x|] eqn:E5.
  { unfold rule_cancel_left_lit in E5. destr_hyps_a; atoms_solve. }
  destruct (rule_left_binary op l r) as [x|] eqn:E6.
  { unfold rule_left_binary in E6. destr_hyps_a; atoms_solve. }
  destruct (rule_like_coeff op l r) as [x|] eqn:E7.
  { unfold rule_like_coeff in E7. destr_hyps_a; atoms_solve. }
  destruct (rule_distribute so op l r) as [x|] eqn:E8.
  { unfold rule_distribute in E8. destr_hyps_a; simpl in *;
      repeat rewrite andb_true_iff in *; split; apply Hso; simpl;
      repeat rewrite andb_true_iff in *; intuition. }
  simpl. rewrite Hl, Hr. reflexivity.
Qed.

Lemma simplifyOnce_fuel_atoms f (e : Expr num) :
  atoms_ok e = true -> atoms_ok (simplifyOnce_fuel f e) = true.
Proof.
  revert e. induction f as [|f IH]; intros e He; [exact He|].
  destruct e as [v|n|op l r|l r]; simpl in *; try exact He.
  - apply andb_prop in He as [Hl Hr].
    apply simplifyNode_atoms; auto.
  - apply andb_prop in He as [Hl Hr]. rewrite !IH; auto.
Qed.

Lemma simplify_good (e : Expr num) :
  good_node e = true -> good_node (simplify e) = true.
Proof.
  unfold good_node. intros He. apply andb_prop in He as [He Ha].
  apply andb_prop in He as [Hr Hn].
  rewrite (simplify_preserves (fun x => rootEq x = true) simplifyOnce_rootEq e Hr).
  rewrite (simplify_preserves (fun x => names_ok x = true) simplifyOnce_names e Hn).
  rewrite (simplify_preserves (fun x => atoms_ok x = true)
             (fun x => simplifyOnce_fuel_atoms (measure x) x) e Ha).
  reflexivity.
Qed.

Lemma simplify_good_fixed (e : Expr num) :
  good_node e = true -> simplifyOnce (simplify e) = simplify e.
Proof.
  unfold good_node. intros He. apply andb_prop in He as [He _].
  apply andb_prop in He as [Hr Hn].
  apply (simplify_fixed toString_ok e Hn). rewrite Hr. apply orb_true_r.
Qed.

Lemma reparse_side_vars (side : Expr num) p e' :
  reparse_side side p = inr e' -> names_ok e' = true /\ atoms_ok e' = true.
Proof.
  intros Hr. unfold reparse_side in Hr.
  destruct (tokenize ("(" ++ exprToString side ++ ") " ++ p)) as [err|ts] eqn:Et;
    [discriminate|].
  exact (parse_vars lit_ok ts e' (tokenize_var_ok _ ts Et) Hr).
Qed.

Lemma applyPermutation_good (e : Expr num) p e' :
  good_node e = true -> In p (findPermutations e) ->
  applyPermutation e p = inr e' -> good_node e' = true.
Proof.
  unfold good_node. intros He Hp Happ.
  apply andb_prop in He as [He Ha]. apply andb_prop in He as [He _].
  destruct e as [| |op l r|l r]; try discriminate.
  simpl in He, Ha. apply andb_prop in He as [Hl Hr]. apply andb_prop in Ha as [Hal Har].
  pose proof (findPermutations_no_eq l r p Hl Hr Hal Har Hp) as Hpe.
  simpl in Happ.
  destruct (reparse_side l p) as [err|l'] eqn:El; [discriminate|].
  destruct (reparse_side r p) as [err|r'] eqn:Er; [discriminate|].
  injection Happ as <-.
  destruct (reparse_side_vars l p l' El) as [Hnl Hal'].
  destruct (reparse_side_vars r p r' Er) as [Hnr Har'].
  simpl. rewrite (reparse_side_noEq l p l' Hl Hal Hpe El),
    (reparse_side_noEq r p r' Hr Har Hpe Er), Hnl, Hnr, Hal', Har'.
  reflexivity.
Qed.

End TreeNodes.

Section TreeSolutions.
Context {num : Type} `{JSNum num}.
Hypothesis toString_ok : forall v : num, good_atom (js_toString v) = true.
Hypothesis lit_ok : forall v : num, has_char "=" (js_toString v) = false.

Lemma extract_node s (e : Expr num) kids l :
  In s (extractSolutions (STNode e kids l)) -> s = e \/ In s (flat_map extractSolutions kids).
Proof.
  simpl. intros Hs. apply in_app_or in Hs as [Hs|Hs]; [|right; exact Hs].
  destruct (isRealSolution e); simpl in Hs; [|contradiction].
  destruct Hs as [<-|[]]. left. reflexivity.
Qed.

(** Every node that [buildSolutionTree] stores below a well-formed node is
    a fixed point of [simplifyOnce]. *)
Lemma buildSolutionTree_fixed now steps :
  forall (e : Expr num) last md cd st to n kids n',
  good_node e = true ->
  buildSolutionTree now steps e last md cd st to n = (inr kids, n') ->
  forall s, In s (flat_map extractSolutions kids) -> simplifyOnce s = s.
Proof.
  induction steps as [|steps IH]; intros e last md cd st to n kids n' He Hrun;
    cbn [buildSolutionTree] in Hrun; unfold bind, ret, lift, throw in Hrun.
  - destruct (timed_out now st to n) as [[err|b] n1]; [discriminate|].
    destruct b; [injection Hrun as <- _; intros s []|].
    destruct (Nat.leb md cd); injection Hrun as <- _; intros s [].
  - destruct (timed_out now st to n) as [[err|b] n1]; [discriminate|].
    destruct b; [injection Hrun as <- _; intros s []|].
    destruct (Nat.leb md cd); [injection Hrun as <- _; intros s []|].
    assert (Hps : forall x, In x (inverse_filter last (findPermutations e)) ->
                  In x (findPermutations e))
      by (intros x Hx; exact (proj1 (inverse_filter_spec last _ x Hx))).
    revert n1 kids n' Hrun Hps. generalize (inverse_filter last (findPermutations e)) as ps.
    induction ps as [|x ps IHps]; intros n1 kids n' Hrun Hps.
    + injection Hrun as <- _. intros s [].
    + cbv beta iota in Hrun.
      destruct (timed_out now st to n1) as [[err|b] n2]; [discriminate|].
      destruct b; [injection Hrun as <- _; intros s []|].
      destruct (applyPermutation e x) as [err|newSol] eqn:Eapp;
        unfold ret in Hrun; cbv beta iota in Hrun; [discriminate|].
      assert (Hg : good_node newSol = true)
        by (apply (applyPermutation_good lit_ok e x); [exact He|apply Hps; left; reflexivity|exact Eapp]).
      assert (Hps' : forall y, In y ps -> In y (findPermutations e))
        by (intros y Hy; apply Hps; right; exact Hy).
      pose proof (simplify_good_fixed toString_ok newSol Hg) as Hfix.
      pose proof (simplify_good lit_ok newSol Hg) as Hg'.
      destruct (isRealSolution (simplify newSol)); cbv beta iota in Hrun.
      * match type of Hrun with
        | context [match ?m ps ?k with _ => _ end] =>
            destruct (m ps k) as [[err|sib] n4] eqn:Esib; [discriminate|]
        end.
        injection Hrun as <- _. intros s Hs. cbn [flat_map] in Hs.
        apply in_app_or in Hs as [Hs|Hs].
        -- apply extract_node in Hs as [->|[]]. exact Hfix.
        -- exact (IHps _ _ _ Esib Hps' s Hs).
      * destruct (buildSolutionTree now steps (simplify newSol) (Some x) md (S cd) st to n2)
          as [[err|kids1] n3] eqn:Ek; [discriminate|].
        match type of Hrun with
        | context [match ?m ps ?k with _ => _ end] =>
            destruct (m ps k) as [[err|sib] n4] eqn:Esib; [discriminate|]
        end.
        injection Hrun as <- _. intros s Hs. cbn [flat_map] in Hs.
        apply in_app_or in Hs as [Hs|Hs].
        -- apply extract_node in Hs as [->|Hs]; [exact Hfix|].
           exact (IH _ _ _ _ _ _ _ _ _ Hg' Ek s Hs).
        -- exact (IHps _ _ _ Esib Hps' s Hs).
Qed.

Lemma solve_loop_fixed now k (root : Expr num) md sols st to n r n' :
  good_node root = true -> simplifyOnce root = root ->
  (forall s, In s sols -> simplifyOnce s = s) ->
  solve_loop now k root md sols st to n = (inr r, n') ->
  forall s, In s (solutions r) -> simplifyOnce s = s.
Proof.
  intros Hg Hroot. revert md sols n. induction k as [|k IH]; intros md sols n Hs Hrun;
    cbn [solve_loop] in Hrun.
  - unfold ret in Hrun. injection Hrun as <- _. exact Hs.
  - unfold bind, date_now, ret in Hrun.
    destruct (Z.gtb (now n - st) to).
    + injection Hrun as <- _. exact Hs.
    + destruct (buildSolutionTree now md root None md 0 st to (S n)) as [[err|kids] n2] eqn:Eb;
        [discriminate|].
      assert (Hall : forall s, In s (extractSolutions (STNode root kids None)) ->
                     simplifyOnce s = s).
      { intros s Hin. apply extract_node in Hin as [->|Hin]; [exact Hroot|].
        exact (buildSolutionTree_fixed now md root None md 0 st to (S n) kids n2 Hg Eb s Hin). }
      destruct (extractSolutions (STNode root kids None)) as [|s0 ss] eqn:E.
      * apply (IH _ _ _ (fun s (Hin : In s []) => False_ind _ Hin) Hrun).
      * injection Hrun as <- _. exact Hall.
Qed.

(** The numeric side of every solution [findSolution] reports is a single
    literal, when the input equation is well formed. *)
Lemma findSolution_literal now (expr : Expr num) timeoutMs n r n' :
  good_node expr = true ->
  findSolution now expr timeoutMs n = (inr r, n') ->
  forall s, In s (solutions r) ->
  exists name v, s = Equation (Var name) (NumberLiteral v) \/
                 s = Equation (NumberLiteral v) (Var name).
Proof.
  intros Hg Hrun s Hs.
  unfold findSolution, bind, date_now in Hrun. cbv beta iota in Hrun.
  apply fixed_solution_literal.
  - exact (solve_loop_fixed now maxIterations _ 1 [] _ _ _ r n'
             (simplify_good lit_ok expr Hg) (simplify_good_fixed toString_ok expr Hg)
             (fun s (Hin : In s []) => False_ind _ Hin) Hrun s Hs).
  - exact (solve_loop_real now maxIterations _ 1 [] _ _ _ r n'
             (fun s (Hin : In s []) => False_ind _ Hin) Hrun s Hs).
Qed.

End TreeSolutions.

(** C10: [simplify] turns every tree built from number literals and binary
    operators into a single literal; and every solution that [findSolution]
    reports for a well-formed input equation (an [Equation] only at the
    root, variable names as the tokenizer makes them) has a bare literal as
    its numeric side. *)
Theorem C10_numeric_side_literal :
  (forall e : Expr float, Numeric e -> exists v, simplify e = NumberLiteral v) /\
  (forall now (expr : Expr float) timeoutMs n r n',
     good_node expr = true ->
     findSolution now expr timeoutMs n = (inr r, n') ->
     forall s, In s (solutions r) ->
     exists name v, s = Equation (Var name) (NumberLiteral v) \/
                    s = Equation (NumberLiteral v) (Var name)).
Proof.
  split; [apply simplify_numeric|].
  assert (Ht : forall v : float, good_atom (js_toString v) = true)
    by exact float_toString_good.
  assert (Hq : forall v : float, has_char "=" (js_toString v) = false)
    by exact float_toString_no_eq.
  exact (findSolution_literal Ht Hq).
Qed.

Lemma C10_witness :
  (exists v, simplify (BinaryExpression OpDiv (lit 1) (BinaryExpression OpAdd (lit 2) (lit 2))
                       : Expr float) = NumberLiteral v) /\
  simplify (BinaryExpression OpDiv (lit 1) (BinaryExpression OpAdd (lit 2) (lit 2))
            : Expr float) = NumberLiteral 0.25%float /\
  good_node sample_eq = true /\
  findSolution clock_still sample_eq 5000%Z 0 = (inr sample_result, 8) /\
  forall s, In s (solutions sample_result) ->
  exists name v, s = Equation (Var name) (NumberLiteral v) \/
                 s = Equation (NumberLiteral v) (Var name).
Proof.
  split; [apply (proj1 C10_numeric_side_literal); repeat constructor|].
  split; [vm_compute; reflexivity|].
  split; [vm_compute; reflexivity|].
  split; [vm_compute; reflexivity|].
  apply (proj2 C10_numeric_side_literal clock_still sample_eq 5000%Z 0 sample_result 8);
    vm_compute; reflexivity.
Defined.


(** ** Printed trees read back by the tokenizer and the parser

    A numeral is read as one [Number] token and a one-letter name as one
    [Var] token, so the printed text of a tree tokenizes to the tokens of
    its pieces. The parser reads these tokens back by precedence; where the
    printer left out parentheses (as in [a + (b + c)], printed [a + b + c])
    it builds the left-nested tree, which prints the same pieces. *)

Lemma span_digits_whole a R :
  span_digits a = (a, EmptyString) ->
  (forall d R', R = String d R' -> is_digit d = false) ->
  span_digits (a ++ R) = (a, R).
Proof.
  induction a as [|c a IH]; intros Ha HR.
  - destruct R as [|d R']; [reflexivity|]. simpl. rewrite (HR d R' eq_refl). reflexivity.
  - simpl in *. destruct (is_digit c); [|discriminate].
    destruct (span_digits a) as [x y] eqn:E. injection Ha as Hx Hy. subst.
    rewrite IH by (reflexivity || exact HR). reflexivity.
Qed.

Lemma numeral_rest_lex t : numeral_rest t = true -> lex_rest t = (t, EmptyString).
Proof.
  unfold numeral_rest. destruct (lex_rest t) as [a r].
  intros Hb. apply andb_prop in Hb as [Ha Hr].
  apply String.eqb_eq in Ha, Hr. subst. reflexivity.
Qed.

Lemma lex_rest_whole t R :
  numeral_rest t = true ->
  (forall d R', R = String d R' -> is_digit d = false /\ Ascii.eqb d "." = false) ->
  lex_rest (t ++ R) = (t, R).
Proof.
  intros Ht HR. apply numeral_rest_lex in Ht. revert Ht.
  induction t as [|c t IH]; intros Ht.
  - destruct R as [|d R']; [reflexivity|].
    destruct (HR d R' eq_refl) as [Hd Hdot].
    unfold lex_rest. simpl. rewrite Hd. destruct R' as [|d2 r']; [reflexivity|].
    rewrite Hdot. reflexivity.
  - destruct (is_digit c) eqn:Hc.
    + rewrite lex_rest_digit in Ht by exact Hc.
      destruct (lex_rest t) as [lx r] eqn:E. injection Ht as Hl Hr. subst.
      cbn [append]. rewrite lex_rest_digit by exact Hc. rewrite IH by reflexivity.
      reflexivity.
    + unfold lex_rest in Ht |- *. cbn [span_digits append] in *. rewrite Hc in *.
      destruct t as [|d2 r']; [discriminate|].
      cbn [append].
      destruct (Ascii.eqb c "." && is_digit d2) eqn:Hcd; [|discriminate].
      destruct (span_digits r') as [fp r''] eqn:Esp.
      injection Ht; intros; subst.
      rewrite span_digits_whole; [reflexivity | exact Esp |].
      intros d R' E. apply (HR d R' E).
Qed.

Lemma render_head ts : not_atom_head ts = true ->
  forall d R', render ts = String d R' -> is_digit d = false /\ Ascii.eqb d "." = false.
Proof.
  intros Hh d R' E. destruct ts as [|[a|o| | |] ts]; simpl in *; try discriminate;
    try (destruct o); injection E as <- _; split; reflexivity.
Qed.

Lemma tokenize_char c ty R :
  is_space c = false -> is_digit c = false -> char_token c = Some ty ->
  tokenize (String c R) = cons_tok (mkToken ty (char_str c)) (tokenize R).
Proof. intros Hs Hd Ht. rewrite tokenize_other by assumption. rewrite Ht. reflexivity. Qed.

Lemma tokenize_render ts : toks_ok ts = true -> tokenize (render ts) = inr (TT ts).
Proof.
  induction ts as [|t ts IH]; intros Hok; [reflexivity|].
  destruct t as [a|o| | |]; cbn [toks_ok] in Hok.
  - apply andb_prop in Hok as [Hok Hts]. apply andb_prop in Hok as [Ha Hh].
    cbn [render TT map]. apply orb_prop in Ha as [Ha|Ha].
    + destruct a as [|c t]; [discriminate|]. cbn [num_atom] in Ha.
      apply andb_prop in Ha as [Hc Ht]. cbn [append].
      rewrite tokenize_digit by exact Hc.
      rewrite lex_rest_whole by (exact Ht || apply (render_head ts Hh)).
      rewrite IH by exact Hts. unfold tokof. cbn [num_atom]. rewrite Hc, Ht. reflexivity.
    + destruct a as [|c [|c' t]]; try discriminate. cbn [var_atom] in Ha.
      destruct (is_space c) eqn:Hs; [discriminate|].
      destruct (is_digit c) eqn:Hd; [discriminate|].
      destruct (char_token c) as [[]|] eqn:Ec; try discriminate.
      cbn [append]. rewrite (tokenize_char c TokenType.Var) by assumption.
      rewrite IH by exact Hts. unfold tokof. cbn [num_atom]. rewrite Hd. reflexivity.
  - destruct o; cbn [render op_str append];
      rewrite tokenize_space by reflexivity;
      [ rewrite (tokenize_char "+" TokenType.Plus) by reflexivity
      | rewrite (tokenize_char "-" TokenType.Minus) by reflexivity
      | rewrite (tokenize_char "*" TokenType.Multiply) by reflexivity
      | rewrite (tokenize_char "/" TokenType.Divide) by reflexivity ];
      rewrite tokenize_space by reflexivity; rewrite IH by exact Hok; reflexivity.
  - cbn [render append]. rewrite tokenize_space by reflexivity.
    rewrite (tokenize_char "=" TokenType.Equals) by reflexivity.
    rewrite tokenize_space by reflexivity. rewrite IH by exact Hok. reflexivity.
  - cbn [render append].
    rewrite (tokenize_char "(" TokenType.Oparen) by reflexivity.
    rewrite IH by exact Hok. reflexivity.
  - cbn [render append].
    rewrite (tokenize_char ")" TokenType.Cparen) by reflexivity.
    rewrite IH by exact Hok. reflexivity.
Qed.

Section ReadParse.
Context {num : Type} `{JSNum num}.

Ltac lsolve := repeat (rewrite ?length_app in *; simpl length in *); lia.

Lemma TT_app a b : TT (a ++ b) = (TT a ++ TT b)%list.
Proof. apply map_app. Qed.

Lemma TT_cons t ts : TT (t :: ts) = tokof t :: TT ts.
Proof. reflexivity. Qed.

Lemma muldiv_op_mul o : multiplicative o = true -> muldiv_op (tokof (POp o)) = Some o.
Proof. destruct o; easy. Qed.

Lemma addsub_op_add o : additive o = true -> addsub_op (tokof (POp o)) = Some o.
Proof. destruct o; easy. Qed.

Lemma muldiv_loop_stop f (x : Expr num) rest :
  stop_mul rest = true -> muldiv_loop (S f) x (TT rest) = inr (x, TT rest).
Proof.
  intros Hs. rewrite muldiv_loop_S. destruct rest as [|t rest]; [reflexivity|].
  cbn [TT map]. destruct t as [a|o| | |]; try reflexivity; [|destruct o; easy].
  unfold tokof. destruct (num_atom a); reflexivity.
Qed.

Lemma addsub_loop_stop f (x : Expr num) rest :
  stop_add rest = true -> addsub_loop (S f) x (TT rest) = inr (x, TT rest).
Proof.
  intros Hs. rewrite addsub_loop_S. destruct rest as [|t rest]; [reflexivity|].
  cbn [TT map]. destruct t as [a|o| | |]; try reflexivity; [|destruct o; easy].
  unfold tokof. destruct (num_atom a); reflexivity.
Qed.

Lemma fac_atom s :
  FacR [PAtom s] (if num_atom s then NumberLiteral (js_parseFloat s) else Var s).
Proof.
  intros f rest Hf. destruct f as [|[|f]]; [lsolve|lsolve|].
  simpl app. rewrite TT_cons, parseUnary_S, parsePrimary_S.
  unfold tokof. destruct (num_atom s); reflexivity.
Qed.

Lemma fac_paren ts (x : Expr num) : SumR ts x -> FacR (tparen ts) x.
Proof.
  intros Hs f rest Hf. destruct f as [|[|[|f]]]; try lsolve.
  assert (E : (tparen ts ++ rest)%list = PLP :: ts ++ PRP :: rest)
    by (unfold tparen; simpl; rewrite <- app_assoc; reflexivity).
  rewrite E in *. rewrite TT_cons, parseUnary_S. cbn [tok_is tokof tok_type].
  rewrite parsePrimary_S. cbn [tok_type tokof]. rewrite parseEquation_S.
  destruct (Hs f (PRP :: rest) eq_refl ltac:(lsolve)) as (f' & Hf' & E1).
  rewrite E1. destruct f' as [|f']; [lsolve|].
  rewrite TT_cons, addsub_loop_S. reflexivity.
Qed.

Lemma fac_prod ts (x : Expr num) : ts <> [] -> FacR ts x -> ProdR ts x.
Proof.
  intros Hne Hf f rest Hl. destruct ts as [|t ts]; [congruence|].
  destruct f as [|f]; [lsolve|]. rewrite parseMultiplyDivide_S.
  rewrite Hf by lsolve. exists f. split; [lsolve|reflexivity].
Qed.

Lemma fac_mstep op ts (x : Expr num) :
  ts <> [] -> FacR ts x -> multiplicative op = true ->
  ptoks_right op x (ptoks x) = ts -> MStep op ts (fun acc => BinaryExpression op acc x).
Proof.
  intros Hne Hf Hm Hr. split.
  - intros acc. rewrite ptoks_bin, Hr. split; [reflexivity|].
    simpl. unfold multiplicative in Hm. destruct (additive op); easy.
  - intros f acc rest Hl. destruct ts as [|t ts]; [congruence|].
    destruct f as [|f]; [lsolve|]. rewrite TT_cons, muldiv_loop_S, muldiv_op_mul by exact Hm.
    rewrite Hf by lsolve. exists f. split; [lsolve|reflexivity].
Qed.

Lemma prod_done ts (x : Expr num) f rest :
  ProdR ts x -> stop_mul rest = true -> 6 * length (ts ++ rest) + 4 <= f ->
  parseMultiplyDivide f (TT (ts ++ rest)) = inr (x, TT rest).
Proof.
  intros Hp Hs Hl. destruct (Hp f rest Hl) as (f' & Hf' & E). rewrite E.
  destruct f' as [|f']; [lsolve|]. apply muldiv_loop_stop, Hs.
Qed.

Lemma ptoks_left_prod op (y : Expr num) yt : bcls y <> Some true -> ptoks_left op y yt = yt.
Proof.
  intros Hy. destruct y as [| |o ? ?|]; try reflexivity. simpl in Hy. unfold ptoks_left.
  destruct (additive o); [congruence|reflexivity].
Qed.

Lemma mstep_comp op o lt rt (g1 g2 : Expr num -> Expr num) :
  MStep op lt g1 -> MStep o rt g2 -> MStep op (lt ++ POp o :: rt) (fun acc => g2 (g1 acc)).
Proof.
  intros [Hp1 Hf1] [Hp2 Hf2]. split.
  - intros acc. destruct (Hp1 acc) as [E1 B1]. destruct (Hp2 (g1 acc)) as [E2 B2].
    rewrite E2, ptoks_left_prod by congruence. rewrite E1, <- app_assoc. split; [reflexivity|exact B2].
  - intros f acc rest Hl. rewrite <- app_assoc in *. simpl app in *.
    destruct (Hf1 f acc (POp o :: rt ++ rest) ltac:(lsolve)) as (f1 & Hl1 & E1).
    rewrite E1. destruct (Hf2 f1 (g1 acc) rest ltac:(lsolve)) as (f2 & Hl2 & E2).
    exists f2. split; [lsolve|exact E2].
Qed.

Lemma prod_mstep lt o rt (x : Expr num) g :
  ProdR lt x -> MStep o rt g -> ProdR (lt ++ POp o :: rt) (g x).
Proof.
  intros Hp [_ Hf] f rest Hl. rewrite <- app_assoc. simpl app.
  destruct (Hp f (POp o :: rt ++ rest) ltac:(lsolve)) as (f1 & Hl1 & E1). rewrite E1.
  destruct (Hf f1 x rest ltac:(lsolve)) as (f2 & Hl2 & E2).
  exists f2. split; [lsolve|exact E2].
Qed.

Lemma prod_astep op ts (x : Expr num) :
  ProdR ts x -> additive op = true -> ptoks_right op x (ptoks x) = ts ->
  AStep op ts (fun acc => BinaryExpression op acc x).
Proof.
  intros Hp Ha Hr. split.
  - intros acc. rewrite ptoks_bin, left_add, Hr by exact Ha. split; [reflexivity|].
    simpl. rewrite Ha. reflexivity.
  - intros f acc rest Hs Hl. destruct f as [|f]; [lsolve|].
    rewrite TT_cons, addsub_loop_S, addsub_op_add by exact Ha.
    rewrite (prod_done ts x f rest Hp Hs) by lsolve.
    exists f. split; [lsolve|reflexivity].
Qed.

Lemma prod_sum ts (x : Expr num) : ts <> [] -> ProdR ts x -> SumR ts x.
Proof.
  intros Hne Hp f rest Hs Hl. destruct ts as [|t ts]; [congruence|].
  destruct f as [|f]; [lsolve|]. rewrite parseAddSubtract_S.
  rewrite (prod_done (t :: ts) x f rest Hp Hs) by lsolve.
  exists f. split; [lsolve|reflexivity].
Qed.

Lemma astep_comp op o lt rt (g1 g2 : Expr num -> Expr num) :
  additive o = true ->
  AStep op lt g1 -> AStep o rt g2 -> AStep op (lt ++ POp o :: rt) (fun acc => g2 (g1 acc)).
Proof.
  intros Ho [Hp1 Hf1] [Hp2 Hf2]. split.
  - intros acc. destruct (Hp1 acc) as [E1 B1]. destruct (Hp2 (g1 acc)) as [E2 B2].
    rewrite E2, E1, <- app_assoc. split; [reflexivity|exact B2].
  - intros f acc rest Hs Hl. rewrite <- app_assoc in *. simpl app in *.
    destruct (Hf1 f acc (POp o :: rt ++ rest) Ho ltac:(lsolve)) as (f1 & Hl1 & E1).
    rewrite E1. destruct (Hf2 f1 (g1 acc) rest Hs ltac:(lsolve)) as (f2 & Hl2 & E2).
    exists f2. split; [lsolve|exact E2].
Qed.

Lemma sum_astep lt o rt (x : Expr num) g :
  additive o = true -> SumR lt x -> AStep o rt g -> SumR (lt ++ POp o :: rt) (g x).
Proof.
  intros Ho Hs [_ Hf] f rest Hst Hl. rewrite <- app_assoc. simpl app.
  destruct (Hs f (POp o :: rt ++ rest) Ho ltac:(lsolve)) as (f1 & Hl1 & E1). rewrite E1.
  destruct (Hf f1 x rest Hst ltac:(lsolve)) as (f2 & Hl2 & E2).
  exists f2. split; [lsolve|exact E2].
Qed.

Lemma sum_done ts (x : Expr num) f rest :
  SumR ts x -> stop_mul rest = true -> stop_add rest = true ->
  6 * length (ts ++ rest) + 5 <= f ->
  parseAddSubtract f (TT (ts ++ rest)) = inr (x, TT rest).
Proof.
  intros Hs Hm Ha Hl. destruct (Hs f rest Hm Hl) as (f' & Hf' & E). rewrite E.
  destruct f' as [|f']; [lsolve|]. apply addsub_loop_stop, Ha.
Qed.

Lemma ptoks_right_bcls op (x r : Expr num) rt :
  bcls x = bcls r -> ptoks_right op x rt = ptoks_right op r rt.
Proof.
  destruct x as [| |xo ? ?|], r as [| |ro ? ?|]; simpl; intros E; try discriminate;
    try reflexivity.
  injection E as E. destruct op, xo, ro; cbn in E; try discriminate; reflexivity.
Qed.

Lemma ptoks_left_bcls op (x l : Expr num) lt :
  bcls x = bcls l -> ptoks_left op x lt = ptoks_left op l lt.
Proof.
  destruct x as [| |xo ? ?|], l as [| |lo ? ?|]; simpl; intros E; try discriminate;
    try reflexivity.
  injection E as E. unfold ptoks_left. rewrite E. reflexivity.
Qed.

Lemma ptoks_right_leaf op (x : Expr num) xt : bcls x = None -> ptoks_right op x xt = xt.
Proof. destruct x; try reflexivity; discriminate. Qed.

Lemma ptoks_right_mulbin op (x : Expr num) xt :
  bcls x = Some false -> additive op = true -> ptoks_right op x xt = xt.
Proof.
  destruct x as [| |xo ? ?|]; try discriminate. simpl. intros E Ho. injection E as E.
  destruct op, xo; try discriminate; reflexivity.
Qed.

Lemma ptoks_right_addbin op (x : Expr num) xt :
  bcls x = Some true -> multiplicative op = true -> ptoks_right op x xt = tparen xt.
Proof.
  destruct x as [| |xo ? ?|]; try discriminate. simpl. intros E Ho. injection E as E.
  destruct op, xo; try discriminate; reflexivity.
Qed.

Lemma ptoks_left_addbin op (x : Expr num) xt :
  bcls x = Some true -> multiplicative op = true -> ptoks_left op x xt = tparen xt.
Proof.
  destruct x as [| |xo ? ?|]; try discriminate. simpl. intros E Ho. injection E as E.
  unfold ptoks_left. rewrite E, Ho. reflexivity.
Qed.

Lemma ptoks_right_cases op (r : Expr num) rt : noEq r = true ->
  ptoks_right op r rt = tparen rt \/
  (ptoks_right op r rt = rt /\ (prod_shaped r = true \/ op = OpAdd)).
Proof.
  intros Hn. destruct r as [v|n|ro rl rr|rl rr]; try discriminate Hn;
    try (right; split; [reflexivity | left; reflexivity]).
  destruct op, ro; unfold ptoks_right; simpl;
    first [left; reflexivity | right; split; [reflexivity | auto]].
Qed.

Lemma prod_shaped_of (l : Expr num) : noEq l = true -> bcls l <> Some true ->
  prod_shaped l = true.
Proof.
  intros Hn Hb. destruct l as [| |lo ? ?|]; try reflexivity; try discriminate Hn.
  simpl in *. unfold multiplicative. destruct (additive lo); [congruence|reflexivity].
Qed.

Lemma ptoks_nonnil (e : Expr num) : ptoks e <> [].
Proof.
  destruct e; simpl; try (destruct (js_ltb _ _)); try discriminate;
    intros E; apply app_eq_nil in E as [_ E]; discriminate.
Qed.

Lemma tparen_nonnil ts : tparen ts <> [].
Proof. discriminate. Qed.

Lemma var_not_num s : var_atom s = true -> num_atom s = false.
Proof.
  destruct s as [|c [|c' s]]; try discriminate. simpl.
  destruct (is_digit c); [rewrite andb_false_r; discriminate | reflexivity].
Qed.

Lemma read_leaf ts (x : Expr num) :
  ts <> [] -> FacR ts x -> bcls x = None -> ptoks x = ts ->
  SumR ts x /\ ProdR ts x /\
  (forall op, multiplicative op = true -> exists g, MStep op ts g) /\
  (forall op, additive op = true -> exists g, AStep op ts g).
Proof.
  intros Hne Hf Hb Hp. assert (Hpr : ProdR ts x) by (apply fac_prod; assumption).
  split; [apply prod_sum; assumption|]. split; [exact Hpr|]. split.
  - intros op Hm. eexists. apply (fac_mstep _ _ x); try assumption.
    rewrite ptoks_right_leaf by exact Hb. exact Hp.
  - intros op Ha. eexists. apply (prod_astep _ _ x); try assumption.
    rewrite ptoks_right_leaf by exact Hb. exact Hp.
Qed.

Lemma read_expr (e : Expr num) : noEq e = true -> atoms_read e = true ->
  exists x, ptoks x = ptoks e /\ bcls x = bcls e /\ SumR (ptoks e) x /\
  (prod_shaped e = true -> ProdR (ptoks e) x /\
     forall op, multiplicative op = true -> exists g, MStep op (ptoks e) g) /\
  (forall op, additive op = true -> (prod_shaped e = true \/ op = OpAdd) ->
     exists g, AStep op (ptoks e) g).
Proof.
  induction e as [v|n|op l IHl r IHr|l IHl r IHr]; intros Hn Ha.
  - cbn [atoms_read] in Ha. unfold lit_ok in Ha.
    apply andb_prop in Ha as [Ha Hr]. apply andb_prop in Ha as [Hv Hs].
    cbv zeta in Hr. apply andb_prop in Hr as [Hw Heq]. apply negb_true_iff in Hv, Hw.
    apply String.eqb_eq in Heq.
    set (s := js_toString v) in *.
    set (x := NumberLiteral (num:=num) (js_parseFloat s)).
    assert (Hpe : ptoks (NumberLiteral v) = [PAtom s]) by (simpl; rewrite Hv; reflexivity).
    assert (Hpx : ptoks x = [PAtom s]) by (simpl; rewrite Hw, Heq; reflexivity).
    assert (Hf : FacR [PAtom s] x) by (pose proof (fac_atom s) as F; rewrite Hs in F; exact F).
    rewrite Hpe. destruct (read_leaf [PAtom s] x ltac:(discriminate) Hf eq_refl Hpx)
      as (Hsum & Hprod & Hm & Hadd).
    exists x. repeat split; auto.
  - cbn [atoms_read] in Ha. pose proof (fac_atom n) as Hf. rewrite var_not_num in Hf by exact Ha.
    destruct (read_leaf [PAtom n] (Var n) ltac:(discriminate) Hf eq_refl eq_refl)
      as (Hsum & Hprod & Hm & Hadd).
    exists (Var n). repeat split; auto.
  - cbn [noEq atoms_read] in Hn, Ha.
    apply andb_prop in Hn as [Hnl Hnr]. apply andb_prop in Ha as [Hal Har].
    destruct (IHl Hnl Hal) as (xl & Exl & Bl & Sl & Pl & Al).
    destruct (IHr Hnr Har) as (xr & Exr & Br & Sr & Pr & Ar).
    clear IHl IHr. rewrite ptoks_bin.
    set (PR := ptoks_right op r (ptoks r)).
    destruct (additive op) eqn:Hao.
    + rewrite left_add by exact Hao.
      destruct (Al OpAdd eq_refl (or_intror eq_refl)) as [gl Hgl].
      assert (HR : exists g, AStep op PR g).
      { destruct (ptoks_right_cases op r (ptoks r) Hnr) as [Hp | [Hp Hc]].
        - eexists. apply (prod_astep _ _ xr); [| exact Hao |].
          + subst PR. rewrite Hp. apply fac_prod; [apply tparen_nonnil|].
            apply fac_paren, Sr.
          + rewrite (ptoks_right_bcls op xr r) by exact Br. rewrite Exr. reflexivity.
        - subst PR. rewrite Hp. apply Ar; assumption. }
      destruct HR as [gr Hgr].
      exists (gr xl). split; [|split; [|split; [|split]]].
      * destruct Hgr as [Hp _]. destruct (Hp xl) as [E _]. rewrite E, Exl. reflexivity.
      * destruct Hgr as [Hp _]. destruct (Hp xl) as [_ E]. rewrite E. simpl. rewrite Hao. reflexivity.
      * apply sum_astep; assumption.
      * simpl. unfold multiplicative. rewrite Hao. discriminate.
      * intros op' Ho' [Hps | ->].
        -- simpl in Hps. unfold multiplicative in Hps. rewrite Hao in Hps. discriminate.
        -- eexists. apply astep_comp; eassumption.
    + assert (Hm : multiplicative op = true) by (unfold multiplicative; rewrite Hao; reflexivity).
      set (PL := ptoks_left op l (ptoks l)).
      assert (HL : ProdR PL xl /\
                   (forall op', multiplicative op' = true -> exists g, MStep op' PL g) /\
                   ptoks_left op xl (ptoks xl) = PL).
      { destruct (bcls l) as [[|]|] eqn:Hbl.
        - assert (HPL : PL = tparen (ptoks l)) by (apply ptoks_left_addbin; assumption).
          assert (Hfl : FacR PL xl) by (rewrite HPL; apply fac_paren, Sl).
          split; [apply fac_prod; [rewrite HPL; apply tparen_nonnil | exact Hfl]|].
          split.
          + intros op' Hm'. eexists. apply (fac_mstep _ _ xl); try assumption.
            * rewrite HPL. apply tparen_nonnil.
            * rewrite ptoks_right_addbin by (congruence || assumption). rewrite Exl. symmetry; exact HPL.
          + rewrite ptoks_left_addbin by (congruence || assumption). rewrite Exl. symmetry; exact HPL.
        - assert (Hps : prod_shaped l = true) by (apply prod_shaped_of; [exact Hnl | congruence]).
          assert (HPL : PL = ptoks l) by (apply ptoks_left_prod; congruence).
          destruct (Pl Hps) as [Hp Hms]. rewrite HPL. split; [exact Hp|]. split; [exact Hms|].
          rewrite ptoks_left_prod by congruence. exact Exl.
        - assert (Hps : prod_shaped l = true) by (apply prod_shaped_of; [exact Hnl | congruence]).
          assert (HPL : PL = ptoks l) by (apply ptoks_left_prod; congruence).
          destruct (Pl Hps) as [Hp Hms]. rewrite HPL. split; [exact Hp|]. split; [exact Hms|].
          rewrite ptoks_left_prod by congruence. exact Exl. }
      destruct HL as (HPp & HPm & HPe).
      assert (HR : exists g, MStep op PR g).
      { destruct (ptoks_right_cases op r (ptoks r) Hnr) as [Hp | [Hp [Hc | ->]]].
        - eexists. apply (fac_mstep _ _ xr); [subst PR; rewrite Hp; apply tparen_nonnil | | exact Hm |].
          + subst PR. rewrite Hp. apply fac_paren, Sr.
          + rewrite (ptoks_right_bcls op xr r) by exact Br. rewrite Exr. reflexivity.
        - subst PR. rewrite Hp. apply (proj2 (Pr Hc)), Hm.
        - discriminate Hao. }
      destruct HR as [gr Hgr].
      assert (Hx : ptoks (gr xl) = (PL ++ POp op :: PR)%list).
      { destruct Hgr as [Hp _]. destruct (Hp xl) as [E _]. rewrite E, HPe. reflexivity. }
      assert (Hb : bcls (gr xl) = Some false) by (destruct Hgr as [Hp _]; apply (Hp xl)).
      assert (Hprod : ProdR (PL ++ POp op :: PR) (gr xl)) by (apply prod_mstep; assumption).
      exists (gr xl). split; [exact Hx|]. split; [simpl; rewrite Hb, Hao; reflexivity|].
      split; [apply prod_sum; [intros E; apply app_eq_nil in E as [_ E]; discriminate | exact Hprod]|].
      split.
      * intros _. split; [exact Hprod|]. intros op' Hm'.
        destruct (HPm op' Hm') as [gl Hgl]. eexists. apply mstep_comp; eassumption.
      * intros op' Ho' _. eexists. apply (prod_astep _ _ (gr xl)); [exact Hprod | exact Ho' |].
        rewrite ptoks_right_mulbin by assumption. exact Hx.
  - discriminate Hn.
Qed.

Lemma toks_ok_app (a b : list ptok) :
  toks_ok a = true -> toks_ok b = true -> not_atom_head b = true ->
  toks_ok (a ++ b) = true.
Proof.
  induction a as [|t a IH]; intros Ha Hb Hh; [exact Hb|].
  destruct t; simpl in *; try (apply IH; assumption).
  apply andb_prop in Ha as [Ha Ht]. apply andb_prop in Ha as [Ha Hn].
  rewrite Ha, IH by assumption. simpl.
  destruct a as [|t' a']; simpl; [rewrite Hh; reflexivity|].
  destruct t'; try reflexivity; discriminate.
Qed.

Lemma toks_ok_if (b : bool) ts :
  toks_ok ts = true -> toks_ok (if b then tparen ts else ts) = true.
Proof. destruct b; [intros; simpl; apply toks_ok_app; auto | auto]. Qed.

Lemma toks_ok_ptoks (e : Expr num) : atoms_read e = true -> toks_ok (ptoks e) = true.
Proof.
  induction e as [v|x|op l IHl r IHr|l IHl r IHr]; intros Ha; cbn [atoms_read] in Ha.
  - unfold lit_ok in Ha. apply andb_prop in Ha as [Ha _]. apply andb_prop in Ha as [Hv Hs].
    apply negb_true_iff in Hv. simpl. rewrite Hv. simpl. rewrite Hs. reflexivity.
  - simpl. rewrite Ha, orb_true_r. reflexivity.
  - apply andb_prop in Ha as [Hl Hr]. rewrite ptoks_bin.
    apply toks_ok_app; [| |reflexivity].
    + destruct l; try (apply IHl, Hl). unfold ptoks_left. apply toks_ok_if, IHl, Hl.
    + simpl. destruct r; try (apply IHr, Hr). unfold ptoks_right. cbv zeta.
      repeat apply toks_ok_if. apply IHr, Hr.
  - apply andb_prop in Ha as [Hl Hr]. simpl.
    apply toks_ok_app; [apply IHl, Hl | apply IHr, Hr | reflexivity].
Qed.

Lemma length_TT ts : length (TT ts) = length ts.
Proof. apply length_map. Qed.

Lemma parse_printed (e : Expr num) :
  (noEq e || rootEq e) = true -> atoms_read e = true ->
  exists x, parse (TT (ptoks e)) = inr x /\ ptoks x = ptoks e.
Proof.
  intros He Ha. unfold parse, parse_fuel. rewrite length_TT.
  apply orb_prop in He as [He|He].
  - destruct (read_expr e He Ha) as (x & Ex & _ & Sx & _).
    replace (6 * length (ptoks e) + 6) with (S (6 * length (ptoks e) + 5)) by lia.
    rewrite parseEquation_S.
    pose proof (sum_done (ptoks e) x (6 * length (ptoks e) + 5) [] Sx eq_refl eq_refl
                  ltac:(rewrite app_nil_r; lia)) as E.
    rewrite app_nil_r in E. rewrite E. exists x. split; [reflexivity | exact Ex].
  - destruct e as [| | |l r]; try discriminate He. cbn [rootEq] in He.
    apply andb_prop in He as [Hl Hr]. cbn [atoms_read] in Ha. apply andb_prop in Ha as [Hal Har].
    destruct (read_expr l Hl Hal) as (xl & Exl & _ & Sl & _).
    destruct (read_expr r Hr Har) as (xr & Exr & _ & Sr & _).
    cbn [ptoks]. set (n := length (ptoks l ++ PEq :: ptoks r)).
    replace (6 * n + 6) with (S (6 * n + 5)) by lia. rewrite parseEquation_S.
    rewrite (sum_done (ptoks l) xl (6 * n + 5) (PEq :: ptoks r) Sl eq_refl eq_refl)
      by (subst n; lia).
    rewrite TT_cons. cbn [tokof tok_is tok_type].
    pose proof (sum_done (ptoks r) xr (6 * n + 5) [] Sr eq_refl eq_refl
                  ltac:(subst n; rewrite !length_app; simpl; lia)) as E.
    rewrite app_nil_r in E. rewrite E. exists (Equation xl xr).
    split; [reflexivity|]. simpl. rewrite Exl, Exr. reflexivity.
Qed.

Lemma print_reparse (e : Expr num) :
  (noEq e || rootEq e) = true -> atoms_read e = true ->
  exists ts e', tokenize (exprToString e) = inr ts /\ parse ts = inr e' /\
                exprToString e' = exprToString e.
Proof.
  intros He Ha. destruct (parse_printed e He Ha) as (x & Ep & Ex).
  exists (TT (ptoks e)), x. rewrite !print_render, Ex. split; [|split; [exact Ep | reflexivity]].
  apply tokenize_render, toks_ok_ptoks, Ha.
Qed.

End ReadParse.


(** C1 (amended): for every expression or equation [e] whose [Equation]
    node, if any, is at the root, whose variables are one-letter names and
    whose number literals are non-negative, printed as decimal numerals that
    [parseFloat] reads back to a non-negative number printed the same way,
    tokenizing and parsing the printed form of [e] succeeds and gives a tree
    whose printed form is the printed form of [e], character for character. *)
Theorem C1_print_reparse (e : Expr float) :
  (noEq e || rootEq e) = true -> atoms_read e = true ->
  exists ts (e' : Expr float),
    tokenize (exprToString e) = inr ts /\ parse ts = inr e' /\
    exprToString e' = exprToString e.
Proof. apply print_reparse. Qed.

Lemma C1_witness :
  exprToString rt_sample = "x - (2 + y) = 0.25 / (4 * z)" /\
  (noEq rt_sample || rootEq rt_sample) = true /\ atoms_read rt_sample = true /\
  exists ts (e' : Expr float),
    tokenize (exprToString rt_sample) = inr ts /\ parse ts = inr e' /\
    exprToString e' = exprToString rt_sample.
Proof.
  split; [vm_compute; reflexivity|]. split; [vm_compute; reflexivity|].
  split; [vm_compute; reflexivity|].
  apply (C1_print_reparse rt_sample); vm_compute; reflexivity.
Defined.


(** ** Code around the claims: [findClosingParen] *)

Lemma fcp_scan_err ts i d msg : fcp_scan ts i d = inl msg -> msg = no_closing_msg.
Proof.
  revert i d. induction ts as [|t ts IH]; intros i d H; cbn [fcp_scan] in H.
  - injection H as <-. reflexivity.
  - destruct (tok_type t); try (apply (IH _ _ H)).
    destruct (Z.eqb (d - 1) 0); [discriminate|apply (IH _ _ H)].
Qed.

Lemma fcp_scan_spec ts i d r :
  (0 < d)%Z ->
  fcp_scan ts i d = inr r <->
  exists m, r = i + m /\ m < length ts /\ (d + delta_sum (firstn (S m) ts) = 0)%Z /\
            forall m', m' < m -> (0 < d + delta_sum (firstn (S m') ts))%Z.
Proof.
  revert i d. induction ts as [|t ts IH]; intros i d Hd.
  - split; [discriminate|]. intros [m [_ [Hm _]]]. simpl in Hm. lia.
  - assert (Hstep : forall d', (0 < d')%Z -> (d' = d + tok_delta t)%Z ->
              fcp_scan ts (S i) d' = inr r <->
              exists m, r = i + m /\ m < length (t :: ts) /\
                (d + delta_sum (firstn (S m) (t :: ts)) = 0)%Z /\
                forall m', m' < m -> (0 < d + delta_sum (firstn (S m') (t :: ts)))%Z).
    { intros d' Hd' Ed. rewrite (IH (S i) d' Hd'). cbn [length].
      assert (Hc : forall m, delta_sum (firstn (S (S m)) (t :: ts)) = (tok_delta t + delta_sum (firstn (S m) ts))%Z)
        by reflexivity.
      assert (H0 : delta_sum (firstn 1 (t :: ts)) = (tok_delta t + 0)%Z) by reflexivity.
      split.
      - intros [m [-> [Hm [Hz Hpos]]]]. exists (S m). repeat split; [lia|lia| |].
        + rewrite Hc. lia.
        + intros [|m'] Hm'; [rewrite H0; lia|]. rewrite Hc. specialize (Hpos m'). lia.
      - intros [[|m] [-> [Hm [Hz Hpos]]]].
        + rewrite H0 in Hz. lia.
        + exists m. rewrite Hc in Hz. repeat split; [lia|lia|lia|].
          intros m' Hm'. specialize (Hpos (S m')). rewrite Hc in Hpos. lia. }
    cbn [fcp_scan]. unfold tok_delta in Hstep.
    destruct (tok_type t) eqn:Et; try (apply Hstep; lia).
    destruct (Z.eqb (d - 1) 0) eqn:Ez.
    + apply Z.eqb_eq in Ez. split.
      * intros E. injection E as <-. exists 0. repeat split; [lia|simpl; lia| |].
        -- change (d + (tok_delta t + 0) = 0)%Z. unfold tok_delta. rewrite Et. lia.
        -- intros m' Hm'. lia.
      * intros [[|m] [-> [_ [_ Hpos]]]]; [f_equal; lia|].
        specialize (Hpos 0 ltac:(lia)). change (0 < d + (tok_delta t + 0))%Z in Hpos.
        unfold tok_delta in Hpos. rewrite Et in Hpos. lia.
    + apply Z.eqb_neq in Ez. apply Hstep; lia.
Qed.

(** X1: [findClosingParen tokens openIndex] returns [i] exactly when [i]
    is the first index after [openIndex] where the nesting depth, counted
    from 1 over the tokens after [openIndex], falls to 0; otherwise it
    throws "No matching closing parenthesis found.". *)
Theorem X_findClosingParen_spec tokens openIndex :
  (forall i, findClosingParen tokens openIndex = inr i <-> closes_at tokens openIndex i) /\
  (forall msg, findClosingParen tokens openIndex = inl msg -> msg = no_closing_msg).
Proof.
  split; [|apply fcp_scan_err].
  intros i. unfold findClosingParen, closes_at, depth_at.
  rewrite fcp_scan_spec by lia. rewrite length_skipn. split.
  - intros [m [-> [Hm [Hz Hpos]]]]. repeat split; [lia|lia| |].
    + replace (S openIndex + m - openIndex) with (S m) by lia. exact Hz.
    + intros j Hj. replace (j - openIndex) with (S (j - S openIndex)) by lia.
      apply Hpos. lia.
  - intros [Hi [Hz Hpos]]. exists (i - S openIndex). repeat split; [lia|lia| |].
    + replace (S (i - S openIndex)) with (i - openIndex) by lia. exact Hz.
    + intros m' Hm'. specialize (Hpos (S openIndex + m') ltac:(lia)).
      replace (S openIndex + m' - openIndex) with (S m') in Hpos by lia. exact Hpos.
Qed.

(** ** The tokenizer: tokens, text and errors *)

Lemma span_digits_fst s :
  let (a, b) := span_digits s in
  span_digits a = (a, EmptyString) /\ (forall d R', b = String d R' -> is_digit d = false).
Proof.
  induction s as [|d t IH]; simpl; [split; [reflexivity|discriminate]|].
  destruct (is_digit d) eqn:Hd.
  - destruct (span_digits t) as [a b]. destruct IH as [Ha Hb]. simpl. rewrite Hd, Ha. auto.
  - split; [reflexivity|]. intros d' R' E. injection E as <- _. exact Hd.
Qed.

Lemma lex_rest_numeral t : let (lx, r) := lex_rest t in numeral_rest lx = true.
Proof.
  unfold numeral_rest. assert (Hgoal : forall lx, lex_rest lx = (lx, EmptyString) ->
    (let (a, r) := lex_rest lx in String.eqb a lx && String.eqb r "") = true).
  { intros lx E. rewrite E, !String.eqb_refl. reflexivity. }
  unfold lex_rest at 1. pose proof (span_digits_fst t) as Hf.
  destruct (span_digits t) as [ip r] eqn:Et. destruct Hf as [Hip Hr].
  assert (Hplain : lex_rest ip = (ip, EmptyString)) by (unfold lex_rest; rewrite Hip; reflexivity).
  destruct r as [|dot [|d2 r']]; try (apply Hgoal, Hplain).
  destruct (Ascii.eqb dot "." && is_digit d2) eqn:Hc; [|apply Hgoal, Hplain].
  apply andb_prop in Hc as [Hdot Hd2]. apply Ascii.eqb_eq in Hdot. subst dot.
  pose proof (span_digits_fst r') as Hf'. destruct (span_digits r') as [fp r''] eqn:Er.
  destruct Hf' as [Hfp _]. apply Hgoal.
  unfold lex_rest. rewrite span_digits_whole; [|exact Hip|].
  - cbn -[span_digits is_digit]. rewrite Hd2, Hfp. reflexivity.
  - intros d R' E. injection E as <- _. reflexivity.
Qed.

Lemma remove_spaces_app a b : remove_spaces (a ++ b) = remove_spaces a ++ remove_spaces b.
Proof. induction a as [|c a IH]; [reflexivity|]. simpl. destruct (is_space c); rewrite IH; reflexivity. Qed.

Lemma span_digits_no_space s : let (a, b) := span_digits s in remove_spaces a = a.
Proof.
  induction s as [|d t IH]; simpl; [reflexivity|].
  destruct (is_digit d) eqn:Hd; [|reflexivity].
  destruct (span_digits t) as [a b]. simpl. rewrite (is_digit_not_space d Hd), IH. reflexivity.
Qed.

Lemma lex_rest_no_space t : let (lx, r) := lex_rest t in remove_spaces lx = lx.
Proof.
  unfold lex_rest. pose proof (span_digits_no_space t) as Hs.
  destruct (span_digits t) as [ip r].
  destruct r as [|dot [|d2 r']]; try exact Hs.
  destruct (Ascii.eqb dot "." && is_digit d2) eqn:Hc; [|exact Hs].
  apply andb_prop in Hc as [_ Hd2].
  pose proof (span_digits_no_space r') as Hs'. destruct (span_digits r') as [fp r''].
  rewrite !remove_spaces_app, Hs. simpl. rewrite (is_digit_not_space d2 Hd2), Hs'. reflexivity.
Qed.

Lemma lex_rest_length t : let (lx, r) := lex_rest t in String.length r <= String.length t.
Proof.
  pose proof (lex_rest_app t) as E. destruct (lex_rest t) as [lx r].
  rewrite E. rewrite str_length_app. lia.
Qed.

(** X2: the values of the tokens [tokenize] returns, concatenated, are the
    input without its whitespace (the characters [/\s/] matches, the
    no-break space U+00A0 among them). *)
Theorem X_tokenize_text s ts : tokenize s = inr ts -> token_text ts = remove_spaces s.
Proof.
  remember (String.length s) as n eqn:Hn. assert (Hle : String.length s <= n) by lia. clear Hn.
  revert s ts Hle. induction n as [|n IH]; intros s ts Hle Hs.
  - destruct s; [|simpl in Hle; lia]. injection Hs as <-. reflexivity.
  - destruct s as [|c rest]; [injection Hs as <-; reflexivity|].
    simpl in Hle.
    destruct (is_space c) eqn:Hsp.
    + rewrite tokenize_space in Hs by exact Hsp. simpl. rewrite Hsp. apply IH; [lia|exact Hs].
    + destruct (is_digit c) eqn:Hd.
      * rewrite tokenize_digit in Hs by exact Hd.
        pose proof (lex_rest_app rest) as Ea. pose proof (lex_rest_no_space rest) as Ens.
        pose proof (lex_rest_length rest) as Elen.
        destruct (lex_rest rest) as [lx r].
        destruct (tokenize r) as [err|ts'] eqn:Er; [discriminate|]. injection Hs as <-.
        cbn [token_text fold_right tok_value]. fold (token_text ts').
        rewrite (IH r ts') by (lia || exact Er).
        simpl. rewrite Hsp, Ea, remove_spaces_app, Ens. reflexivity.
      * rewrite tokenize_other in Hs by assumption.
        destruct (char_token c) as [ty|]; [|discriminate].
        destruct (tokenize rest) as [err|ts'] eqn:Er; [discriminate|]. injection Hs as <-.
        cbn [token_text fold_right tok_value]. fold (token_text ts').
        rewrite (IH rest ts') by (lia || exact Er). simpl. rewrite Hsp. reflexivity.
Qed.

Lemma char_token_not_number c : char_token c <> Some TokenType.Number.
Proof.
  unfold char_token.
  repeat match goal with |- context [if ?b then _ else _] => destruct b end; discriminate.
Qed.

Lemma tok_is_refl ty v : tok_is ty (mkToken ty v) = true.
Proof. destruct ty; reflexivity. Qed.

(** X3: every token [tokenize] returns is a [Number] token holding a
    numeral (digits, then optionally a ['.'] and digits) or a token holding
    the one character that gives its type. *)
Theorem X_tokenize_shapes s ts : tokenize s = inr ts -> forallb tok_shape ts = true.
Proof.
  remember (String.length s) as n eqn:Hn. assert (Hle : String.length s <= n) by lia. clear Hn.
  revert s ts Hle. induction n as [|n IH]; intros s ts Hle Hs.
  - destruct s; [|simpl in Hle; lia]. injection Hs as <-. reflexivity.
  - destruct s as [|c rest]; [injection Hs as <-; reflexivity|].
    simpl in Hle.
    destruct (is_space c) eqn:Hsp.
    + rewrite tokenize_space in Hs by exact Hsp. apply (IH rest); [lia|exact Hs].
    + destruct (is_digit c) eqn:Hd.
      * rewrite tokenize_digit in Hs by exact Hd.
        pose proof (lex_rest_numeral rest) as Enum.
        pose proof (lex_rest_length rest) as Elen.
        destruct (lex_rest rest) as [lx r].
        destruct (tokenize r) as [err|ts'] eqn:Er; [discriminate|]. injection Hs as <-.
        cbn [forallb]. rewrite (IH r ts') by (lia || exact Er).
        unfold tok_shape. cbn [tok_is tok_type tok_value num_atom]. rewrite Hd, Enum. reflexivity.
      * rewrite tokenize_other in Hs by assumption.
        destruct (char_token c) as [ty|] eqn:Ec; [|discriminate].
        destruct (tokenize rest) as [err|ts'] eqn:Er; [discriminate|]. injection Hs as <-.
        cbn [forallb]. rewrite (IH rest ts') by (lia || exact Er).
        unfold tok_shape. cbn [tok_value char_str]. rewrite Ec, tok_is_refl.
        destruct ty; try reflexivity. exfalso. exact (char_token_not_number c Ec).
Qed.

(** X4: [tokenize] fails only with ["Unexpected character: c"] for a
    character [c] of the input that is not whitespace ([/\s/], U+00A0
    included), a digit, an operator, a parenthesis, ['='] or an ASCII
    letter. *)
Theorem X_tokenize_error s msg :
  tokenize s = inl msg ->
  exists c, msg = ("Unexpected character: " ++ char_str c) /\ has_char c s = true /\
            is_space c = false /\ is_digit c = false /\ char_token c = None.
Proof.
  remember (String.length s) as n eqn:Hn. assert (Hle : String.length s <= n) by lia. clear Hn.
  revert s msg Hle. induction n as [|n IH]; intros s msg Hle Hs.
  - destruct s; [discriminate|simpl in Hle; lia].
  - destruct s as [|c rest]; [discriminate|].
    simpl in Hle.
    assert (Hsub : forall r, String.length r <= String.length rest ->
              (exists c', msg = ("Unexpected character: " ++ char_str c') /\
                has_char c' r = true /\ is_space c' = false /\ is_digit c' = false /\
                char_token c' = None) ->
              (forall c', has_char c' r = true -> has_char c' rest = true) ->
              exists c', msg = ("Unexpected character: " ++ char_str c') /\
                has_char c' (String c rest) = true /\ is_space c' = false /\
                is_digit c' = false /\ char_token c' = None).
    { intros r _ [c' [H1 [H2 H3]]] Hr. exists c'. split; [exact H1|]. split; [|exact H3].
      cbn [has_char]. rewrite (Hr c' H2). apply orb_true_r. }
    destruct (is_space c) eqn:Hsp.
    + rewrite tokenize_space in Hs by exact Hsp.
      apply (Hsub rest); [lia| apply IH; [lia|exact Hs] | auto].
    + destruct (is_digit c) eqn:Hd.
      * rewrite tokenize_digit in Hs by exact Hd.
        pose proof (lex_rest_app rest) as Ea. pose proof (lex_rest_length rest) as Elen.
        destruct (lex_rest rest) as [lx r].
        destruct (tokenize r) as [err|ts'] eqn:Er; [|discriminate]. injection Hs as ->.
        apply (Hsub r); [lia | apply IH; [lia|exact Er] |].
        intros c' Hc'. rewrite Ea, has_char_app, Hc'. apply orb_true_r.
      * rewrite tokenize_other in Hs by assumption.
        destruct (char_token c) as [ty|] eqn:Ec.
        -- destruct (tokenize rest) as [err|ts'] eqn:Er; [|discriminate]. injection Hs as ->.
           apply (Hsub rest); [lia | apply IH; [lia|exact Er] | auto].
        -- injection Hs as <-. exists c. repeat split; auto.
           cbn [has_char]. rewrite Ascii.eqb_refl. reflexivity.
Qed.

Lemma span_digits_app_nd t R :
  (forall d R', R = String d R' -> is_digit d = false) ->
  span_digits (t ++ R) = let (a, b) := span_digits t in (a, b ++ R).
Proof.
  intros HR. induction t as [|d t IH].
  - destruct R as [|d R']; [reflexivity|]. simpl. rewrite (HR d R' eq_refl). reflexivity.
  - simpl. destruct (is_digit d); [|reflexivity]. rewrite IH. destruct (span_digits t); reflexivity.
Qed.

Lemma lex_rest_space t c b :
  is_space c = true ->
  lex_rest (t ++ String c b) = let (lx, r) := lex_rest t in (lx, r ++ String c b).
Proof.
  intros Hc.
  assert (Hnd : is_digit c = false)
    by (destruct (is_digit c) eqn:E; [rewrite (is_digit_not_space c E) in Hc; discriminate|reflexivity]).
  assert (Hdot : Ascii.eqb c "." = false)
    by (destruct (Ascii.eqb c ".") eqn:E; [apply Ascii.eqb_eq in E; subst; discriminate|reflexivity]).
  unfold lex_rest. rewrite span_digits_app_nd
    by (intros d R' E; injection E as <- _; exact Hnd).
  destruct (span_digits t) as [ip r].
  destruct r as [|dot [|d2 r']]; cbn [append].
  - destruct b; [reflexivity|]. rewrite Hdot. reflexivity.
  - rewrite Hnd, andb_false_r. reflexivity.
  - destruct (Ascii.eqb dot "." && is_digit d2); [|reflexivity].
    rewrite span_digits_app_nd by (intros d R' E; injection E as <- _; exact Hnd).
    destruct (span_digits r'); reflexivity.
Qed.

Lemma tokenize_space_split a c b :
  is_space c = true ->
  tokenize (a ++ String c b) =
  match tokenize a with
  | inl err => inl err
  | inr ta => match tokenize b with inl err => inl err | inr tb => inr (ta ++ tb)%list end
  end.
Proof.
  intros Hc.
  remember (String.length a) as n eqn:Hn. assert (Hle : String.length a <= n) by lia. clear Hn.
  revert a Hle. induction n as [|n IH]; intros a Hle.
  - destruct a; [|simpl in Hle; lia]. cbn [append]. rewrite tokenize_space by exact Hc.
    cbn [tokenize]. destruct (tokenize b); reflexivity.
  - destruct a as [|c0 a'].
    + cbn [append]. rewrite tokenize_space by exact Hc.
      cbn [tokenize]. destruct (tokenize b); reflexivity.
    + simpl in Hle. cbn [append].
      destruct (is_space c0) eqn:Hsp.
      * rewrite !tokenize_space by exact Hsp. apply IH. lia.
      * destruct (is_digit c0) eqn:Hd.
        -- rewrite !tokenize_digit by exact Hd. rewrite lex_rest_space by exact Hc.
           pose proof (lex_rest_length a') as Elen.
           destruct (lex_rest a') as [lx r]. rewrite IH by lia.
           destruct (tokenize r); [reflexivity|]. cbn [cons_tok].
           destruct (tokenize b); reflexivity.
        -- rewrite !tokenize_other by assumption.
           destruct (char_token c0); [|reflexivity].
           rewrite IH by lia. destruct (tokenize a'); [reflexivity|]. cbn [cons_tok].
           destruct (tokenize b); reflexivity.
Qed.

(** X5: tokenizing two texts joined by a whitespace character (one that
    [/\s/] matches, U+00A0 included) gives the tokens of the first, then
    those of the second; the first error wins. *)
Theorem X_tokenize_space_split a c b :
  is_space c = true ->
  tokenize (a ++ String c b) =
  match tokenize a with
  | inl err => inl err
  | inr ta => match tokenize b with inl err => inl err | inr tb => inr (ta ++ tb)%list end
  end.
Proof. apply tokenize_space_split. Qed.

(** X6: [getInversePermutation] undoes itself: applied twice it gives back
    any label. *)
Theorem X_getInversePermutation_involutive p :
  getInversePermutation (getInversePermutation p) = p.
Proof.
  destruct p as [|c rest]; [reflexivity|]. unfold getInversePermutation.
  destruct (Ascii.eqb c "+") eqn:E1; [apply Ascii.eqb_eq in E1; subst; reflexivity|].
  destruct (Ascii.eqb c "-") eqn:E2; [apply Ascii.eqb_eq in E2; subst; reflexivity|].
  destruct (Ascii.eqb c "*") eqn:E3; [apply Ascii.eqb_eq in E3; subst; reflexivity|].
  destruct (Ascii.eqb c "/") eqn:E4; [apply Ascii.eqb_eq in E4; subst; reflexivity|].
  rewrite E1, E2, E3, E4. reflexivity.
Qed.

(** ** Labels applied by [applyPermutation] *)

Section LabelParse.
Context {num : Type} `{JSNum num}.

Ltac lsolve := repeat (rewrite ?length_app in *; simpl length in *); lia.

Lemma prod_step_atom ts (x : Expr num) o a :
  ProdR ts x -> multiplicative o = true ->
  ProdR (ts ++ [POp o; PAtom a]) (BinaryExpression o x (atom_expr a)).
Proof.
  intros Hp Ho f rest Hl. rewrite <- app_assoc. simpl app.
  destruct (Hp f (POp o :: PAtom a :: rest) ltac:(lsolve)) as (f1 & Hl1 & E1). rewrite E1.
  destruct f1 as [|f1]; [lsolve|].
  rewrite TT_cons, muldiv_loop_S, muldiv_op_mul by exact Ho.
  change (TT (PAtom a :: rest)) with (TT ([PAtom a] ++ rest)).
  rewrite (fac_atom a f1 rest) by lsolve.
  exists f1. split; [lsolve|reflexivity].
Qed.

Lemma sum_step_atom ts (x : Expr num) o a :
  SumR ts x -> additive o = true ->
  SumR (ts ++ [POp o; PAtom a]) (BinaryExpression o x (atom_expr a)).
Proof.
  intros Hs Ho f rest Hst Hl. rewrite <- app_assoc. simpl app.
  destruct (Hs f (POp o :: PAtom a :: rest) Ho ltac:(lsolve)) as (f1 & Hl1 & E1). rewrite E1.
  destruct f1 as [|f1]; [lsolve|].
  rewrite TT_cons, addsub_loop_S, addsub_op_add by exact Ho.
  change (TT (PAtom a :: rest)) with (TT ([PAtom a] ++ rest)).
  rewrite (prod_done [PAtom a] (atom_expr a) f1 rest
             (fac_prod [PAtom a] (atom_expr a) ltac:(discriminate) (fac_atom a)) Hst) by lsolve.
  exists f1. split; [lsolve|reflexivity].
Qed.

Lemma tokenize_label o a :
  (num_atom a || var_atom a) = true ->
  tokenize (op_str o ++ a) = inr (TT [POp o; PAtom a]).
Proof.
  intros Ha.
  assert (Ea : tokenize a = inr (TT [PAtom a])).
  { pose proof (tokenize_render [PAtom a]) as E. cbn [render] in E.
    rewrite str_app_nil_r in E. apply E. cbn [toks_ok not_atom_head]. rewrite Ha. reflexivity. }
  destruct o; cbn [op_str append];
    [ rewrite (tokenize_char "+" TokenType.Plus) by reflexivity
    | rewrite (tokenize_char "-" TokenType.Minus) by reflexivity
    | rewrite (tokenize_char "*" TokenType.Multiply) by reflexivity
    | rewrite (tokenize_char "/" TokenType.Divide) by reflexivity ];
    rewrite Ea; reflexivity.
Qed.

Lemma reparse_label (side : Expr num) o a :
  noEq side = true -> atoms_read side = true -> (num_atom a || var_atom a) = true ->
  exists x, reparse_side side (op_str o ++ a) = inr (BinaryExpression o x (atom_expr a)) /\
            exprToString x = exprToString side.
Proof.
  intros Hn Ha Hlab. destruct (read_expr side Hn Ha) as (x & Ex & _ & Sx & _).
  exists x. split; [|rewrite !print_render, Ex; reflexivity].
  set (tp := tparen (ptoks side)).
  assert (Et : tokenize ("(" ++ exprToString side ++ ") " ++ op_str o ++ a) =
               inr (TT (tp ++ [POp o; PAtom a]))).
  { replace ("(" ++ exprToString side ++ ") " ++ op_str o ++ a)
      with (render tp ++ String " " (op_str o ++ a))
      by (subst tp; rewrite render_tparen, print_render; unfold paren;
          rewrite !str_app_assoc; reflexivity).
    rewrite tokenize_space_split by reflexivity.
    rewrite tokenize_render by (apply (toks_ok_if true), toks_ok_ptoks, Ha).
    rewrite tokenize_label by exact Hlab. rewrite TT_app. reflexivity. }
  unfold reparse_side. rewrite Et.
  assert (Ss : SumR (tp ++ [POp o; PAtom a]) (BinaryExpression o x (atom_expr a))).
  { pose proof (fac_prod tp x (tparen_nonnil _) (fac_paren _ _ Sx)) as Px.
    destruct (additive o) eqn:Ho.
    - apply sum_step_atom; [apply prod_sum; [apply tparen_nonnil|exact Px]|exact Ho].
    - apply prod_sum; [intros E; apply app_eq_nil in E as [_ E]; discriminate|].
      apply prod_step_atom; [exact Px|unfold multiplicative; rewrite Ho; reflexivity]. }
  unfold parse, parse_fuel. rewrite length_TT.
  set (n := length (tp ++ [POp o; PAtom a])).
  replace (6 * n + 6) with (S (6 * n + 5)) by lia. rewrite parseEquation_S.
  pose proof (sum_done _ _ (6 * n + 5) [] Ss eq_refl eq_refl
                ltac:(rewrite app_nil_r; subst n; lia)) as E.
  rewrite app_nil_r in E. rewrite E. reflexivity.
Qed.

(** X7: for an equation whose sides are equation-free trees that print as
    they read back, and a label made of an operator and a numeral or a
    one-letter name, [applyPermutation] combines each re-read side with that
    operand by that operator; the re-read sides print as the sides did. *)
Theorem X_applyPermutation_label (l r : Expr num) o a :
  noEq l = true -> atoms_read l = true -> noEq r = true -> atoms_read r = true ->
  (num_atom a || var_atom a) = true ->
  exists l' r',
    applyPermutation (Equation l r) (op_str o ++ a) =
      inr (Equation (BinaryExpression o l' (atom_expr a)) (BinaryExpression o r' (atom_expr a))) /\
    exprToString l' = exprToString l /\ exprToString r' = exprToString r.
Proof.
  intros Hl Hal Hr Har Ha.
  destruct (reparse_label l o a Hl Hal Ha) as (l' & El & Pl).
  destruct (reparse_label r o a Hr Har Ha) as (r' & Er & Pr).
  exists l', r'. unfold applyPermutation. rewrite El, Er. auto.
Qed.

End LabelParse.

(** ** The search tree, its visualization and the stored tree *)

Section VizProps.
Context {num : Type} `{JSNum num}.

Lemma viz_flagged (t : SolutionTree num) b :
  flagged (treeToVisualizationFormat t b) = map exprToString (extractSolutions t).
Proof.
  induction t as [e kids l IH] using SolutionTree_ind'.
  cbn [treeToVisualizationFormat flagged tn_isSolution tn_expr tn_children extractSolutions
       st_expr st_children].
  rewrite map_app. f_equal; [destruct (isRealSolution e); reflexivity|].
  induction IH as [|c cs Hc Hcs IHcs]; [reflexivity|].
  cbn [map flat_map]. rewrite map_app, Hc, IHcs. reflexivity.
Qed.

Lemma viz_timedOut (t : SolutionTree num) b :
  all_timedOut b (treeToVisualizationFormat t b) = true.
Proof.
  induction t as [e kids l IH] using SolutionTree_ind'.
  cbn [treeToVisualizationFormat all_timedOut tn_timedOut tn_children].
  rewrite eqb_reflx. cbn [andb].
  induction IH as [|c cs Hc Hcs IHcs]; [reflexivity|].
  cbn [map forallb]. rewrite Hc. exact IHcs.
Qed.

(** X10: in the tree [treeToVisualizationFormat] builds, the nodes flagged
    [isSolution] print, in pre-order, exactly the equations
    [extractSolutions] collects, and every node carries the given
    [timedOut] flag. *)
Theorem X_viz_flags (t : SolutionTree num) b :
  flagged (treeToVisualizationFormat t b) = map exprToString (extractSolutions t) /\
  all_timedOut b (treeToVisualizationFormat t b) = true.
Proof. split; [apply viz_flagged|apply viz_timedOut]. Qed.

Lemma solve_loop_viz_store now k (root : Expr num) ch md sols st to n r tree n' :
  (sols = extractSolutions (STNode root ch None) \/ 0 < k) ->
  solve_loop_viz now k root ch md sols st to n = (inr (r, tree), n') ->
  solve_loop now k root md sols st to n = (inr r, n') /\
  all_timedOut (timedOut r) tree = true /\
  (timedOut r = false -> flagged tree = map exprToString (solutions r)).
Proof.
  revert ch md sols n. induction k as [|k IH]; intros ch md sols n Hinv Hrun;
    cbn [solve_loop_viz solve_loop] in *.
  - unfold ret in *. injection Hrun as <- <- <-. split; [reflexivity|].
    split; [apply (viz_timedOut (STNode _ _ None))|]. intros _. destruct Hinv as [->|Hk]; [|lia].
    apply (viz_flagged (STNode _ _ None)).
  - unfold bind, date_now, ret in *.
    destruct (Z.gtb (now n - st) to).
    + injection Hrun as <- <- <-. split; [reflexivity|].
      split; [apply (viz_timedOut (STNode _ _ None))|]. discriminate.
    + destruct (buildSolutionTree now md root None md 0 st to (S n)) as [[err|kids] n2];
        [discriminate|].
      destruct (extractSolutions (STNode root kids None)) as [|s0 ss] eqn:E.
      * apply (IH kids (S md) [] n2); [left; symmetry; exact E|exact Hrun].
      * injection Hrun as <- <- <-. split; [reflexivity|].
        split; [apply (viz_timedOut (STNode _ _ None))|]. intros _. cbn [solutions]. rewrite <- E. apply (viz_flagged (STNode _ _ None)).
Qed.

(** X11: when [findSolution] returns, its result is the one of the model
    without the store, every node of the tree it stores for
    [getSolutionTree] carries the returned [timedOut], and when that flag is
    false the nodes flagged [isSolution] print exactly the returned
    solutions. *)
Theorem X_stored_tree now (e : Expr num) timeoutMs n r tree n' :
  findSolution_viz now e timeoutMs n = (inr (r, tree), n') ->
  findSolution now e timeoutMs n = (inr r, n') /\
  all_timedOut (timedOut r) tree = true /\
  (timedOut r = false -> flagged tree = map exprToString (solutions r)).
Proof.
  unfold findSolution_viz, findSolution, bind, date_now. intros Hrun.
  apply (solve_loop_viz_store now maxIterations _ [] 1 [] _ _ _ _ _ _ (or_intror (Nat.lt_0_succ _)) Hrun).
Qed.

(** X12: with a negative [timeoutMs] and a clock that never goes back,
    [findSolution] reports a timeout with no solution for every input, even
    one that is already solved, and stores the bare simplified root. *)
Theorem X_negative_timeout now (e : Expr num) timeoutMs n :
  (forall m, now m <= now (S m))%Z -> (timeoutMs < 0)%Z ->
  findSolution now e timeoutMs n = (inr (mkSolveResult [] true), S (S n)) /\
  findSolution_viz now e timeoutMs n =
    (inr (mkSolveResult [] true, treeToVisualizationFormat (STNode (simplify e) [] None) true),
     S (S n)).
Proof.
  intros Hmono Hto. specialize (Hmono n).
  assert (Hgt : Z.gtb (now (S n) - now n) timeoutMs = true) by (apply Z.gtb_lt; lia).
  unfold findSolution_viz, findSolution, bind, date_now. cbn [maxIterations solve_loop solve_loop_viz].
  unfold bind, date_now, ret. rewrite Hgt. split; reflexivity.
Qed.

Lemma build_shape now steps :
  forall (e : Expr num) last md cd st to n kids n',
  buildSolutionTree now steps e last md cd st to n = (inr kids, n') ->
  Forall (fun c => st_height c <= md - cd /\ solved_unexpanded c = true) kids.
Proof.
  induction steps as [|steps IH]; intros e last md cd st to n kids n' Hrun;
    cbn [buildSolutionTree] in Hrun; unfold bind, ret, lift, throw in Hrun.
  - destruct (timed_out now st to n) as [[err|b] n1]; [discriminate|].
    destruct b; [injection Hrun as <- _; constructor|].
    destruct (Nat.leb md cd); injection Hrun as <- _; constructor.
  - destruct (timed_out now st to n) as [[err|b] n1]; [discriminate|].
    destruct b; [injection Hrun as <- _; constructor|].
    destruct (Nat.leb md cd) eqn:Hmd; [injection Hrun as <- _; constructor|].
    apply Nat.leb_gt in Hmd.
    revert n1 kids n' Hrun. generalize (inverse_filter last (findPermutations e)) as ps.
    induction ps as [|x ps IHps]; intros n1 kids n' Hrun.
    + injection Hrun as <- _. constructor.
    + cbv beta iota in Hrun.
      destruct (timed_out now st to n1) as [[err|b] n2]; [discriminate|].
      destruct b; [injection Hrun as <- _; constructor|].
      destruct (applyPermutation e x) as [err|newSol];
        unfold ret in Hrun; cbv beta iota in Hrun; [discriminate|].
      destruct (isRealSolution (simplify newSol)) eqn:Hsol; cbv beta iota in Hrun.
      * match type of Hrun with
        | context [match ?m ps ?k with _ => _ end] =>
            destruct (m ps k) as [[err|sib] n4] eqn:Esib; [discriminate|]
        end.
        injection Hrun as <- _. constructor; [|exact (IHps _ _ _ Esib)].
        cbn [st_height st_children map solved_unexpanded st_expr forallb].
        rewrite Hsol. split; [simpl; lia|reflexivity].
      * destruct (buildSolutionTree now steps (simplify newSol) (Some x) md (S cd) st to n2)
          as [[err|kids1] n3] eqn:Ek; [discriminate|].
        match type of Hrun with
        | context [match ?m ps ?k with _ => _ end] =>
            destruct (m ps k) as [[err|sib] n4] eqn:Esib; [discriminate|]
        end.
        injection Hrun as <- _. constructor; [|exact (IHps _ _ _ Esib)].
        pose proof (IH _ _ _ _ _ _ _ _ _ Ek) as Hk.
        cbn [st_height st_children solved_unexpanded st_expr]. rewrite Hsol. cbn [negb orb andb].
        split.
        -- assert (list_max (map st_height kids1) <= md - S cd); [|lia].
           apply list_max_le. apply Forall_map. eapply Forall_impl; [|exact Hk].
           intros c [Hc _]. exact Hc.
        -- apply forallb_forall. intros c Hc. rewrite Forall_forall in Hk. apply (Hk c Hc).
Qed.

(** X8: every tree [buildSolutionTree] stores at depth [currentDepth]
    has at most [maxDepth - currentDepth] levels. *)
Theorem X_build_depth now steps (e : Expr num) last md cd st to n kids n' :
  buildSolutionTree now steps e last md cd st to n = (inr kids, n') ->
  forallb (fun c => Nat.leb (st_height c) (md - cd)) kids = true.
Proof.
  intros Hrun. apply forallb_forall. intros c Hc.
  pose proof (build_shape now steps e last md cd st to n kids n' Hrun) as Hs.
  rewrite Forall_forall in Hs. apply Nat.leb_le, (Hs c Hc).
Qed.

(** X9: [buildSolutionTree] never expands a node holding a solved
    equation: such a node has no children. *)
Theorem X_build_solved_leaves now steps (e : Expr num) last md cd st to n kids n' :
  buildSolutionTree now steps e last md cd st to n = (inr kids, n') ->
  forallb solved_unexpanded kids = true.
Proof.
  intros Hrun. apply forallb_forall. intros c Hc.
  pose proof (build_shape now steps e last md cd st to n kids n' Hrun) as Hs.
  rewrite Forall_forall in Hs. apply (Hs c Hc).
Qed.

End VizProps.

(** ** Variables kept by [simplify] *)

Section VarsProps.
Context {num : Type} `{JSNum num}.
Variable p : string -> bool.

Ltac destr_hyps_v :=
  repeat match goal with
  | Hs : Some _ = Some _ |- _ => injection Hs as Hs; subst
  | Hs : None = Some _ |- _ => discriminate Hs
  | Hs : context [match ?x with _ => _ end] |- _ => destruct x eqn:?
  end.

Ltac vars_solve :=
  unfold coeff_term, reassoc_term, lit in *;
  repeat match goal with
  | |- context [if ?x then _ else _] => destruct x eqn:?
  end; simpl in *;
  repeat rewrite andb_true_iff in *; intuition.

Lemma simplifyNode_vars (so : Expr num -> Expr num) op l r :
  (forall x, all_vars p x = true -> all_vars p (so x) = true) ->
  all_vars p l = true -> all_vars p r = true -> all_vars p (simplifyNode so op l r) = true.
Proof.
  intros Hso Hl Hr. unfold simplifyNode.
  destruct (rule_fold op l r) as [x|] eqn:E1.
  { unfold rule_fold in E1. destr_hyps_v. reflexivity. }
  destruct (rule_identity op l r) as [x|] eqn:E2.
  { unfold rule_identity in E2. destr_hyps_v; vars_solve. }
  destruct (rule_like_vars op l r) as [x|] eqn:E3.
  { unfold rule_like_vars in E3. destr_hyps_v; vars_solve. }
  destruct (rule_cancel_right_lit op l r) as [x|] eqn:E4.
  { unfold rule_cancel_right_lit in E4. destr_hyps_v; vars_solve. }
  destruct (rule_cancel_left_lit op l r) as [x|] eqn:E5.
  { unfold rule_cancel_left_lit in E5. destr_hyps_v; vars_solve. }
  destruct (rule_left_binary op l r) as [x|] eqn:E6.
  { unfold rule_left_binary in E6. destr_hyps_v; vars_solve. }
  destruct (rule_like_coeff op l r) as [x|] eqn:E7.
  { unfold rule_like_coeff in E7. destr_hyps_v; vars_solve. }
  destruct (rule_distribute so op l r) as [x|] eqn:E8.
  { unfold rule_distribute in E8. destr_hyps_v; simpl in *;
      repeat rewrite andb_true_iff in *; split; apply Hso; simpl;
      repeat rewrite andb_true_iff in *; intuition. }
  simpl. rewrite Hl, Hr. reflexivity.
Qed.

Lemma simplifyOnce_fuel_vars f (e : Expr num) :
  all_vars p e = true -> all_vars p (simplifyOnce_fuel f e) = true.
Proof.
  revert e. induction f as [|f IH]; intros e He; [exact He|].
  destruct e as [v|n|op l r|l r]; simpl in *; try exact He.
  - apply andb_prop in He as [Hl Hr].
    apply simplifyNode_vars; auto.
  - apply andb_prop in He as [Hl Hr]. rewrite !IH; auto.
Qed.

Lemma all_vars_spec (e : Expr num) :
  all_vars p e = true <-> forall n, In n (vars e) -> p n = true.
Proof.
  induction e as [v|n|op l IHl r IHr|l IHl r IHr]; simpl.
  - split; [intros _ n []|reflexivity].
  - split; [intros Hn m [<-|[]]; exact Hn|intros Hn; apply Hn; left; reflexivity].
  - rewrite andb_true_iff, IHl, IHr. setoid_rewrite in_app_iff. firstorder.
  - rewrite andb_true_iff, IHl, IHr. setoid_rewrite in_app_iff. firstorder.
Qed.

End VarsProps.

Section NoNewVars.
Context {num : Type} `{JSNum num}.

(** X13: [simplify] introduces no variable: every name in its result
    occurs in its input. *)
Theorem X_simplify_no_new_vars (e : Expr num) n :
  In n (vars (simplify e)) -> In n (vars e).
Proof.
  set (p := fun m => existsb (String.eqb m) (vars e)).
  assert (Hp : all_vars p (simplify e) = true).
  { apply (simplify_preserves (fun x => all_vars p x = true)).
    - intros x. apply simplifyOnce_fuel_vars.
    - apply all_vars_spec. intros m Hm. apply existsb_exists. exists m.
      split; [exact Hm|apply String.eqb_refl]. }
  intros Hn. rewrite all_vars_spec in Hp. specialize (Hp n Hn).
  apply existsb_exists in Hp as [m [Hm Eq]]. apply String.eqb_eq in Eq. subst. exact Hm.
Qed.

End NoNewVars.


(** ** Instances of the properties above *)

Lemma X_tokenize_text_witness :
  tokenize sample_input = inr sample_tokens /\
  token_text sample_tokens = remove_spaces sample_input.
Proof.
  split; [vm_compute; reflexivity|].
  apply X_tokenize_text. vm_compute. reflexivity.
Defined.

Lemma X_tokenize_shapes_witness :
  tokenize sample_input = inr sample_tokens /\ forallb tok_shape sample_tokens = true.
Proof.
  split; [vm_compute; reflexivity|].
  apply (X_tokenize_shapes sample_input). vm_compute. reflexivity.
Defined.

Lemma X_tokenize_error_witness :
  tokenize "x # 2" = inl "Unexpected character: #" /\
  exists c, "Unexpected character: #" = ("Unexpected character: " ++ char_str c) /\
            has_char c "x # 2" = true /\ is_space c = false /\ is_digit c = false /\
            char_token c = None.
Proof.
  split; [vm_compute; reflexivity|].
  apply X_tokenize_error. vm_compute. reflexivity.
Defined.

Lemma X_tokenize_space_split_witness :
  is_space (ascii_of_nat 160) = true /\
  tokenize ("(x + 1)" ++ String (ascii_of_nat 160) "-3") =
  match tokenize "(x + 1)" with
  | inl err => inl err
  | inr ta => match tokenize "-3" with inl err => inl err | inr tb => inr (ta ++ tb)%list end
  end.
Proof.
  split; [reflexivity|].
  apply X_tokenize_space_split. reflexivity.
Defined.

Lemma X_applyPermutation_label_witness :
  let l : Expr float := BinaryExpression OpSub (Var "x") (BinaryExpression OpAdd (lit 2) (Var "y")) in
  let r : Expr float := BinaryExpression OpDiv (NumberLiteral 0.25%float)
                          (BinaryExpression OpMul (lit 4) (Var "z")) in
  noEq l = true /\ atoms_read l = true /\ noEq r = true /\ atoms_read r = true /\
  (num_atom "3" || var_atom "3") = true /\
  exists l' r',
    applyPermutation (Equation l r) (op_str OpMul ++ "3") =
      inr (Equation (BinaryExpression OpMul l' (atom_expr "3"))
                    (BinaryExpression OpMul r' (atom_expr "3"))) /\
    exprToString l' = exprToString l /\ exprToString r' = exprToString r.
Proof.
  cbv zeta.
  do 5 (split; [vm_compute; reflexivity|]).
  apply X_applyPermutation_label; vm_compute; reflexivity.
Defined.

Lemma X_build_depth_witness :
  buildSolutionTree clock_still 2 sample_eq None 2 0 1000 5000 0 = (inr sample_tree, 15) /\
  forallb (fun c => Nat.leb (st_height c) (2 - 0)) sample_tree = true.
Proof.
  split; [vm_compute; reflexivity|].
  apply (X_build_depth clock_still 2 sample_eq None 2 0 1000 5000 0 sample_tree 15).
  vm_compute. reflexivity.
Defined.

Lemma X_build_solved_leaves_witness :
  buildSolutionTree clock_still 2 sample_eq None 2 0 1000 5000 0 = (inr sample_tree, 15) /\
  forallb solved_unexpanded sample_tree = true.
Proof.
  split; [vm_compute; reflexivity|].
  apply (X_build_solved_leaves clock_still 2 sample_eq None 2 0 1000 5000 0 sample_tree 15).
  vm_compute. reflexivity.
Defined.

Lemma X_stored_tree_witness :
  findSolution_viz clock_still sample_eq 5000 0 = (inr (sample_result, sample_viz), 8) /\
  findSolution clock_still sample_eq 5000 0 = (inr sample_result, 8) /\
  all_timedOut (timedOut sample_result) sample_viz = true /\
  (timedOut sample_result = false ->
   flagged sample_viz = map exprToString (solutions sample_result)).
Proof.
  split; [vm_compute; reflexivity|].
  apply (X_stored_tree clock_still sample_eq 5000 0 sample_result sample_viz 8).
  vm_compute. reflexivity.
Defined.

Lemma X_negative_timeout_witness :
  let solved : Expr float := Equation (Var "x") (lit 3) in
  (forall m, clock_still m <= clock_still (S m))%Z /\ (-1 < 0)%Z /\
  findSolution clock_still solved (-1) 0 = (inr (mkSolveResult [] true), 2) /\
  findSolution_viz clock_still solved (-1) 0 =
    (inr (mkSolveResult [] true,
          treeToVisualizationFormat (STNode (simplify solved) [] None) true), 2).
Proof.
  cbv zeta.
  split; [intros m; unfold clock_still; lia|].
  split; [lia|].
  apply X_negative_timeout; [intros m; unfold clock_still; lia | lia].
Defined.

Lemma X_simplify_no_new_vars_witness :
  In "x" (vars (simplify sample_eq)) /\ In "x" (vars sample_eq).
Proof.
  split; [vm_compute; left; reflexivity|].
  apply (X_simplify_no_new_vars sample_eq "x"). vm_compute. left. reflexivity.
Defined.
